(** * PiggyGameBot: a model of [bot1.py] and [bot/bot1.py]

    The repository holds two copies of one program, [src/bot1.py] and
    [src/bot/bot1.py].  They differ in a handful of constants, in the path of
    the accounts file and in [get_random_user_agent]; everything else is the
    same text.  The model below is one development, parameterised by the
    [source_file] it follows.

    The program talks to the outside (files, clock, random generator, the
    [fake_useragent] and [uuid] libraries, two HTTP endpoints).  Those are
    gathered in a [World]; whatever the program does to the outside (log
    records, printed lines, HTTP posts, sleeps) is appended to a trace. *)

From Stdlib Require Import ZArith NArith QArith List String Ascii Bool Lia.
From Stdlib Require Import DecimalString DecimalPos DecimalN.
Import ListNotations.

Local Open Scope string_scope.
Local Open Scope list_scope.
Local Open Scope Z_scope.

(** ** The two source files *)

Inductive source_file : Type :=
| Bot1        (* src/bot1.py *)
| BotBot1.    (* src/bot/bot1.py *)

(** ** JSON values, as [json.load] returns them *)

#[local] Set Warnings "-register-all".

(** A Python [float]: [json.load] also reads [NaN], [Infinity] and
    [-Infinity], and a literal too large for a double (1e999) becomes an
    infinity.  Finite values are exact rationals here. *)
Inductive pyfloat : Type :=
| Finite (q : Q)
| NaN
| Infinity (negative : bool).

Inductive json : Type :=
| JNull
| JBool (b : bool)
| JInt (z : Z)
| JFloat (x : pyfloat)
| JStr (s : string)
| JArr (items : list json)
| JObj (fields : list (string * json)).

(** A JSON object becomes a Python [dict]; when a key is repeated in the
    text, the last binding wins. *)
Fixpoint dict_lookup (k : string) (fields : list (string * json)) : option json :=
  match fields with
  | [] => None
  | (k', v) :: rest =>
      match dict_lookup k rest with
      | Some v' => Some v'
      | None => if String.eqb k k' then Some v else None
      end
  end.

(** Python truth value of a JSON value ([if x:], [not x]). *)
Definition truthy (j : json) : bool :=
  match j with
  | JNull => false
  | JBool b => b
  | JInt z => negb (z =? 0)
  | JFloat (Finite q) => negb (Qeq_bool q 0)
  | JFloat _ => true
  | JStr s => negb (String.eqb s "")
  | JArr items => match items with [] => false | _ => true end
  | JObj fields => match fields with [] => false | _ => true end
  end.

(** [operator.index]: the values Python accepts where an integer is
    required ([range], [random.randint]).  [bool] is a subclass of [int]. *)
Definition py_index (j : json) : option Z :=
  match j with
  | JInt z => Some z
  | JBool b => Some (if b then 1 else 0)
  | _ => None
  end.

(** The finite numbers, as a number of seconds for [time.sleep]. *)
Definition py_seconds (j : json) : option Q :=
  match j with
  | JInt z => Some (inject_Z z)
  | JBool b => Some (inject_Z (if b then 1 else 0))
  | JFloat (Finite q) => Some q
  | _ => None
  end.

(** ** Exceptions *)

Inductive exn : Type :=
| FileNotFoundError
| OSError               (* another [OSError]: [PermissionError], [IsADirectoryError], [EINVAL] *)
| UnicodeDecodeError
| JSONDecodeError
| RecursionError
| KeyError (key : string)
| AttributeError
| TypeError
| ValueError
| OverflowError
| IndexError
| RequestException      (* anything [requests] raises: timeout, refused, ... *)
| FakeUserAgentError
| SystemExit (code : Z).

(** [except Exception] catches everything but [SystemExit], which derives
    from [BaseException] only. *)
Definition is_Exception (e : exn) : bool :=
  match e with
  | SystemExit _ => false
  | _ => true
  end.

Inductive result (A : Type) : Type :=
| Ok (a : A)
| Raise (e : exn).
Arguments Ok {A} a.
Arguments Raise {A} e.

(** ** Accounts: the dictionaries [load_accounts] builds *)

Record account : Type := mk_account {
  acc_name : json;
  acc_session_token : json;
  acc_cookies : json;
  acc_description : json
}.

(** ** What the program does to the outside *)

Inductive level : Type := NOTSET | DEBUG | INFO | WARNING | ERROR | CRITICAL.

Inductive endpoint : Type :=
| CheckGameCode      (* .../api/trpc/piggyGame.checkGameCode?batch=1 *)
| RecordGameScore.   (* .../api/trpc/piggyGame.recordGameScore?batch=1 *)

(** The body posted: [{"0": {"json": {"gameCode": c}}}] or
    [{"0": {"json": {"score": s}}}]. *)
Inductive payload : Type :=
| GameCode (code : string)
| Score (score : Z).

(** What a post comes back with: a response with a status code, or an
    exception (timeout, connection error). *)
Inductive http_reply : Type :=
| Status (code : Z)
| NoResponse.

(** The three places that call [time.sleep]. *)
Inductive sleep_site : Type :=
| BetweenRounds      (* play_game: time.sleep(delay) *)
| BetweenAccounts    (* play_all_accounts: time.sleep(random.uniform(1, _)) *)
| SchedulerPoll.     (* run_scheduler: time.sleep(3) *)

(** The texts logged and printed, one constructor per f-string of the
    source, with the values it interpolates. *)
Inductive message : Type :=
| MsgConfigMissing (path : string)              (* 配置文件不存在 *)
| MsgConfigMalformed                            (* 配置文件格式错误 *)
| MsgAccountsMissing                            (* 错误: 账户配置文件不存在 *)
| MsgAccountsMalformed (e : exn)                (* 警告: JSON账户配置文件格式错误 *)
| MsgProxyFileMissing                           (* 警告: proxy.txt文件不存在 *)
| MsgGameIdGenerated (name : json) (id : string)
| MsgGameIdFailed (name : json) (e : exn)
| MsgNoGameId (name : json)
| MsgUsingGameId (name : json) (id : string)
| MsgGameCodeFailed (name : json) (e : exn)
| MsgCodeVerified (name : json) (code : string)
| MsgCodeRejected (name : json) (status : Z)
| MsgCodeCheckError (name : json) (e : exn)
| MsgScoreRecorded (name : json) (score : Z)
| MsgScoreRejected (name : json) (status : Z)
| MsgScoreError (name : json) (e : exn)
| MsgRoundStart (name : json) (round : Z)
| MsgRoundNoCode (name : json) (round : Z)
| MsgRoundCheckFailed (name : json) (round : Z)
| MsgRoundScore (name : json) (round : Z) (score : Z)
| MsgRoundDone (name : json) (round : Z)
| MsgRoundRecordFailed (name : json) (round : Z)
| MsgRoundError (name : json) (round : Z) (e : exn)
| MsgSessionStart (name : json) (games_count : json)
| MsgNoAttemptsLeft (name : json)               (* 没有游戏次数，停止游戏 *)
| MsgWaiting (name : json) (delay : json)
| MsgSessionDone (name : json) (games_count : json) (success_count : Z)
| MsgSessionError (name : json) (e : exn)
| MsgNoAccounts                                 (* 没有找到账户信息 *)
| MsgSweepStart (n : nat)
| MsgSweepDone (success_count : Z) (n : nat)
| MsgStartup
| MsgScheduled (interval : json)
| MsgPressCtrlC
| MsgStopped.

Inductive event : Type :=
| EvPrint (m : message)
| EvLog (lvl : level) (m : message)
| EvPost (ep : endpoint) (who : account) (body : payload)
         (ua : string) (proxy : option string) (reply : http_reply)
| EvSleep (site : sleep_site) (seconds : Q).

(** ** The outside world *)

(** What [json.load(open(path, 'r', encoding='utf-8'))] meets:
    - no file: [open] raises [FileNotFoundError];
    - a file that cannot be opened or read (no permission, a directory):
      another [OSError];
    - bytes that are not UTF-8 (a file saved as UTF-16 or Latin-1):
      [UnicodeDecodeError];
    - text that is not JSON (a byte order mark included):
      [JSONDecodeError];
    - JSON nested deeper than the interpreter recurses: [RecursionError];
    - JSON. *)
Inductive json_file : Type :=
| NoJsonFile
| UnreadableJson
| UndecodableJson
| MalformedJson
| TooDeepJson
| ParsedJson (j : json).

(** A text file read line by line: absent, unreadable, with bytes that are
    not UTF-8, or its lines (each with its line end). *)
Inductive text_file : Type :=
| NoTextFile
| UnreadableText
| UndecodableText
| TextLines (lines : list string).

(** What [random.randint(a, b)] does where the interpreters differ. *)
Inductive draw : Type :=
| Drawn (n : Z)
| DrawTypeError
| DrawValueError
| DrawOverflowError.

(** What [time.sleep] does with a long duration. *)
Inductive long_sleep : Type :=
| SleepTaken
| SleepOSError
| SleepOverflowError.

(** Files are read by path.  Every other call to the outside is numbered by
    the [tick] at which it is made, and the world answers by tick:
    - [clock_ms t] is [int(time.time() * 1000)], for a clock that is not
      set before 1970;
    - [uuid_bits t] is the 128-bit integer of [uuid.uuid4()];
    - [rand_bits t] are the bits the random generator draws from;
    - [fake_ua t] is [UserAgent().random], [None] when it raises;
    - [http t] is what [session.post] comes back with.
    Two library calls depend on the interpreter and the platform, and the
    world says what they do there (see [randint] and [time_sleep]):
    - [randint_floats t a b] is [random.randint(a, b)] when a bound is a
      [float] or the lower bound a [str];
    - [sleep_long t d] is [time.sleep(d)] for a duration [d] of more than
      [short_sleep] whose nanoseconds fit 64 bits. *)
Record World : Type := mk_world {
  read_json : string -> json_file;
  read_text : string -> text_file;
  clock_ms : nat -> N;
  uuid_bits : nat -> N;
  rand_bits : nat -> N;
  fake_ua : nat -> option string;
  http : nat -> http_reply;
  randint_floats : nat -> json -> json -> draw;
  sleep_long : nat -> Q -> long_sleep
}.

(** ** The bot object and the state of a run

    Attributes are set one after the other by [__init__]; reading one that
    is not set yet raises [AttributeError]. *)
Record Self : Type := mk_self {
  config_path : string;
  config : option json;
  accounts : option (list account);
  proxies : option (list string);
  user_agent : option unit;
  logger : option level;
  full_user_agents : option (list string)
}.

Record State : Type := mk_state {
  self : Self;
  tick : nat;
  trace : list event
}.

Definition new_self (path : string) : Self :=
  mk_self path None None None None None None.

Definition initial_state (path : string) : State :=
  mk_state (new_self path) 0 [].

(** ** The monad of the model: state, and exceptions that keep the state *)

Definition M (A : Type) : Type := State -> result A * State.

Definition ret {A} (a : A) : M A := fun st => (Ok a, st).

Definition raise {A} (e : exn) : M A := fun st => (Raise e, st).

Definition bind {A B} (m : M A) (f : A -> M B) : M B :=
  fun st =>
    match m st with
    | (Ok a, st') => f a st'
    | (Raise e, st') => (Raise e, st')
    end.

Notation "x <- m ;; k" := (bind m (fun x => k))
  (at level 61, m at next level, right associativity).
Notation "m ;; k" := (bind m (fun _ => k))
  (at level 61, right associativity).

(** [try: m  except <classes> as e: handler e]; [handles e] says whether
    the [except] clauses catch [e]. *)
Definition try_except {A} (m : M A) (handles : exn -> bool) (handler : exn -> M A) : M A :=
  fun st =>
    match m st with
    | (Ok a, st') => (Ok a, st')
    | (Raise e, st') => if handles e then handler e st' else (Raise e, st')
    end.

Definition emit (ev : event) : M unit :=
  fun st => (Ok tt, mk_state (self st) (tick st) (trace st ++ [ev])).

Definition next_tick : M nat :=
  fun st => (Ok (tick st), mk_state (self st) (S (tick st)) (trace st)).

Definition getattr {A} (field : Self -> option A) : M A :=
  fun st =>
    match field (self st) with
    | Some a => (Ok a, st)
    | None => (Raise AttributeError, st)
    end.

Definition setattr (update : Self -> Self) : M unit :=
  fun st => (Ok tt, mk_state (update (self st)) (tick st) (trace st)).

Definition hasattr {A} (field : Self -> option A) : M bool :=
  fun st =>
    match field (self st) with
    | Some _ => (Ok true, st)
    | None => (Ok false, st)
    end.

Definition self_config_path : M string :=
  fun st => (Ok (config_path (self st)), st).

Definition set_config (j : json) (s : Self) : Self :=
  mk_self (config_path s) (Some j) (accounts s) (proxies s)
          (user_agent s) (logger s) (full_user_agents s).

Definition set_accounts (l : list account) (s : Self) : Self :=
  mk_self (config_path s) (config s) (Some l) (proxies s)
          (user_agent s) (logger s) (full_user_agents s).

Definition set_proxies (l : list string) (s : Self) : Self :=
  mk_self (config_path s) (config s) (accounts s) (Some l)
          (user_agent s) (logger s) (full_user_agents s).

Definition set_user_agent (s : Self) : Self :=
  mk_self (config_path s) (config s) (accounts s) (proxies s)
          (Some tt) (logger s) (full_user_agents s).

Definition set_logger (lvl : level) (s : Self) : Self :=
  mk_self (config_path s) (config s) (accounts s) (proxies s)
          (user_agent s) (Some lvl) (full_user_agents s).

Definition set_full_user_agents (l : list string) (s : Self) : Self :=
  mk_self (config_path s) (config s) (accounts s) (proxies s)
          (user_agent s) (logger s) (Some l).

(** ** Strings

    A Python [str] is held as the bytes of its UTF-8 encoding. *)

Definition chars (s : string) : list ascii := list_ascii_of_string s.
Definition text (l : list ascii) : string := string_of_list_ascii l.

(** A byte [10xxxxxx] continues the character begun before it. *)
Definition is_continuation (c : ascii) : bool :=
  let n := N_of_ascii c in ((128 <=? n) && (n <? 192))%N.

(** The characters of a [str], each as the bytes that encode it. *)
Fixpoint code_points (l : list ascii) : list (list ascii) :=
  match l with
  | [] => []
  | c :: rest =>
      match code_points rest with
      | (d :: ds) :: more =>
          if is_continuation d then (c :: d :: ds) :: more
          else [c] :: (d :: ds) :: more
      | others => [c] :: others
      end
  end.

(** The characters [str.strip] removes, those for which [str.isspace]
    holds: U+0009 to U+000D, U+001C to U+0020, U+0085, U+00A0, U+1680,
    U+2000 to U+200A, U+2028, U+2029, U+202F, U+205F and U+3000. *)
Definition is_space (point : list ascii) : bool :=
  match map N_of_ascii point with
  | [a] => ((9 <=? a) && (a <=? 13) || (28 <=? a) && (a <=? 32))%N
  | [a; b] => ((a =? 194) && ((b =? 133) || (b =? 160)))%N
  | [a; b; c] =>
      ((a =? 225) && (b =? 154) && (c =? 128) ||
       (a =? 226) && (b =? 128) &&
         ((128 <=? c) && (c <=? 138) || (c =? 168) || (c =? 169) || (c =? 175)) ||
       (a =? 226) && (b =? 129) && (c =? 159) ||
       (a =? 227) && (b =? 128) && (c =? 128))%N
  | _ => false
  end.

Fixpoint drop_while {A} (p : A -> bool) (l : list A) : list A :=
  match l with
  | [] => []
  | c :: rest => if p c then drop_while p rest else l
  end.

(** [s.strip()] *)
Definition strip (s : string) : string :=
  text (List.concat (rev (drop_while is_space
                       (rev (drop_while is_space (code_points (chars s))))))).

(** [s.startswith(c)] for a one-character [c] *)
Definition startswith (c : ascii) (s : string) : bool :=
  match s with
  | String c' _ => Ascii.eqb c c'
  | EmptyString => false
  end.

(** [s.replace(c, '')] for a one-character [c] *)
Definition remove_char (c : ascii) (s : string) : string :=
  text (filter (fun x => negb (Ascii.eqb x c)) (chars s)).

(** [s[:n]] *)
Definition take (n : nat) (s : string) : string :=
  text (firstn n (chars s)).

(** [str(n)] for a non-negative integer: decimal, no sign, no leading zero. *)
Definition str_of_N (n : N) : string :=
  NilEmpty.string_of_uint (N.to_uint n).

Definition hex_char (d : N) : ascii :=
  nth (N.to_nat d) (chars "0123456789abcdef") "0"%char.

(** The [n] low hexadecimal digits of [u], most significant first. *)
Fixpoint hex_digits (n : nat) (u : N) : list ascii :=
  match n with
  | O => []
  | S n' => hex_digits n' (N.div u 16) ++ [hex_char (N.modulo u 16)]
  end.

(** [str(u)] for a UUID whose 128-bit integer is [u]: 32 hexadecimal digits
    in groups of 8-4-4-4-12. *)
Definition uuid_str (u : N) : string :=
  let h := hex_digits 32 u in
  text (firstn 8 h ++ chars "-" ++
        firstn 4 (skipn 8 h) ++ chars "-" ++
        firstn 4 (skipn 12 h) ++ chars "-" ++
        firstn 4 (skipn 16 h) ++ chars "-" ++
        skipn 20 h).

(** ** The shape of a game code: [<decimal digits>_<8 hex chars>] *)

Definition is_digit (c : ascii) : bool :=
  let n := nat_of_ascii c in ((48 <=? n) && (n <=? 57))%nat.

Definition is_hex (c : ascii) : bool :=
  let n := nat_of_ascii c in
  ((48 <=? n) && (n <=? 57) || (97 <=? n) && (n <=? 102))%nat.

Definition is_game_code (s : string) : bool :=
  let cs := chars s in
  let rest := drop_while is_digit cs in
  match cs, rest with
  | c :: _, u :: hs =>
      is_digit c && Ascii.eqb u "_"%char &&
      (List.length hs =? 8)%nat && forallb is_hex hs
  | _, _ => false
  end.

(** ** The durations of [time.sleep]

    CPython turns the duration into a signed 64-bit number of nanoseconds,
    rounded away from zero, and raises [OverflowError] when it does not fit
    (from about 9.2e9 seconds on); a negative duration raises [ValueError].
    What fits is handed to the system, which has limits of its own: a
    deadline on the monotonic clock ([OSError] when the deadline does not
    fit), the 1e8 seconds of [select] on macOS, the 2^32 - 1 milliseconds
    of Python up to 3.10 on Windows ([OverflowError]).  Durations up to
    [short_sleep] pass every one of these limits; for a longer one the
    world says what the platform does. *)

Definition nanoseconds (seconds : Q) : Z :=
  let n := Qnum seconds * 10 ^ 9 in
  let d := Z.pos (Qden seconds) in
  if 0 <=? n then (n + d - 1) / d else n / d.

Definition fits_int64 (n : Z) : bool :=
  (- 2 ^ 63 <=? n) && (n <=? 2 ^ 63 - 1).

(** Four million seconds, some 46 days. *)
Definition short_sleep : Q := inject_Z 4000000.

(** What [time.sleep(seconds)] called at tick [t] raises, [None] when it
    sleeps. *)
Definition sleep_error (sleep_long : nat -> Q -> long_sleep) (t : nat)
    (seconds : Q) : option exn :=
  if negb (fits_int64 (nanoseconds seconds)) then Some OverflowError
  else if negb (Qle_bool 0 seconds) then Some ValueError
  else if Qle_bool seconds short_sleep then None
  else match sleep_long t seconds with
       | SleepTaken => None
       | SleepOSError => Some OSError
       | SleepOverflowError => Some OverflowError
       end.

(** ** Python operations on JSON values *)

(** [obj.get(key, default)]: only a [dict] has the method. *)
Definition py_get (obj : json) (key : string) (default : json) : M json :=
  match obj with
  | JObj fields =>
      ret (match dict_lookup key fields with Some v => v | None => default end)
  | _ => raise AttributeError
  end.

(** [obj[key]] for a string key. *)
Definition py_subscript (obj : json) (key : string) : M json :=
  match obj with
  | JObj fields =>
      match dict_lookup key fields with
      | Some v => ret v
      | None => raise (KeyError key)
      end
  | _ => raise TypeError
  end.

(** The keys of a [dict], in insertion order, each once. *)
Definition dict_keys (fields : list (string * json)) : list string :=
  rev (nodup string_dec (rev (map fst fields))).

(** [for x in obj]: the items of a list, the characters of a string, the
    keys of a dict; nothing else can be iterated. *)
Definition py_iter (obj : json) : M (list json) :=
  match obj with
  | JArr items => ret items
  | JStr s => ret (map (fun point => JStr (text point)) (code_points (chars s)))
  | JObj fields => ret (map JStr (dict_keys fields))
  | _ => raise TypeError
  end.

(** [range(1, n + 1)] *)
Definition range_from_1 (n : Z) : list Z :=
  map Z.of_nat (seq 1 (Z.to_nat n)).

(** ** The constants in which the two source files differ *)

Definition accounts_path (src : source_file) : string :=
  match src with
  | Bot1 => "config/accounts1.json"
  | BotBot1 => "config/accounts.json"
  end.

Definition default_min_score (src : source_file) : Z :=
  match src with Bot1 => 55 | BotBot1 => 65 end.

Definition default_max_score (src : source_file) : Z :=
  match src with Bot1 => 65 | BotBot1 => 100 end.

Definition default_games_per_session (src : source_file) : Z :=
  match src with Bot1 => 2 | BotBot1 => 3 end.

Definition default_game_delay (src : source_file) : Z :=
  match src with Bot1 => 2 | BotBot1 => 1 end.

Definition default_session_interval (src : source_file) : Z :=
  match src with Bot1 => 3 | BotBot1 => 5 end.

(** The upper end of [random.uniform(1, _)] in [play_all_accounts]. *)
Definition jitter_high (src : source_file) : Z :=
  match src with Bot1 => 2 | BotBot1 => 3 end.

(** The list written out in the [except] branch of [get_random_user_agent]
    in [src/bot/bot1.py].  A comma is missing after the 21st string of the
    source, so Python joins it with the 22nd: the list has 50 items. *)
Definition builtin_user_agents : list string :=
  [ "Mozilla/5.0 (Macintosh; Intel Mac OS X 10_15_7) AppleWebKit/537.36 (KHTML, like Gecko) Chrome/141.0.0.0 Safari/537.36";
    "Mozilla/5.0 (Windows NT 10.0; Win64; x64) AppleWebKit/537.36 (KHTML, like Gecko) Chrome/124.0.0.0 Safari/537.36";
    "Mozilla/5.0 (Windows NT 10.0; Win64; x64; rv:115.0) Gecko/20100101 Firefox/115.0";
    "Mozilla/5.0 (Windows NT 6.3; Win64; x64) AppleWebKit/537.36 (KHTML, like Gecko) Chrome/121.0.6167.86 Safari/537.36";
    "Mozilla/5.0 (Windows NT 6.1; WOW64; Trident/7.0; rv:11.0) like Gecko";
    "Mozilla/5.0 (Windows NT 10.0; WOW64) AppleWebKit/537.36 (KHTML, like Gecko) Chrome/120.0.6099.110 Safari/537.36";
    "Mozilla/5.0 (Windows NT 10.0; Win64; x64) AppleWebKit/537.36 (KHTML, like Gecko) Edge/119.0.2151.44 Safari/537.36";
    "Mozilla/5.0 (Windows NT 10.0; Win64; x64; rv:109.0) Gecko/20100101 Firefox/109.0";
    "Mozilla/5.0 (Windows NT 6.1; Win64; x64) AppleWebKit/537.36 (KHTML, like Gecko) Chrome/118.0.0.0 Safari/537.36";
    "Mozilla/5.0 (Windows NT 10.0; Win64; x64) AppleWebKit/605.1.15 (KHTML, like Gecko) Version/17.0 Safari/605.1.15";
    "Mozilla/5.0 (Windows NT 10.0; Win64; x64) AppleWebKit/537.36 (KHTML, like Gecko) Chrome/125.0.6422.76 YaBrowser/24.1.0.0 Safari/537.36";
    "Mozilla/5.0 (Macintosh; Intel Mac OS X 10_15_7) AppleWebKit/537.36 (KHTML, like Gecko) Chrome/124.0.0.0 Safari/537.36";
    "Mozilla/5.0 (Macintosh; Intel Mac OS X 12_6_3; rv:115.0) Gecko/20100101 Firefox/115.0";
    "Mozilla/5.0 (Macintosh; Intel Mac OS X 11_7_10) AppleWebKit/605.1.15 (KHTML, like Gecko) Version/17.1 Safari/605.1.15";
    "Mozilla/5.0 (Macintosh; Intel Mac OS X 10_14_6) AppleWebKit/537.36 (KHTML, like Gecko) Chrome/122.0.6170.45 Safari/537.36";
    "Mozilla/5.0 (Macintosh; Intel Mac OS X 13_4_1) AppleWebKit/605.1.15 (KHTML, like Gecko) Version/17.0 Safari/605.1.15";
    "Mozilla/5.0 (Macintosh; Intel Mac OS X 10_13_6; rv:110.0) Gecko/20100101 Firefox/110.0";
    "Mozilla/5.0 (Macintosh; Intel Mac OS X 12_1) AppleWebKit/537.36 (KHTML, like Gecko) Chrome/120.0.6099.129 Safari/537.36";
    "Mozilla/5.0 (Macintosh; Intel Mac OS X 10_14_5) AppleWebKit/537.36 (KHTML, like Gecko) Chrome/118.0.5993.169 Safari/537.36";
    "Mozilla/5.0 (Macintosh; Intel Mac OS X 13_2) AppleWebKit/537.36 (KHTML, like Gecko) Chrome/125.0.6422.43 Safari/537.36";
    "Mozilla/5.0 (Macintosh; Intel Mac OS X 11_2_3; rv:102.0) Gecko/20100101 Firefox/102.0Mozilla/5.0 (Macintosh; Intel Mac OS X 10_15_7) AppleWebKit/605.1.15 (KHTML, like Gecko) Version/16.1 Safari/605.1.15";
    "Mozilla/5.0 (iPhone; CPU iPhone OS 16_2 like Mac OS X) AppleWebKit/605.1.15 (KHTML, like Gecko) Version/16.2 Mobile/15E148 Safari/604.1";
    "Mozilla/5.0 (Macintosh; Intel Mac OS X 12_3) AppleWebKit/605.1.15 (KHTML, like Gecko) Version/15.4 Safari/605.1.15";
    "Mozilla/5.0 (iPad; CPU OS 15_1 like Mac OS X) AppleWebKit/605.1.15 (KHTML, like Gecko) Version/15.1 Mobile/15E148 Safari/604.1";
    "Mozilla/5.0 (Macintosh; Intel Mac OS X 11_5_2) AppleWebKit/605.1.15 (KHTML, like Gecko) Version/14.1 Safari/605.1.15";
    "Mozilla/5.0 (iPhone; CPU iPhone OS 14_7 like Mac OS X) AppleWebKit/605.1.15 (KHTML, like Gecko) Version/14.7 Mobile/15E148 Safari/604.1";
    "Mozilla/5.0 (Macintosh; Intel Mac OS X 10_14_6) AppleWebKit/605.1.15 (KHTML, like Gecko) Version/13.1 Safari/605.1.15";
    "Mozilla/5.0 (iPad; CPU OS 14_5 like Mac OS X) AppleWebKit/605.1.15 (KHTML, like Gecko) Version/14.5 Mobile/15E148 Safari/604.1";
    "Mozilla/5.0 (Macintosh; Intel Mac OS X 10_13_6) AppleWebKit/605.1.15 (KHTML, like Gecko) Version/12.1 Safari/605.1.15";
    "Mozilla/5.0 (iPhone; CPU iPhone OS 13_6 like Mac OS X) AppleWebKit/605.1.15 (KHTML, like Gecko) Version/13.6 Mobile/15E148 Safari/604.1";
    "Mozilla/5.0 (Macintosh; Intel Mac OS X 10_12_6) AppleWebKit/605.1.15 (KHTML, like Gecko) Version/12.0 Safari/605.1.15";
    "Mozilla/5.0 (iPad; CPU OS 13_3 like Mac OS X) AppleWebKit/605.1.15 (KHTML, like Gecko) Version/13.3 Mobile/15E148 Safari/604.1";
    "Mozilla/5.0 (iPhone; CPU iPhone OS 12_4 like Mac OS X) AppleWebKit/605.1.15 (KHTML, like Gecko) Version/12.4 Mobile/15E148 Safari/604.1";
    "Mozilla/5.0 (Macintosh; Intel Mac OS X 13_0) AppleWebKit/605.1.15 (KHTML, like Gecko) Version/16.0 Safari/605.1.15";
    "Mozilla/5.0 (iPad; CPU OS 16_1 like Mac OS X) AppleWebKit/605.1.15 (KHTML, like Gecko) Version/16.1 Mobile/15E148 Safari/604.1";
    "Mozilla/5.0 (iPhone; CPU iPhone OS 15_5 like Mac OS X) AppleWebKit/605.1.15 (KHTML, like Gecko) Version/15.5 Mobile/15E148 Safari/604.1";
    "Mozilla/5.0 (Macintosh; Intel Mac OS X 12_6) AppleWebKit/605.1.15 (KHTML, like Gecko) Version/15.6 Safari/605.1.15";
    "Mozilla/5.0 (Macintosh; Intel Mac OS X 11_4) AppleWebKit/605.1.15 (KHTML, like Gecko) Version/14.0 Safari/605.1.15";
    "Mozilla/5.0 (iPhone; CPU iPhone OS 11_4 like Mac OS X) AppleWebKit/605.1.15 (KHTML, like Gecko) Version/11.4 Mobile/15E148 Safari/604.1";
    "Mozilla/5.0 (Macintosh; Intel Mac OS X 10_15_3) AppleWebKit/605.1.15 (KHTML, like Gecko) Version/13.0 Safari/605.1.15";
    "Mozilla/5.0 (iPad; CPU OS 12_5 like Mac OS X) AppleWebKit/605.1.15 (KHTML, like Gecko) Version/12.5 Mobile/15E148 Safari/604.1";
    "Mozilla/5.0 (iPhone; CPU iPhone OS 10_3_3 like Mac OS X) AppleWebKit/602.1.50 (KHTML, like Gecko) Version/10.0 Mobile/14G60 Safari/602.1";
    "Mozilla/5.0 (Macintosh; Intel Mac OS X 10_11_6) AppleWebKit/601.7.8 (KHTML, like Gecko) Version/11.1 Safari/601.7.8";
    "Mozilla/5.0 (iPad; CPU OS 11_4 like Mac OS X) AppleWebKit/604.5.6 (KHTML, like Gecko) Version/11.4 Mobile/15E148 Safari/604.1";
    "Mozilla/5.0 (Macintosh; Intel Mac OS X 10_10_5) AppleWebKit/600.8.9 (KHTML, like Gecko) Version/10.1 Safari/600.8.9";
    "Mozilla/5.0 (Macintosh; Intel Mac OS X 10_9_5) AppleWebKit/537.85.17 (KHTML, like Gecko) Version/9.1 Safari/537.85.17";
    "Mozilla/5.0 (iPhone; CPU iPhone OS 9_3_5 like Mac OS X) AppleWebKit/601.1.46 (KHTML, like Gecko) Version/9.3 Mobile/13G36 Safari/601.1";
    "Mozilla/5.0 (iPad; CPU OS 10_3_3 like Mac OS X) AppleWebKit/603.3.8 (KHTML, like Gecko) Version/10.3 Mobile/14G60 Safari/603.3.8";
    "Mozilla/5.0 (Macintosh; Intel Mac OS X 10_8_5) AppleWebKit/536.30.1 (KHTML, like Gecko) Version/8.0 Safari/536.30.1";
    "Mozilla/5.0 (Macintosh; Intel Mac OS X 10_7_5) AppleWebKit/534.57.2 (KHTML, like Gecko) Version/7.1 Safari/534.57.2" ].

(** * The program *)

Section Program.

Variable w : World.
Variable src : source_file.

(** ** Library calls *)

Definition logger_call (lvl : level) (m : message) : M unit :=
  _ <- getattr logger;;
  emit (EvLog lvl m).

Definition logger_info := logger_call INFO.
Definition logger_warning := logger_call WARNING.
Definition logger_error := logger_call ERROR.

Definition print (m : message) : M unit := emit (EvPrint m).

Definition sys_exit {A} (code : Z) : M A := raise (SystemExit code).

(** [json.load(open(path))] *)
Definition load_json (path : string) : M json :=
  match read_json w path with
  | NoJsonFile => raise FileNotFoundError
  | UnreadableJson => raise OSError
  | UndecodableJson => raise UnicodeDecodeError
  | MalformedJson => raise JSONDecodeError
  | TooDeepJson => raise RecursionError
  | ParsedJson j => ret j
  end.

(** [open(path, 'r', encoding='utf-8')] read line by line, to the end *)
Definition read_lines (path : string) : M (list string) :=
  match read_text w path with
  | NoTextFile => raise FileNotFoundError
  | UnreadableText => raise OSError
  | UndecodableText => raise UnicodeDecodeError
  | TextLines lines => ret lines
  end.

(** [os.path.exists(path)] *)
Definition path_exists (path : string) : bool :=
  match read_text w path with
  | NoTextFile => false
  | _ => true
  end.

(** [int(time.time() * 1000)] *)
Definition time_ms : M N :=
  t <- next_tick;;
  ret (clock_ms w t).

(** [uuid.uuid4()], as its 128-bit integer *)
Definition uuid4 : M N :=
  t <- next_tick;;
  ret (N.modulo (uuid_bits w t) (2 ^ 128)).

(** [random._randbelow(n)] for [n > 0] *)
Definition randbelow (n : Z) : M Z :=
  t <- next_tick;;
  ret (Z.of_N (rand_bits w t) mod n).

(** [random.choice(seq)] *)
Definition random_choice {A} (l : list A) : M A :=
  match l with
  | [] => raise IndexError
  | _ :: _ =>
      i <- randbelow (Z.of_nat (List.length l));;
      match nth_error l (Z.to_nat i) with
      | Some a => ret a
      | None => raise IndexError
      end
  end.

(** [random.randint(a, b)], that is [randrange(a, b + 1)].
    - [b + 1] comes first: [TypeError] when [b] is no number.
    - A lower bound that is [None], a list or a dict raises [TypeError],
      from [operator.index] or from [int].
    - Two integers ([bool] included) give an integer of [[a, b]], or
      [ValueError] when the range is empty.
    - Otherwise a bound is a [float], or the lower bound a [str], and the
      interpreters differ.  From Python 3.12 on, [operator.index] raises
      [TypeError].  Before, [int()] converts: a float with an integral
      value is taken, and the draw may even leave [[a, b]] when [b + 1]
      is rounded; other values raise [ValueError] or [OverflowError].
      The world says which. *)
Definition randint (a b : json) : M Z :=
  match b with
  | JNull | JStr _ | JArr _ | JObj _ => raise TypeError
  | _ =>
      match a with
      | JNull | JArr _ | JObj _ => raise TypeError
      | _ =>
          match py_index a, py_index b with
          | Some lo, Some hi =>
              let width := hi + 1 - lo in
              if 0 <? width then
                r <- randbelow width;;
                ret (lo + r)
              else raise ValueError
          | _, _ =>
              t <- next_tick;;
              match randint_floats w t a b with
              | Drawn n => ret n
              | DrawTypeError => raise TypeError
              | DrawValueError => raise ValueError
              | DrawOverflowError => raise OverflowError
              end
          end
      end
  end.

(** [random.random()] drawn at tick [t]: a multiple of [2^-53] in [0, 1). *)
Definition random_draw (t : nat) : Q :=
  Qmake (Z.of_N (N.modulo (rand_bits w t) (2 ^ 53))) (2 ^ 53).

Definition random_unit : M Q :=
  t <- next_tick;;
  ret (random_draw t).

(** [a + (b - a) * r], the value of [random.uniform(a, b)] when
    [random.random()] draws [r].  Durations are exact rationals here; the
    rounding of floating point is left out. *)
Definition uniform (a b : Z) (r : Q) : Q :=
  Qplus (inject_Z a) (Qmult (inject_Z (b - a)) r).

(** [random.uniform(a, b)] *)
Definition random_uniform (a b : Z) : M Q :=
  r <- random_unit;;
  ret (uniform a b r).

(** [time.sleep(seconds)] for a finite number of seconds. *)
Definition time_sleep (site : sleep_site) (seconds : Q) : M unit :=
  fun st =>
    match sleep_error (sleep_long w) (tick st) seconds with
    | None => emit (EvSleep site seconds) st
    | Some e => raise e st
    end.

(** [time.sleep(delay)] for a JSON value: [NaN] raises [ValueError], an
    infinity [OverflowError], what is no number [TypeError]. *)
Definition py_sleep (site : sleep_site) (delay : json) : M unit :=
  match delay with
  | JFloat NaN => raise ValueError
  | JFloat (Infinity _) => raise OverflowError
  | _ =>
      match py_seconds delay with
      | Some seconds => time_sleep site seconds
      | None => raise TypeError
      end
  end.

(** [self.user_agent.random] *)
Definition user_agent_random : M string :=
  _ <- getattr user_agent;;
  t <- next_tick;;
  match fake_ua w t with
  | Some ua => ret ua
  | None => raise FakeUserAgentError
  end.

(** [session.post(url, headers=..., json=..., proxies=proxy, timeout=30)]
    and the status code of the response.  Of the headers, only the
    user agent is kept in the trace. *)
Definition session_post (ep : endpoint) (who : account) (body : payload)
    (ua : string) (proxy : option string) : M Z :=
  t <- next_tick;;
  emit (EvPost ep who body ua proxy (http w t));;
  match http w t with
  | Status code => ret code
  | NoResponse => raise RequestException
  end.

(** [self.config.get('game_settings', {}).get(key, default)] *)
Definition game_setting (key : string) (default : Z) : M json :=
  cfg <- getattr config;;
  gs <- py_get cfg "game_settings" (JObj []);;
  py_get gs key (JInt default).

(** ** [load_config] *)

Definition load_config : M json :=
  try_except
    (path <- self_config_path;;
     load_json path)
    (fun e => match e with
              | FileNotFoundError | JSONDecodeError => true
              | _ => false
              end)
    (fun e =>
       match e with
       | FileNotFoundError =>
           path <- self_config_path;;
           logger_error (MsgConfigMissing path);;
           sys_exit 1
       | _ =>
           logger_error MsgConfigMalformed;;
           sys_exit 1
       end).

(** ** [load_accounts] *)

Fixpoint load_accounts_loop (items : list json) (accounts : list account)
  : M (list account) :=
  match items with
  | [] => ret accounts
  | account :: rest =>
      enabled <- py_get account "enabled" (JBool true);;
      if truthy enabled then
        name <- py_subscript account "name";;
        session_token <- py_subscript account "session_token";;
        cookies <- py_get account "cookies" (JStr "");;
        description <- py_get account "description" (JStr "");;
        load_accounts_loop rest
          (accounts ++ [mk_account name session_token cookies description])
      else load_accounts_loop rest accounts
  end.

Definition load_accounts : M (list account) :=
  try_except
    (accounts_data <- load_json (accounts_path src);;
     listed <- py_get accounts_data "accounts" (JArr []);;
     items <- py_iter listed;;
     load_accounts_loop items [])
    (fun e => match e with
              | FileNotFoundError | JSONDecodeError | KeyError _ => true
              | _ => false
              end)
    (fun e =>
       match e with
       | FileNotFoundError => print MsgAccountsMissing;; ret []
       | _ => print (MsgAccountsMalformed e);; ret []
       end).

(** ** [load_proxies] *)

(** The body of [for line in f], over the lines still to read. *)
Fixpoint load_proxies_loop (lines : list string) (proxies : list string)
  : list string :=
  match lines with
  | [] => proxies
  | line :: rest =>
      let line := strip line in
      if negb (String.eqb line "") && negb (startswith "#"%char line)
      then load_proxies_loop rest (proxies ++ [line])
      else load_proxies_loop rest proxies
  end.

Definition load_proxies : M (list string) :=
  try_except
    (lines <- read_lines "proxy.txt";;
     ret (load_proxies_loop lines []))
    (fun e => match e with FileNotFoundError => true | _ => false end)
    (fun _ => print MsgProxyFileMissing;; ret []).

(** ** [setup_logging] *)

(** [getattr(logging, name)] for the names of the levels; any other name is
    taken to make [setup_logging] fail. *)
Definition logging_level (name : string) : option level :=
  if String.eqb name "NOTSET" then Some NOTSET
  else if String.eqb name "DEBUG" then Some DEBUG
  else if String.eqb name "INFO" then Some INFO
  else if String.eqb name "WARNING" then Some WARNING
  else if String.eqb name "WARN" then Some WARNING
  else if String.eqb name "ERROR" then Some ERROR
  else if String.eqb name "CRITICAL" then Some CRITICAL
  else if String.eqb name "FATAL" then Some CRITICAL
  else None.

Definition setup_logging : M unit :=
  cfg <- getattr config;;
  name <- py_get cfg "log_level" (JStr "INFO");;
  match name with
  | JStr s =>
      match logging_level s with
      | Some lvl => setattr (set_logger lvl)
      | None => raise AttributeError
      end
  | _ => raise TypeError
  end.

(** ** [__init__] *)

Definition init : M unit :=
  cfg <- load_config;;
  setattr (set_config cfg);;
  accs <- load_accounts;;
  setattr (set_accounts accs);;
  prox <- load_proxies;;
  setattr (set_proxies prox);;
  setattr set_user_agent;;
  setup_logging.

(** ** [get_random_proxy] *)

Definition get_random_proxy : M (option string) :=
  pool <- getattr proxies;;
  match pool with
  | [] => ret None
  | _ :: _ =>
      proxy_url <- random_choice pool;;
      ret (Some proxy_url)
  end.

(** ** [get_random_user_agent] *)

Definition nonempty_lines (lines : list string) : list string :=
  filter (fun l => negb (String.eqb l "")) (map strip lines).

(** The second half of the function in [src/bot1.py]: pick from the loaded
    list when it is not empty, else ask [fake_useragent]. *)
Definition pick_user_agent : M string :=
  pool <- getattr full_user_agents;;
  match pool with
  | [] => user_agent_random
  | _ :: _ => random_choice pool
  end.

Definition get_random_user_agent : M string :=
  match src with
  | Bot1 =>
      try_except
        (loaded <- hasattr full_user_agents;;
         if loaded then pick_user_agent
         else if path_exists "user_agents.txt" then
           lines <- read_lines "user_agents.txt";;
           setattr (set_full_user_agents (nonempty_lines lines));;
           pick_user_agent
         else user_agent_random)
        is_Exception
        (fun _ => user_agent_random)
  | BotBot1 =>
      try_except
        user_agent_random
        is_Exception
        (fun _ => random_choice builtin_user_agents)
  end.

(** ** [get_game_id] and [get_game_code] *)

Definition get_game_id (account : account) : M (option string) :=
  try_except
    (timestamp <- time_ms;;
     u <- uuid4;;
     let random_part := take 8 (remove_char "-"%char (uuid_str u)) in
     let game_id := (str_of_N timestamp ++ "_" ++ random_part)%string in
     logger_info (MsgGameIdGenerated (acc_name account) game_id);;
     ret (Some game_id))
    is_Exception
    (fun e =>
       logger_error (MsgGameIdFailed (acc_name account) e);;
       ret None).

(** [not game_id] for an optional string: [None] and [''] are false. *)
Definition falsy_code (c : option string) : bool :=
  match c with
  | None => true
  | Some s => String.eqb s ""
  end.

Definition get_game_code (account : account) : M (option string) :=
  try_except
    (game_id <- get_game_id account;;
     match game_id with
     | Some id =>
         if String.eqb id "" then
           logger_warning (MsgNoGameId (acc_name account));;
           ret None
         else
           logger_info (MsgUsingGameId (acc_name account) id);;
           ret (Some id)
     | None =>
         logger_warning (MsgNoGameId (acc_name account));;
         ret None
     end)
    is_Exception
    (fun e =>
       logger_error (MsgGameCodeFailed (acc_name account) e);;
       ret None).

(** ** [check_game_code] and [record_game_score] *)

Definition check_game_code (account : account) (game_code : string) : M bool :=
  try_except
    (ua <- get_random_user_agent;;
     proxy <- get_random_proxy;;
     status_code <- session_post CheckGameCode account (GameCode game_code) ua proxy;;
     if status_code =? 200 then
       logger_info (MsgCodeVerified (acc_name account) game_code);;
       ret true
     else
       logger_error (MsgCodeRejected (acc_name account) status_code);;
       ret false)
    is_Exception
    (fun e =>
       logger_error (MsgCodeCheckError (acc_name account) e);;
       ret false).

Definition record_game_score (account : account) (score : Z) : M bool :=
  try_except
    (ua <- get_random_user_agent;;
     proxy <- get_random_proxy;;
     status_code <- session_post RecordGameScore account (Score score) ua proxy;;
     if status_code =? 200 then
       logger_info (MsgScoreRecorded (acc_name account) score);;
       ret true
     else
       logger_error (MsgScoreRejected (acc_name account) status_code);;
       ret false)
    is_Exception
    (fun e =>
       logger_error (MsgScoreError (acc_name account) e);;
       ret false).

(** ** [play_single_game] *)

Definition play_single_game (account : account) (game_round : Z) : M bool :=
  try_except
    (logger_info (MsgRoundStart (acc_name account) game_round);;
     (* 1. the game code *)
     game_code <- get_game_code account;;
     if falsy_code game_code then
       logger_error (MsgRoundNoCode (acc_name account) game_round);;
       ret false
     else
       match game_code with
       | None => ret false
       | Some code =>
           (* 2. check it *)
           checked <- check_game_code account code;;
           if negb checked then
             logger_error (MsgRoundCheckFailed (acc_name account) game_round);;
             ret false
           else
             (* 3. a score in the configured range *)
             min_score <- game_setting "min_score" (default_min_score src);;
             max_score <- game_setting "max_score" (default_max_score src);;
             score <- randint min_score max_score;;
             logger_info (MsgRoundScore (acc_name account) game_round score);;
             (* 4. record it *)
             recorded <- record_game_score account score;;
             if recorded then
               logger_info (MsgRoundDone (acc_name account) game_round);;
               ret true
             else
               logger_error (MsgRoundRecordFailed (acc_name account) game_round);;
               ret false
       end)
    is_Exception
    (fun e =>
       logger_error (MsgRoundError (acc_name account) game_round e);;
       ret false).

(** ** [play_game] *)

(** The body of [for i in range(1, games_count + 1)], over the rounds still
    to play; leaving the recursion is the [break]. *)
Fixpoint play_game_rounds (account : account) (games_count : Z)
    (rounds : list Z) (success_count : Z) : M Z :=
  match rounds with
  | [] => ret success_count
  | i :: rest =>
      result <- play_single_game account i;;
      if negb result then
        logger_info (MsgNoAttemptsLeft (acc_name account));;
        ret success_count
      else
        let success_count := success_count + 1 in
        (if i <? games_count then
           delay <- game_setting "game_delay" (default_game_delay src);;
           logger_info (MsgWaiting (acc_name account) delay);;
           py_sleep BetweenRounds delay
         else ret tt);;
        play_game_rounds account games_count rest success_count
  end.

Definition play_game (account : account) : M bool :=
  try_except
    (games_count <- game_setting "games_per_session" (default_games_per_session src);;
     logger_info (MsgSessionStart (acc_name account) games_count);;
     match py_index games_count with
     | None => raise TypeError
     | Some n =>
         success_count <- play_game_rounds account n (range_from_1 n) 0;;
         logger_info (MsgSessionDone (acc_name account) games_count success_count);;
         ret (0 <? success_count)
     end)
    is_Exception
    (fun e =>
       logger_error (MsgSessionError (acc_name account) e);;
       ret false).

(** ** [play_all_accounts] *)

Fixpoint play_accounts_loop (todo : list account) (success_count : Z) : M Z :=
  match todo with
  | [] => ret success_count
  | account :: rest =>
      ok <- play_game account;;
      let success_count := if ok then success_count + 1 else success_count in
      jitter <- random_uniform 1 (jitter_high src);;
      time_sleep BetweenAccounts jitter;;
      play_accounts_loop rest success_count
  end.

Definition play_all_accounts : M unit :=
  accs <- getattr accounts;;
  match accs with
  | [] => logger_warning MsgNoAccounts
  | _ :: _ =>
      logger_info (MsgSweepStart (List.length accs));;
      success_count <- play_accounts_loop accs 0;;
      logger_info (MsgSweepDone success_count (List.length accs))
  end.

(** ** [run_scheduler], [run_once] and [main] *)

(** The loop [while True: schedule.run_pending(); time.sleep(3)] runs until
    the user interrupts it.  A run is described by its polls up to the
    interrupt: for each one, whether the job was due. *)
Fixpoint scheduler_polls (polls : list bool) : M unit :=
  match polls with
  | [] => logger_info MsgStopped
  | due :: rest =>
      (if due then play_all_accounts else ret tt);;
      time_sleep SchedulerPoll (inject_Z 3);;
      scheduler_polls rest
  end.

Definition run_scheduler (polls : list bool) : M unit :=
  logger_info MsgStartup;;
  play_all_accounts;;
  interval <- game_setting "session_interval" (default_session_interval src);;
  logger_info (MsgScheduled interval);;
  logger_info MsgPressCtrlC;;
  scheduler_polls polls.

Definition run_once : M unit := play_all_accounts.

(** [main]: [once] is whether [--once] was given. *)
Definition main (once : bool) (polls : list bool) : M unit :=
  init;;
  if once then run_once else run_scheduler polls.

(** The process: [main] on a fresh object with the default config path. *)
Definition run_process (once : bool) (polls : list bool) : result unit * State :=
  main once polls (initial_state "config/config.json").

End Program.

(** * Reading runs and traces *)

(** An object on which [__init__] ran to its end: every attribute the
    methods read is set, and the config is a [dict] (else [setup_logging]
    would have raised). *)
Definition constructed (s : Self) : bool :=
  match config s, accounts s, proxies s, user_agent s, logger s with
  | Some (JObj _), Some _, Some _, Some _, Some _ => true
  | _, _, _, _, _ => false
  end.

(** The events a run added to the trace of the state it started in. *)
Definition new_events (before after : State) : list event :=
  skipn (List.length (trace before)) (trace after).

(** The value the code reads for a game setting, where an integer is
    required. *)
Definition configured (key : string) (default : Z) (st : State)
  : option Z :=
  match fst (game_setting key default st) with
  | Ok j => py_index j
  | Raise _ => None
  end.

(** The duration the code reads for [game_delay], when it is a number. *)
Definition configured_delay (src : source_file) (st : State) : option Q :=
  match fst (game_setting "game_delay" (default_game_delay src) st) with
  | Ok j => py_seconds j
  | Raise _ => None
  end.

(** Posts and sleeps, without the log records and printed lines. *)
Definition is_effect (ev : event) : bool :=
  match ev with
  | EvPost _ _ _ _ _ _ | EvSleep _ _ => true
  | _ => false
  end.

Definition effects (evs : list event) : list event := filter is_effect evs.

(** The scores passed to [record_game_score] that reached the endpoint. *)
Definition record_scores (evs : list event) : list Z :=
  flat_map (fun ev => match ev with
                      | EvPost RecordGameScore _ (Score s) _ _ _ => [s]
                      | _ => []
                      end) evs.

(** The posts to the record endpoint. *)
Definition record_calls (evs : list event) : list event :=
  filter (fun ev => match ev with
                    | EvPost RecordGameScore _ _ _ _ _ => true
                    | _ => false
                    end) evs.

(** What the posts to the check endpoint came back with. *)
Definition check_replies (evs : list event) : list http_reply :=
  flat_map (fun ev => match ev with
                      | EvPost CheckGameCode _ _ _ _ reply => [reply]
                      | _ => []
                      end) evs.

(** The number of scores the record endpoint accepted (status 200). *)
Definition recorded_ok (evs : list event) : nat :=
  List.length (filter (fun ev => match ev with
                            | EvPost RecordGameScore _ _ _ _ (Status 200) => true
                            | _ => false
                            end) evs).

(** The durations slept at a site. *)
Definition sleeps (site : sleep_site) (evs : list event) : list Q :=
  flat_map (fun ev => match ev, site with
                      | EvSleep BetweenRounds d, BetweenRounds
                      | EvSleep BetweenAccounts d, BetweenAccounts
                      | EvSleep SchedulerPoll d, SchedulerPoll => [d]
                      | _, _ => []
                      end) evs.

(** The posts and sleeps of one round, as [play_single_game] makes them:
    at most one check call, then at most one record call, and the record
    call only after a check call that came back with 200. *)
Inductive round_effects (who : account) (in_range : Z -> Prop)
  : bool -> list event -> Prop :=
| RoundNoCheck :
    round_effects who in_range false []
| RoundCheckFailed code ua proxy reply :
    reply <> Status 200 ->
    round_effects who in_range false
      [EvPost CheckGameCode who (GameCode code) ua proxy reply]
| RoundNoRecord code ua proxy :
    round_effects who in_range false
      [EvPost CheckGameCode who (GameCode code) ua proxy (Status 200)]
| RoundRecordFailed code ua proxy score ua' proxy' reply :
    in_range score ->
    reply <> Status 200 ->
    round_effects who in_range false
      [EvPost CheckGameCode who (GameCode code) ua proxy (Status 200);
       EvPost RecordGameScore who (Score score) ua' proxy' reply]
| RoundRecorded code ua proxy score ua' proxy' :
    in_range score ->
    round_effects who in_range true
      [EvPost CheckGameCode who (GameCode code) ua proxy (Status 200);
       EvPost RecordGameScore who (Score score) ua' proxy' (Status 200)].

(** An event of the session of one account: its own posts, and sleeps
    between rounds only. *)
Definition session_event (who : account) (ev : event) : Prop :=
  match ev with
  | EvPost _ who' _ _ _ _ => who' = who
  | EvSleep site _ => site = BetweenRounds
  | EvLog _ _ | EvPrint _ => True
  end.

(** The events of the loop of [play_all_accounts]: for each account in
    turn, the events of its session, then one sleep between accounts, as
    long as [random.uniform(1, high)] makes it from a draw of
    [random.random()]. *)
Inductive sweep_events (w : World) (high : Z) : list account -> list event -> Prop :=
| SweepDone :
    sweep_events w high [] []
| SweepAccount who rest session t evs :
    Forall (session_event who) session ->
    sweep_events w high rest evs ->
    sweep_events w high (who :: rest)
      (session ++ EvSleep BetweenAccounts (uniform 1 high (random_draw w t)) :: evs).

(** ** Specifications of the methods of a constructed object

    [bot cfg accs prox st]: in [st] the object is constructed, with config
    [cfg], accounts [accs] and proxies [prox].  [spec m Q]: from such a
    state, [m] leaves such a state, only adds events to the trace, and its
    result and the events it added satisfy [Q]. *)

Definition bot (cfg : list (string * json)) (accs : list account)
    (prox : list string) (st : State) : Prop :=
  config (self st) = Some (JObj cfg) /\
  accounts (self st) = Some accs /\
  proxies (self st) = Some prox /\
  user_agent (self st) = Some tt /\
  logger (self st) <> None.

Definition spec (cfg : list (string * json)) (accs : list account)
    (prox : list string) {A} (m : M A)
    (Q : result A -> list event -> Prop) : Prop :=
  forall st, bot cfg accs prox st ->
    exists evs,
      bot cfg accs prox (snd (m st)) /\
      trace (snd (m st)) = trace st ++ evs /\
      Q (fst (m st)) evs.

(** The value of a game setting, read off the config. *)
Definition setting (cfg : list (string * json)) (key : string) (default : Z)
  : result json :=
  match (match dict_lookup "game_settings" cfg with
         | Some v => v
         | None => JObj []
         end) with
  | JObj gs =>
      Ok (match dict_lookup key gs with
          | Some v => v
          | None => JInt default
          end)
  | _ => Raise AttributeError
  end.

(** The score range of a config, when both ends are integers. *)
Definition score_range (src : source_file) (cfg : list (string * json))
  : option (Z * Z) :=
  match setting cfg "min_score" (default_min_score src),
        setting cfg "max_score" (default_max_score src) with
  | Ok a, Ok b =>
      match py_index a, py_index b with
      | Some lo, Some hi => Some (lo, hi)
      | _, _ => None
      end
  | _, _ => None
  end.

(** A score that respects the configured range: it lies between the two
    ends when both are integers.  (With a float or a string for an end,
    what [random.randint] draws depends on the interpreter.) *)
Definition in_score_range (src : source_file) (cfg : list (string * json))
    (s : Z) : Prop :=
  forall lo hi, score_range src cfg = Some (lo, hi) -> lo <= s <= hi.

(** A call that adds nothing to the trace, and raises nothing beyond
    [Exception]. *)
Definition silent {A} (r : result A) (evs : list event) : Prop :=
  evs = [] /\
  match r with
  | Ok _ => True
  | Raise e => is_Exception e = true
  end.


(** What [get_game_id] and [get_game_code] come back with: a well-formed
    code, and no post or sleep on the way. *)
Definition yields_game_code (r : result (option string)) (evs : list event) : Prop :=
  effects evs = [] /\ exists code, r = Ok (Some code) /\ is_game_code code = true.

(** What [check_game_code] and [record_game_score] come back with: [True]
    after one post answered with 200; [False] after one post answered
    otherwise, or after no post at all (an exception before it). *)
Definition post_outcome (ep : endpoint) (who : account) (body : payload)
    (r : result bool) (evs : list event) : Prop :=
  exists b, r = Ok b /\
    ((b = true /\
      exists ua proxy,
        effects evs = [EvPost ep who body ua proxy (Status 200)]) \/
     (b = false /\
      (effects evs = [] \/
       exists ua proxy reply,
         reply <> Status 200 /\
         effects evs = [EvPost ep who body ua proxy reply]))).

(** The same before the [except] clause: an exception may still be on its
    way out. *)
Definition post_attempt (ep : endpoint) (who : account) (body : payload)
    (r : result bool) (evs : list event) : Prop :=
  match r with
  | Ok _ => post_outcome ep who body r evs
  | Raise e =>
      is_Exception e = true /\
      (effects evs = [] \/
       exists ua proxy,
         effects evs = [EvPost ep who body ua proxy NoResponse])
  end.

(** What [play_single_game] comes back with, and the same before its
    [except] clause. *)
Definition round_outcome (who : account) (in_range : Z -> Prop)
    (r : result bool) (evs : list event) : Prop :=
  exists b, r = Ok b /\ round_effects who in_range b (effects evs).

Definition round_attempt (who : account) (in_range : Z -> Prop)
    (r : result bool) (evs : list event) : Prop :=
  match r with
  | Ok b => round_effects who in_range b (effects evs)
  | Raise e => is_Exception e = true /\ round_effects who in_range false (effects evs)
  end.

(** A duration [time.sleep] takes in a world whenever it is called: it is
    not negative, and either at most [short_sleep] or one the platform
    takes. *)
Definition sleep_accepts (w : World) (seconds : Q) : Prop :=
  forall t, sleep_error (sleep_long w) t seconds = None.

(** A config whose [game_delay] is a duration [time.sleep] takes. *)
Definition delay_ok (w : World) (src : source_file) (cfg : list (string * json))
  : Prop :=
  exists j seconds,
    setting cfg "game_delay" (default_game_delay src) = Ok j /\
    py_seconds j = Some seconds /\
    sleep_accepts w seconds.

(** What the loop of [play_game] comes back with, started with
    [success_count]: the count grows by one for each score the endpoint
    accepted; the loop raises only when [time.sleep] refuses the delay. *)
Definition rounds_outcome (w : World) (src : source_file)
    (cfg : list (string * json))
    (who : account) (success_count : Z) (r : result Z) (evs : list event) : Prop :=
  Forall (session_event who) evs /\
  match r with
  | Ok n => n = success_count + Z.of_nat (recorded_ok evs)
  | Raise e => is_Exception e = true /\ ~ delay_ok w src cfg
  end.

(** What [play_game] comes back with: never an exception; [True] only
    after an accepted score; and [True] after every accepted score when the
    delay is one [time.sleep] accepts. *)
Definition session_outcome (w : World) (src : source_file)
    (cfg : list (string * json))
    (who : account) (r : result bool) (evs : list event) : Prop :=
  Forall (session_event who) evs /\
  exists b, r = Ok b /\
    (b = true -> (0 < recorded_ok evs)%nat) /\
    (delay_ok w src cfg -> (0 < recorded_ok evs)%nat -> b = true).

(** What [play_all_accounts] adds to the trace: one warning when there is
    no account; else the loop between two log records. *)
Definition sweep_outcome (w : World) (src : source_file) (accs : list account)
    (r : result unit) (evs : list event) : Prop :=
  r = Ok tt /\
  match accs with
  | [] => evs = [EvLog WARNING MsgNoAccounts]
  | _ :: _ =>
      exists success_count body,
        evs = EvLog INFO (MsgSweepStart (List.length accs)) :: body ++
              [EvLog INFO (MsgSweepDone success_count (List.length accs))] /\
        sweep_events w (jitter_high src) accs body
  end.

(** * Sample runs

    Concrete worlds on which the program is run in the examples below. *)

Definition sample_account : account :=
  mk_account (JStr "alice") (JStr "token") (JStr "") (JStr "").

Definition sample_accounts_json : json :=
  JObj [("accounts",
         JArr [JObj [("name", JStr "alice"); ("session_token", JStr "token")]])].

(** A config with score range [10, 20]. *)
Definition sample_config (games_per_session game_delay : Z) : json :=
  JObj [("log_level", JStr "INFO");
        ("game_settings",
         JObj [("min_score", JInt 10);
               ("max_score", JInt 20);
               ("games_per_session", JInt games_per_session);
               ("game_delay", JInt game_delay)])].

(** A world with the given config and accounts files (the accounts file
    under both of its names), no proxy and no user-agent file, a fixed clock
    and UUID, the given random bits, and the given answers of
    [fake_useragent] and of the server; an interpreter whose
    [random.randint] raises [TypeError] on a float, and a platform that
    takes long sleeps. *)
Definition sample_world (config_file accounts_file : json_file) (bits : N)
    (ua : nat -> option string) (replies : nat -> http_reply) : World :=
  mk_world
    (fun path =>
       if String.eqb path "config/config.json" then config_file
       else if String.eqb path "config/accounts1.json" then accounts_file
       else if String.eqb path "config/accounts.json" then accounts_file
       else NoJsonFile)
    (fun _ => NoTextFile)
    (fun _ => 1730000000000%N)
    (fun _ => 0x12345678abcdef0123456789abcdef01%N)
    (fun _ => bits)
    ua
    replies
    (fun _ _ _ => DrawTypeError)
    (fun _ _ => SleepTaken).

(** The object [__init__] builds in a world. *)
Definition constructed_in (w : World) (src : source_file) : State :=
  snd (init w src (initial_state "config/config.json")).

(** Three rounds, one second between them, every call answered with 200. *)
Definition friendly_world : World :=
  sample_world (ParsedJson (sample_config 3 1)) (ParsedJson sample_accounts_json)
    7 (fun _ => Some "Mozilla/5.0") (fun _ => Status 200).

(** The same with a server that answers 403 to everything. *)
Definition hostile_world : World :=
  sample_world (ParsedJson (sample_config 3 1)) (ParsedJson sample_accounts_json)
    7 (fun _ => Some "Mozilla/5.0") (fun _ => Status 403).

(** Two rounds and a game delay of -1 seconds, every call answered with 200. *)
Definition negative_delay_world : World :=
  sample_world (ParsedJson (sample_config 2 (-1))) (ParsedJson sample_accounts_json)
    7 (fun _ => Some "Mozilla/5.0") (fun _ => Status 200).

(** The same with a game delay of 10^10 seconds. *)
Definition long_delay_world : World :=
  sample_world (ParsedJson (sample_config 2 (10 ^ 10))) (ParsedJson sample_accounts_json)
    7 (fun _ => Some "Mozilla/5.0") (fun _ => Status 200).

(** The code [get_game_id] builds when the clock reads [timestamp]
    milliseconds and the UUID drawn is [u]. *)
Definition game_id_of (timestamp u : N) : string :=
  (str_of_N timestamp ++ "_" ++ take 8 (remove_char "-"%char (uuid_str u)))%string.

(** ** Reading the files *)

(** The level [setup_logging] finds in a config. *)
Definition config_log_level (cfg : list (string * json)) : option level :=
  match (match dict_lookup "log_level" cfg with
         | Some v => v
         | None => JStr "INFO"
         end) with
  | JStr name => logging_level name
  | _ => None
  end.

(** What [load_proxies] prints. *)
Definition proxy_file_events (w : World) : list event :=
  match read_text w "proxy.txt" with
  | NoTextFile => [EvPrint MsgProxyFileMissing]
  | _ => []
  end.

(** A [proxy.txt] that [load_proxies] gets through: absent, or read to its
    end. *)
Definition proxy_file_loads (w : World) : bool :=
  match read_text w "proxy.txt" with
  | NoTextFile | TextLines _ => true
  | UnreadableText | UndecodableText => false
  end.

Definition is_object (j : json) : bool :=
  match j with
  | JObj _ => true
  | _ => false
  end.

(** An account object that [load_accounts] keeps: [enabled] is absent or
    true. *)
Definition is_enabled (j : json) : bool :=
  match j with
  | JObj fields =>
      truthy (match dict_lookup "enabled" fields with
              | Some v => v
              | None => JBool true
              end)
  | _ => false
  end.

(** An account object without ['name'] or without ['session_token']. *)
Definition lacks_credentials (j : json) : bool :=
  match j with
  | JObj fields =>
      match dict_lookup "name" fields, dict_lookup "session_token" fields with
      | Some _, Some _ => false
      | _, _ => true
      end
  | _ => false
  end.

(** The pool of [src/bot1.py]: the list already loaded, else the non-blank
    lines of [user_agents.txt]; empty when the file is absent or cannot be
    read. *)
Definition user_agent_pool (w : World) (st : State) : list string :=
  match full_user_agents (self st) with
  | Some pool => pool
  | None =>
      match read_text w "user_agents.txt" with
      | TextLines lines => nonempty_lines lines
      | _ => []
      end
  end.

(** Whether the call has to read [user_agents.txt] and fails at it. *)
Definition pool_file_fails (w : World) (st : State) : bool :=
  match full_user_agents (self st), read_text w "user_agents.txt" with
  | None, (UnreadableText | UndecodableText) => true
  | _, _ => false
  end.

(** What [fake_useragent] gives when asked at tick [t], and asked once more
    when that raised. *)
Definition fake_useragent_twice (w : World) (t : nat) : result string :=
  match fake_ua w t with
  | Some ua => Ok ua
  | None =>
      match fake_ua w (S t) with
      | Some ua => Ok ua
      | None => Raise FakeUserAgentError
      end
  end.

(** What [src/bot1.py] falls back to with an empty pool: [fake_useragent],
    asked in the body of the [try] and again in the [except] clause; asked
    in the [except] clause only when reading the pool file raised. *)
Definition user_agent_fallback (w : World) (st : State) : result string :=
  if pool_file_fails w st then
    match fake_ua w (tick st) with
    | Some ua => Ok ua
    | None => Raise FakeUserAgentError
    end
  else fake_useragent_twice w (tick st).

(** A world where [fake_useragent] always raises and there is no
    [user_agents.txt]. *)
Definition no_user_agent_world : World :=
  sample_world (ParsedJson (sample_config 3 1)) (ParsedJson sample_accounts_json)
    7 (fun _ => None) (fun _ => Status 200).

(** A world with a [user_agents.txt] of one line. *)
Definition pool_file_world : World :=
  mk_world
    (read_json friendly_world)
    (fun path =>
       if String.eqb path "user_agents.txt" then TextLines ["PoolAgent/1.0"]
       else NoTextFile)
    (clock_ms friendly_world) (uuid_bits friendly_world)
    (rand_bits friendly_world) (fake_ua friendly_world) (http friendly_world)
    (randint_floats friendly_world) (sleep_long friendly_world).

(** A world where [random.random()] always draws 0.75 and the server
    answers 403. *)
Definition three_quarters_world : World :=
  sample_world (ParsedJson (sample_config 3 1)) (ParsedJson sample_accounts_json)
    (3 * 2 ^ 51) (fun _ => Some "Mozilla/5.0") (fun _ => Status 403).

(** A world whose accounts file is text, but not JSON. *)
Definition malformed_accounts_world : World :=
  sample_world (ParsedJson (sample_config 3 1)) MalformedJson
    7 (fun _ => Some "Mozilla/5.0") (fun _ => Status 200).

(** A world whose accounts file is not UTF-8 (saved as UTF-16, say), and
    one whose accounts file is nested too deep. *)
Definition undecodable_accounts_world : World :=
  sample_world (ParsedJson (sample_config 3 1)) UndecodableJson
    7 (fun _ => Some "Mozilla/5.0") (fun _ => Status 200).

Definition deep_accounts_world : World :=
  sample_world (ParsedJson (sample_config 3 1)) TooDeepJson
    7 (fun _ => Some "Mozilla/5.0") (fun _ => Status 200).

(** An accounts file with three enabled accounts, the second of which has
    no session token. *)
Definition incomplete_accounts : list json :=
  [JObj [("name", JStr "alice"); ("session_token", JStr "token-a")];
   JObj [("name", JStr "bob"); ("enabled", JBool true)];
   JObj [("name", JStr "carol"); ("session_token", JStr "token-c")]].

Definition incomplete_accounts_world : World :=
  sample_world (ParsedJson (sample_config 3 1))
    (ParsedJson (JObj [("accounts", JArr incomplete_accounts)]))
    7 (fun _ => Some "Mozilla/5.0") (fun _ => Status 200).

(** * Further properties: definitions *)

(** A proxy as [get_random_proxy] may pick it from a pool: none from an
    empty pool, else one of the pool. *)
Definition proxy_from (pool : list string) (proxy : option string) : Prop :=
  match proxy with
  | None => pool = []
  | Some p => In p pool
  end.

(** Text without white space at either end: [strip] leaves it as it is. *)
Definition trimmed (s : string) : Prop := strip s = s.

(** A stripped line that [load_proxies] keeps: not empty, and no comment. *)
Definition keep_proxy_line (line : string) : bool :=
  negb (String.eqb line "") && negb (startswith "#"%char line).

(** The bytes of the characters of a [str]: no character is empty,
    continuation bytes follow the first byte of a character, and only
    them. *)
Definition well_cut (points : list (list ascii)) : Prop :=
  Forall (fun point => match point with
                       | [] => False
                       | _ :: more => forallb is_continuation more = true
                       end) points /\
  Forall (fun point => match point with
                       | [] => False
                       | c :: _ => is_continuation c = false
                       end) (tl points).

(** The dictionary [load_accounts] builds from an account object that has
    its ['name'] and ['session_token']. *)
Definition account_of (j : json) : account :=
  match j with
  | JObj fields =>
      mk_account
        (match dict_lookup "name" fields with Some v => v | None => JNull end)
        (match dict_lookup "session_token" fields with Some v => v | None => JNull end)
        (match dict_lookup "cookies" fields with Some v => v | None => JStr "" end)
        (match dict_lookup "description" fields with Some v => v | None => JStr "" end)
  | _ => mk_account JNull JNull JNull JNull
  end.

(** The value under ['accounts'], [[]] when the key is absent. *)
Definition listed_accounts (fields : list (string * json)) : json :=
  match dict_lookup "accounts" fields with
  | Some v => v
  | None => JArr []
  end.

(** A world whose [proxy.txt] holds a comment, a blank line and two
    proxies with white space around them. *)
Definition proxy_file_world : World :=
  mk_world
    (read_json friendly_world)
    (fun path =>
       if String.eqb path "proxy.txt"
       then TextLines ["# proxies"; "  http://10.0.0.1:8080 "; "   ";
                       "http://10.0.0.2:8080"]
       else NoTextFile)
    (clock_ms friendly_world) (uuid_bits friendly_world)
    (rand_bits friendly_world) (fake_ua friendly_world) (http friendly_world)
    (randint_floats friendly_world) (sleep_long friendly_world).

(** An accounts file with a disabled account between two enabled ones. *)
Definition mixed_accounts : list json :=
  [JObj [("name", JStr "alice"); ("session_token", JStr "token-a")];
   JObj [("name", JStr "bob"); ("session_token", JStr "token-b");
         ("enabled", JBool false)];
   JObj [("name", JStr "carol"); ("session_token", JStr "token-c");
         ("cookies", JStr "k=v"); ("enabled", JBool true)]].

Definition mixed_accounts_world : World :=
  sample_world (ParsedJson (sample_config 3 1))
    (ParsedJson (JObj [("accounts", JArr mixed_accounts)]))
    7 (fun _ => Some "Mozilla/5.0") (fun _ => Status 200).

(** A world whose accounts file is a bare list of accounts. *)
Definition bare_list_accounts_world : World :=
  sample_world (ParsedJson (sample_config 3 1))
    (ParsedJson (JArr mixed_accounts))
    7 (fun _ => Some "Mozilla/5.0") (fun _ => Status 200).

(** An accounts file whose second item is a string, not an object. *)
Definition broken_item_accounts : list json :=
  [JObj [("name", JStr "alice"); ("session_token", JStr "token-a")];
   JStr "bob";
   JObj [("name", JStr "carol"); ("session_token", JStr "token-c")]].

Definition broken_item_world : World :=
  sample_world (ParsedJson (sample_config 3 1))
    (ParsedJson (JObj [("accounts", JArr broken_item_accounts)]))
    7 (fun _ => Some "Mozilla/5.0") (fun _ => Status 200).

(** A step of [__init__] that only prints: the object, the tick and the
    posts and sleeps of the trace are as before. *)
Definition only_prints (before after : State) : Prop :=
  self after = self before /\
  tick after = tick before /\
  exists evs, trace after = trace before ++ evs /\ effects evs = [].

(** A world whose config asks for no round at all. *)
Definition no_round_world : World :=
  sample_world (ParsedJson (sample_config 0 1)) (ParsedJson sample_accounts_json)
    7 (fun _ => Some "Mozilla/5.0") (fun _ => Status 200).

(** The calls and pauses of the rounds of a session of [n] games still to
    run over [rounds]: at most one check call a round, no more record calls
    than check calls, a pause only after a round that is not the last, and
    every pause as long as the configured [game_delay]. *)
Definition rounds_bounded (src : source_file) (cfg : list (string * json))
    (n : Z) (rounds : list Z) (evs : list event) : Prop :=
  (List.length (check_replies evs) <= List.length rounds)%nat /\
  (List.length (record_calls evs) <= List.length (check_replies evs))%nat /\
  (List.length (sleeps BetweenRounds evs)
   <= List.length (filter (fun i => (i <? n)%Z) rounds))%nat /\
  Forall (fun d => exists j,
              setting cfg "game_delay" (default_game_delay src) = Ok j /\
              py_seconds j = Some d)
         (sleeps BetweenRounds evs).

(** The number of games of a session, 0 when the setting is not an
    integer. *)
Definition session_games (src : source_file) (cfg : list (string * json)) : Z :=
  match setting cfg "games_per_session" (default_games_per_session src) with
  | Ok j => match py_index j with Some n => n | None => 0 end
  | Raise _ => 0
  end.

(** A post as a sweep makes it: for an account of the list, through a proxy
    of the pool (directly when the pool is empty), with a well-formed game
    code to the check endpoint or a score that respects the configured
    range to the record endpoint. *)
Definition post_ok (src : source_file) (cfg : list (string * json))
    (accs : list account) (prox : list string) (ev : event) : Prop :=
  match ev with
  | EvPost ep who body ua proxy reply =>
      In who accs /\
      proxy_from prox proxy /\
      match ep, body with
      | CheckGameCode, GameCode code => is_game_code code = true
      | RecordGameScore, Score s => in_score_range src cfg s
      | _, _ => False
      end
  | _ => True
  end.

(** A world whose clock advances by one millisecond at every tick. *)
Definition ticking_clock_world : World :=
  mk_world
    (read_json friendly_world) (read_text friendly_world)
    (fun t => (1730000000000 + N.of_nat t)%N)
    (uuid_bits friendly_world) (rand_bits friendly_world)
    (fake_ua friendly_world) (http friendly_world)
    (randint_floats friendly_world) (sleep_long friendly_world).

(** The last event of a list of events. *)
Definition ends_with (ev : event) (evs : list event) : Prop :=
  exists before, evs = before ++ [ev].

(** How a round ends in the log: with the record "round done" when it
    returns [True], with a record of level ERROR when it returns [False]. *)
Definition round_reported (who : account) (game_round : Z)
    (r : result bool) (evs : list event) : Prop :=
  match r with
  | Ok true => ends_with (EvLog INFO (MsgRoundDone (acc_name who) game_round)) evs
  | Ok false => exists m, ends_with (EvLog ERROR m) evs
  | Raise _ => False
  end.

(** What a sweep over [todo] reports at its end: a count of successful
    accounts that is at most the number of accounts and at most the number
    of scores the record endpoint accepted. *)
Definition sweep_reported (todo : list account) (r : result unit)
    (evs : list event) : Prop :=
  r = Ok tt /\
  match todo with
  | [] => evs = [EvLog WARNING MsgNoAccounts]
  | _ :: _ =>
      exists n,
        ends_with (EvLog INFO (MsgSweepDone n (List.length todo))) evs /\
        0 <= n <= Z.of_nat (List.length todo) /\
        n <= Z.of_nat (recorded_ok evs)
  end.

(** * Properties *)

(** ** Sanity checks of the string functions *)

Example is_game_code_ex1 : is_game_code "1730000000000_0a1b2c3d" = true.
Proof. reflexivity. Qed.

Example is_game_code_ex2 : is_game_code "_0a1b2c3d" = false.
Proof. reflexivity. Qed.

Example is_game_code_ex3 : is_game_code "12_0a1b2c3" = false.
Proof. reflexivity. Qed.

Example is_game_code_ex4 : is_game_code "12_0A1b2c3d" = false.
Proof. reflexivity. Qed.

Example uuid_str_ex :
  uuid_str 0x12345678abcdef0123456789abcdef01
  = "12345678-abcd-ef01-2345-6789abcdef01".
Proof. reflexivity. Qed.

Example builtin_user_agents_length : List.length builtin_user_agents = 50%nat.
Proof. reflexivity. Qed.

(** ** Traces *)

Lemma effects_app evs1 evs2 : effects (evs1 ++ evs2) = effects evs1 ++ effects evs2.
Proof. apply filter_app. Qed.

Lemma record_scores_app evs1 evs2 :
  record_scores (evs1 ++ evs2) = record_scores evs1 ++ record_scores evs2.
Proof. apply flat_map_app. Qed.

Lemma record_calls_app evs1 evs2 :
  record_calls (evs1 ++ evs2) = record_calls evs1 ++ record_calls evs2.
Proof. apply filter_app. Qed.

Lemma check_replies_app evs1 evs2 :
  check_replies (evs1 ++ evs2) = check_replies evs1 ++ check_replies evs2.
Proof. apply flat_map_app. Qed.

Lemma sleeps_app site evs1 evs2 :
  sleeps site (evs1 ++ evs2) = sleeps site evs1 ++ sleeps site evs2.
Proof. apply flat_map_app. Qed.

Lemma recorded_ok_app evs1 evs2 :
  recorded_ok (evs1 ++ evs2) = (recorded_ok evs1 + recorded_ok evs2)%nat.
Proof. unfold recorded_ok. now rewrite filter_app, length_app. Qed.

(** The projections only look at posts and sleeps. *)
Lemma record_scores_effects evs : record_scores (effects evs) = record_scores evs.
Proof.
  induction evs as [|ev evs IH]; [reflexivity|].
  destruct ev; simpl; try assumption; now rewrite IH.
Qed.

Lemma record_calls_effects evs : record_calls (effects evs) = record_calls evs.
Proof.
  induction evs as [|ev evs IH]; [reflexivity|].
  destruct ev as [m|lvl m|ep who body ua px reply|site d]; simpl; try assumption.
  destruct ep; simpl; now rewrite IH.
Qed.

Lemma check_replies_effects evs : check_replies (effects evs) = check_replies evs.
Proof.
  induction evs as [|ev evs IH]; [reflexivity|].
  destruct ev; simpl; try assumption; now rewrite IH.
Qed.

Lemma sleeps_effects site evs : sleeps site (effects evs) = sleeps site evs.
Proof.
  induction evs as [|ev evs IH]; [reflexivity|].
  destruct ev; simpl; try assumption; now rewrite IH.
Qed.

Lemma recorded_ok_effects evs : recorded_ok (effects evs) = recorded_ok evs.
Proof.
  unfold recorded_ok.
  induction evs as [|ev evs IH]; [reflexivity|].
  destruct ev as [m|lvl m|ep who body ua px reply|site d]; simpl; try assumption.
  destruct ep, reply; simpl; try assumption.
  destruct (code =? 200)%Z eqn:E.
  - apply Z.eqb_eq in E; subst; simpl. now rewrite IH.
  - destruct code as [|p|p]; try assumption.
    repeat (destruct p as [p|p|]; try assumption); discriminate.
Qed.

Lemma new_events_app st st' evs :
  trace st' = trace st ++ evs -> new_events st st' = evs.
Proof.
  unfold new_events. intros ->.
  rewrite skipn_app, skipn_all, Nat.sub_diag. reflexivity.
Qed.

(** ** Game codes *)

Lemma chars_append s1 s2 : chars (s1 ++ s2)%string = chars s1 ++ chars s2.
Proof.
  unfold chars. induction s1 as [|c s1 IH]; simpl; [reflexivity|].
  now rewrite IH.
Qed.

Lemma chars_text l : chars (text l) = l.
Proof. apply list_ascii_of_string_of_list_ascii. Qed.

Lemma string_of_uint_digits d :
  forallb is_digit (chars (NilEmpty.string_of_uint d)) = true.
Proof.
  induction d; simpl; auto.
Qed.

Lemma str_of_N_digits n : forallb is_digit (chars (str_of_N n)) = true.
Proof. apply string_of_uint_digits. Qed.

Lemma str_of_N_nonempty n : chars (str_of_N n) <> [].
Proof.
  unfold str_of_N. destruct n as [|p]; simpl; [discriminate|].
  pose proof (DecimalPos.Unsigned.to_uint_nonnil p) as H.
  destruct (Pos.to_uint p); simpl; congruence.
Qed.

Lemma hex_char_is_hex d :
  (d < 16)%N -> is_hex (hex_char d) = true /\ hex_char d <> "-"%char.
Proof.
  intros H. unfold hex_char.
  assert (Hn : (N.to_nat d < 16)%nat) by lia.
  destruct (N.to_nat d) as [|n]; [split; [reflexivity|discriminate]|].
  do 15 (destruct n as [|n]; [split; [reflexivity|discriminate]|]).
  lia.
Qed.

Lemma hex_digits_length n u : List.length (hex_digits n u) = n.
Proof.
  revert u. induction n as [|n IH]; intros u; simpl; [reflexivity|].
  rewrite length_app, IH. simpl. lia.
Qed.

Lemma hex_digits_hex n u :
  Forall (fun c => is_hex c = true /\ c <> "-"%char) (hex_digits n u).
Proof.
  revert u. induction n as [|n IH]; intros u; simpl; [constructor|].
  apply Forall_app. split; [apply IH|].
  constructor; [|constructor].
  apply hex_char_is_hex. apply N.mod_lt. discriminate.
Qed.

Lemma in_firstn {A} (x : A) n l : In x (firstn n l) -> In x l.
Proof.
  intros H. rewrite <- (firstn_skipn n l). apply in_or_app. now left.
Qed.

Lemma filter_keeps_all {A} (p : A -> bool) l :
  Forall (fun x => p x = true) l -> filter p l = l.
Proof.
  induction 1 as [|x l Hx _ IH]; simpl; [reflexivity|].
  now rewrite Hx, IH.
Qed.

(** [str(uuid.uuid4()).replace('-', '')[:8]] is the first eight
    hexadecimal digits of the UUID. *)
Lemma random_part_eq u :
  take 8 (remove_char "-"%char (uuid_str u)) = text (firstn 8 (hex_digits 32 u)).
Proof.
  unfold take, remove_char, uuid_str. rewrite !chars_text.
  set (h := hex_digits 32 u).
  rewrite filter_app.
  assert (Hh : Forall (fun c => is_hex c = true /\ c <> "-"%char) (firstn 8 h)).
  { apply Forall_forall. intros c Hc.
    pose proof (hex_digits_hex 32 u) as HF. rewrite Forall_forall in HF.
    apply HF. eapply in_firstn; eauto. }
  rewrite (filter_keeps_all _ (firstn 8 h)).
  - rewrite firstn_app.
    assert (Hl : List.length (firstn 8 h) = 8%nat).
    { rewrite length_firstn. unfold h. rewrite hex_digits_length. reflexivity. }
    rewrite Hl. simpl (8 - 8)%nat. rewrite firstn_O, app_nil_r.
    rewrite firstn_all2 by lia. reflexivity.
  - eapply Forall_impl; [|exact Hh].
    intros c [_ Hc]. simpl. destruct (Ascii.eqb c "-") eqn:E; [|reflexivity].
    apply Ascii.eqb_eq in E. contradiction.
Qed.

Lemma drop_digits ds rest :
  forallb is_digit ds = true ->
  drop_while is_digit (ds ++ "_"%char :: rest) = "_"%char :: rest.
Proof.
  induction ds as [|c ds IH]; simpl; [reflexivity|].
  intros H. apply andb_true_iff in H as [Hc Hds]. rewrite Hc. auto.
Qed.

(** The string [get_game_id] builds is a game code, whatever the clock and
    the UUID. *)
Lemma game_id_format (timestamp u : N) :
  is_game_code
    (str_of_N timestamp ++ "_" ++ take 8 (remove_char "-"%char (uuid_str u)))%string
  = true.
Proof.
  rewrite random_part_eq.
  assert (Hl : List.length (firstn 8 (hex_digits 32 u)) = 8%nat).
  { rewrite length_firstn, hex_digits_length. reflexivity. }
  assert (Hh : forallb is_hex (firstn 8 (hex_digits 32 u)) = true).
  { apply forallb_forall. intros x Hx.
    pose proof (hex_digits_hex 32 u) as HF. rewrite Forall_forall in HF.
    apply HF. eapply in_firstn; eauto. }
  generalize dependent (firstn 8 (hex_digits 32 u)). intros hs Hl Hh.
  pose proof (str_of_N_digits timestamp) as Hd.
  pose proof (str_of_N_nonempty timestamp) as Hn.
  unfold is_game_code.
  rewrite !chars_append, chars_text.
  change (chars "_") with ["_"%char].
  change (["_"%char] ++ hs) with ("_"%char :: hs).
  rewrite drop_digits by assumption.
  generalize dependent (chars (str_of_N timestamp)). intros [|c ds] Hd Hn; [congruence|].
  simpl in Hd. apply andb_true_iff in Hd as [Hc _].
  cbn [app]. rewrite Hc, Hl, Hh. reflexivity.
Qed.

(** ** Rules for [spec] *)

Section Rules.

Variable w : World.
Variable src : source_file.
Variable cfg : list (string * json).
Variable accs : list account.
Variable prox : list string.

Local Abbreviation meets := (spec cfg accs prox).

Lemma spec_ret {A} (a : A) (Q : result A -> list event -> Prop) :
  Q (Ok a) [] -> meets (ret a) Q.
Proof.
  intros HQ st Hst. exists []. simpl. rewrite app_nil_r. auto.
Qed.

Lemma spec_raise {A} (e : exn) (Q : result A -> list event -> Prop) :
  Q (Raise e) [] -> meets (raise e) Q.
Proof.
  intros HQ st Hst. exists []. simpl. rewrite app_nil_r. auto.
Qed.

Lemma spec_weaken {A} (m : M A) (Q Q' : result A -> list event -> Prop) :
  meets m Q -> (forall r evs, Q r evs -> Q' r evs) -> meets m Q'.
Proof.
  intros Hm HQ st Hst. destruct (Hm st Hst) as (evs & Hb & Ht & Hq).
  exists evs. auto.
Qed.

(** Sequencing: the events of [m] come first. *)
Lemma spec_bind {A B} (m : M A) (f : A -> M B)
    (Q1 : result A -> list event -> Prop) (Q : result B -> list event -> Prop) :
  meets m Q1 ->
  (forall a evs1, Q1 (Ok a) evs1 -> meets (f a) (fun r evs2 => Q r (evs1 ++ evs2))) ->
  (forall e evs1, Q1 (Raise e) evs1 -> Q (Raise e) evs1) ->
  meets (bind m f) Q.
Proof.
  intros Hm Hf He st Hst. unfold bind.
  destruct (Hm st Hst) as (evs1 & Hb1 & Ht1 & Hq1).
  destruct (m st) as [[a|e] st1]; simpl in *.
  - destruct (Hf a evs1 Hq1 st1 Hb1) as (evs2 & Hb2 & Ht2 & Hq2).
    exists (evs1 ++ evs2). rewrite Ht2, Ht1, app_assoc. auto.
  - exists evs1. auto.
Qed.

(** [try ... except]: a handled exception runs the handler after the events
    of the body. *)
Lemma spec_try {A} (m : M A) (handles : exn -> bool) (handler : exn -> M A)
    (Q1 Q : result A -> list event -> Prop) :
  meets m Q1 ->
  (forall a evs, Q1 (Ok a) evs -> Q (Ok a) evs) ->
  (forall e evs1, Q1 (Raise e) evs1 -> handles e = false -> Q (Raise e) evs1) ->
  (forall e evs1, Q1 (Raise e) evs1 -> handles e = true ->
     meets (handler e) (fun r evs2 => Q r (evs1 ++ evs2))) ->
  meets (try_except m handles handler) Q.
Proof.
  intros Hm Hok Hun Hh st Hst. unfold try_except.
  destruct (Hm st Hst) as (evs1 & Hb1 & Ht1 & Hq1).
  destruct (m st) as [[a|e] st1]; simpl in *.
  - exists evs1. auto.
  - destruct (handles e) eqn:E.
    + destruct (Hh e evs1 Hq1 E st1 Hb1) as (evs2 & Hb2 & Ht2 & Hq2).
      exists (evs1 ++ evs2). rewrite Ht2, Ht1, app_assoc. auto.
    + exists evs1. simpl. auto.
Qed.

(** ** The library calls *)

Lemma spec_logger_call lvl m :
  meets (logger_call lvl m) (fun r evs => r = Ok tt /\ evs = [EvLog lvl m]).
Proof.
  intros st Hst. exists [EvLog lvl m].
  unfold logger_call, bind, getattr, emit.
  destruct Hst as (Hc & Ha & Hp & Hu & Hl).
  destruct (logger (self st)) as [l|] eqn:E; [|congruence].
  simpl. unfold bot. simpl. rewrite E. repeat split; auto.
Qed.

Lemma spec_game_setting key default :
  meets (game_setting key default)
       (fun r evs => r = setting cfg key default /\ evs = []).
Proof.
  intros st Hst. exists []. rewrite app_nil_r.
  unfold game_setting, bind, getattr, setting.
  pose proof Hst as (Hc & _). rewrite Hc. simpl.
  destruct (dict_lookup "game_settings" cfg) as [[]|]; simpl; auto.
Qed.

Lemma spec_next_tick :
  meets next_tick (fun r evs => (exists t, r = Ok t) /\ evs = []).
Proof.
  intros st Hst. exists []. simpl. rewrite app_nil_r.
  repeat split; try apply Hst. eauto.
Qed.

Lemma spec_randbelow n :
  0 < n ->
  meets (randbelow w n) (fun r evs => (exists k, r = Ok k /\ 0 <= k < n) /\ evs = []).
Proof.
  intros Hn st Hst. exists []. simpl. rewrite app_nil_r.
  repeat split; try apply Hst. eexists; split; [reflexivity|].
  apply Z.mod_pos_bound. assumption.
Qed.

(** What [randint] gives on two integers, and on anything else. *)
Lemma spec_randint_index a b :
  meets (match py_index a, py_index b with
         | Some lo, Some hi =>
             let width := hi + 1 - lo in
             if 0 <? width then
               r <- randbelow w width;;
               ret (lo + r)
             else raise ValueError
         | _, _ =>
             t <- next_tick;;
             match randint_floats w t a b with
             | Drawn n => ret n
             | DrawTypeError => raise TypeError
             | DrawValueError => raise ValueError
             | DrawOverflowError => raise OverflowError
             end
         end)
       (fun r evs =>
          evs = [] /\
          match r with
          | Ok s => forall lo hi,
              py_index a = Some lo -> py_index b = Some hi -> lo <= s <= hi
          | Raise e => is_Exception e = true
          end).
Proof.
  assert (Hother :
    meets (t <- next_tick;;
           match randint_floats w t a b with
           | Drawn n => ret n
           | DrawTypeError => raise TypeError
           | DrawValueError => raise ValueError
           | DrawOverflowError => raise OverflowError
           end)
          (fun r evs =>
             evs = [] /\
             match r with
             | Ok s => py_index a = None \/ py_index b = None
             | Raise e => is_Exception e = true
             end) ->
    (py_index a = None \/ py_index b = None) ->
    meets (t <- next_tick;;
           match randint_floats w t a b with
           | Drawn n => ret n
           | DrawTypeError => raise TypeError
           | DrawValueError => raise ValueError
           | DrawOverflowError => raise OverflowError
           end)
          (fun r evs =>
             evs = [] /\
             match r with
             | Ok s => forall lo hi,
                 py_index a = Some lo -> py_index b = Some hi -> lo <= s <= hi
             | Raise e => is_Exception e = true
             end)).
  { intros H Hnone. eapply spec_weaken; [exact H|].
    intros [s|e] evs [-> Hr]; split; auto.
    intros lo hi Ha Hb. destruct Hnone; congruence. }
  assert (Hdraw : (py_index a = None \/ py_index b = None) ->
    meets (t <- next_tick;;
           match randint_floats w t a b with
           | Drawn n => ret n
           | DrawTypeError => raise TypeError
           | DrawValueError => raise ValueError
           | DrawOverflowError => raise OverflowError
           end)
          (fun r evs =>
             evs = [] /\
             match r with
             | Ok s => py_index a = None \/ py_index b = None
             | Raise e => is_Exception e = true
             end)).
  { intros Hnone.
    eapply spec_bind; [apply spec_next_tick| |].
    - intros t evs1 [_ ->].
      destruct (randint_floats w t a b);
        [apply spec_ret|apply spec_raise|apply spec_raise|apply spec_raise]; auto.
    - intros e evs1 [[t H] _]. discriminate. }
  destruct (py_index a) as [lo|] eqn:Ea.
  2:{ apply Hother; auto. }
  destruct (py_index b) as [hi|] eqn:Eb.
  2:{ apply Hother; auto. }
  cbv zeta.
  destruct (0 <? hi + 1 - lo) eqn:E; [|apply spec_raise; auto].
  apply Z.ltb_lt in E.
  eapply spec_bind; [apply (spec_randbelow _ E)| |].
  - intros k evs1 ((k' & Hk & Hr) & ->). injection Hk as <-.
    apply spec_ret. split; [reflexivity|].
    intros lo' hi' Hlo Hhi. injection Hlo as <-. injection Hhi as <-. lia.
  - intros e evs1 ((k' & Hk & _) & _). discriminate.
Qed.

Lemma spec_randint a b :
  meets (randint w a b)
       (fun r evs =>
          evs = [] /\
          match r with
          | Ok s => forall lo hi,
              py_index a = Some lo -> py_index b = Some hi -> lo <= s <= hi
          | Raise e => is_Exception e = true
          end).
Proof.
  unfold randint.
  destruct b as [|bb|bz|bx|bs|bl|bo]; try (apply spec_raise; auto);
    (destruct a as [|ab|az|ax|as'|al|ao]; try (apply spec_raise; auto));
    apply spec_randint_index.
Qed.

Lemma spec_random_choice {A} (l : list A) :
  meets (random_choice w l)
       (fun r evs =>
          evs = [] /\
          match r with
          | Ok a => In a l
          | Raise e => l = [] /\ e = IndexError
          end).
Proof.
  unfold random_choice. destruct l as [|x l]; [apply spec_raise; auto|].
  eapply spec_bind; [apply spec_randbelow; simpl; lia| |].
  - intros k evs1 ((k' & Hk & Hr) & ->). injection Hk as <-.
    destruct (nth_error (x :: l) (Z.to_nat k)) as [a|] eqn:E.
    + apply spec_ret. split; [reflexivity|]. eapply nth_error_In; eauto.
    + exfalso. apply nth_error_None in E. simpl in *. lia.
  - intros e evs1 ((k' & Hk & _) & _). discriminate.
Qed.

Lemma sleep_error_exception t seconds e :
  sleep_error (sleep_long w) t seconds = Some e -> is_Exception e = true.
Proof.
  unfold sleep_error.
  destruct (negb (fits_int64 (nanoseconds seconds))); [now intros [= <-]|].
  destruct (negb (Qle_bool 0 seconds)); [now intros [= <-]|].
  destruct (Qle_bool seconds short_sleep); [discriminate|].
  destruct (sleep_long w t seconds); [discriminate| |]; now intros [= <-].
Qed.

(** [time.sleep] sleeps, or raises and a duration [time.sleep] takes
    whenever it is called was not given. *)
Lemma spec_time_sleep site seconds :
  meets (time_sleep w site seconds)
       (fun r evs =>
          (r = Ok tt /\ evs = [EvSleep site seconds]) \/
          (exists e, r = Raise e /\ is_Exception e = true /\ evs = [] /\
                     ~ sleep_accepts w seconds)).
Proof.
  intros st Hst. unfold time_sleep.
  destruct (sleep_error (sleep_long w) (tick st) seconds) as [e|] eqn:E.
  - exists []. simpl. rewrite app_nil_r.
    split; [exact Hst|]. split; [reflexivity|]. right.
    exists e. split; [reflexivity|]. split; [eapply sleep_error_exception; eauto|].
    split; [reflexivity|]. intros H. rewrite (H (tick st)) in E. discriminate.
  - exists [EvSleep site seconds]. simpl.
    split; [exact Hst|]. split; [reflexivity|]. now left.
Qed.

(** Every platform takes a duration of [0] to [short_sleep] seconds. *)
Lemma short_sleeps_accepted seconds :
  Qle 0 seconds -> Qle seconds short_sleep -> sleep_accepts w seconds.
Proof.
  intros H0 H1 t. unfold sleep_error.
  assert (Hfit : fits_int64 (nanoseconds seconds) = true).
  { unfold fits_int64, nanoseconds.
    destruct seconds as [n d]. unfold Qle, short_sleep, inject_Z in H0, H1.
    cbn [Qnum Qden] in *. rewrite Z.mul_1_r in H0.
    change (Z.pos 1) with 1 in H1. rewrite Z.mul_1_r in H1.
    change (0 * Z.pos d) with 0 in H0.
    set (g := 10 ^ 9) in *. assert (Hg : g = 1000000000) by reflexivity.
    assert (Hn : (0 <=? n * g) = true) by (apply Z.leb_le; lia).
    rewrite Hn.
    assert (Hq : 0 <= (n * g + Z.pos d - 1) / Z.pos d <= 4000000 * g).
    { split.
      - apply Z.div_pos; lia.
      - apply Z.lt_succ_r. apply Z.div_lt_upper_bound; [lia|].
        rewrite Hg. nia. }
    assert (H63 : 2 ^ 63 = 9223372036854775808) by reflexivity.
    rewrite H63, Hg in *.
    apply andb_true_iff. split; apply Z.leb_le; lia. }
  rewrite Hfit. cbn [negb].
  assert (H0' : Qle_bool 0 seconds = true) by now apply Qle_bool_iff.
  assert (H1' : Qle_bool seconds short_sleep = true) by now apply Qle_bool_iff.
  now rewrite H0', H1'.
Qed.

Lemma spec_session_post ep who body ua proxy :
  meets (session_post w ep who body ua proxy)
       (fun r evs =>
          exists reply,
            evs = [EvPost ep who body ua proxy reply] /\
            match r with
            | Ok code => reply = Status code
            | Raise e => reply = NoResponse /\ e = RequestException
            end).
Proof.
  intros st Hst. unfold session_post, bind, next_tick, emit. simpl.
  exists [EvPost ep who body ua proxy (http w (tick st))].
  destruct (http w (tick st)) as [code|]; simpl;
    (split; [exact Hst|]; split; [reflexivity|]; eexists; split; [reflexivity|]; auto).
Qed.

(** ** Calls that add nothing to the trace *)

Lemma silent_bind {A B} (m : M A) (f : A -> M B) :
  meets m silent -> (forall a, meets (f a) silent) -> meets (bind m f) silent.
Proof.
  intros Hm Hf. eapply spec_bind; [exact Hm| |].
  - intros a evs1 [-> _]. apply Hf.
  - intros e evs1 H. exact H.
Qed.

Lemma silent_try {A} (m : M A) handles (handler : exn -> M A) :
  meets m silent -> (forall e, meets (handler e) silent) ->
  meets (try_except m handles handler) silent.
Proof.
  intros Hm Hh. eapply spec_try; [exact Hm| | |].
  - intros a evs H. exact H.
  - intros e evs H _. exact H.
  - intros e evs [-> _] _. apply Hh.
Qed.

Lemma silent_ret {A} (a : A) : meets (ret a) silent.
Proof. apply spec_ret. split; auto. Qed.

Lemma silent_hasattr {A} (field : Self -> option A) : meets (hasattr field) silent.
Proof.
  intros st Hst. exists []. unfold hasattr.
  destruct (field (self st)); simpl; rewrite app_nil_r; repeat split; apply Hst.
Qed.

Lemma silent_getattr {A} (field : Self -> option A) : meets (getattr field) silent.
Proof.
  intros st Hst. exists []. unfold getattr.
  destruct (field (self st)); simpl; rewrite app_nil_r; repeat split; apply Hst.
Qed.

Lemma silent_set_full_user_agents l : meets (setattr (set_full_user_agents l)) silent.
Proof.
  intros st Hst. exists []. simpl. rewrite app_nil_r. repeat split; apply Hst.
Qed.

Lemma silent_read_lines path : meets (read_lines w path) silent.
Proof.
  unfold read_lines.
  destruct (read_text w path);
    first [apply silent_ret | apply spec_raise; split; auto].
Qed.

Lemma silent_random_choice {A} (l : list A) : meets (random_choice w l) silent.
Proof.
  eapply spec_weaken; [apply spec_random_choice|].
  intros [a|e] evs [-> H]; split; auto. destruct H as [_ ->]. reflexivity.
Qed.

Lemma silent_user_agent_random : meets (user_agent_random w) silent.
Proof.
  unfold user_agent_random.
  apply silent_bind; [apply silent_getattr|]. intros _.
  eapply spec_bind; [apply spec_next_tick| |].
  - intros t evs1 [_ ->]. destruct (fake_ua w t).
    + apply silent_ret.
    + apply spec_raise. split; auto.
  - intros e evs1 [[t Ht] _]. discriminate.
Qed.

Lemma silent_pick_user_agent : meets (pick_user_agent w) silent.
Proof.
  unfold pick_user_agent.
  apply silent_bind; [apply silent_getattr|]. intros [|x l].
  - apply silent_user_agent_random.
  - apply silent_random_choice.
Qed.

Lemma silent_get_random_user_agent : meets (get_random_user_agent w src) silent.
Proof.
  unfold get_random_user_agent. destruct src.
  - apply silent_try; [|intros; apply silent_user_agent_random].
    apply silent_bind; [apply silent_hasattr|]. intros [|].
    + apply silent_pick_user_agent.
    + destruct (path_exists w "user_agents.txt").
      * apply silent_bind; [apply silent_read_lines|]. intros lines.
        apply silent_bind; [apply silent_set_full_user_agents|]. intros _.
        apply silent_pick_user_agent.
      * apply silent_user_agent_random.
  - apply silent_try; [apply silent_user_agent_random|].
    intros; apply silent_random_choice.
Qed.

Lemma spec_getattr_proxies :
  meets (getattr proxies) (fun r evs => r = Ok prox /\ evs = []).
Proof.
  intros st Hst. exists []. unfold getattr.
  assert (Hp : proxies (self st) = Some prox) by apply Hst.
  rewrite Hp. simpl. rewrite app_nil_r. auto.
Qed.

Lemma spec_getattr_accounts :
  meets (getattr accounts) (fun r evs => r = Ok accs /\ evs = []).
Proof.
  intros st Hst. exists []. unfold getattr.
  assert (Hp : accounts (self st) = Some accs) by apply Hst.
  rewrite Hp. simpl. rewrite app_nil_r. auto.
Qed.

Lemma spec_get_random_proxy :
  meets (get_random_proxy w) (fun r evs => evs = [] /\ exists p, r = Ok p).
Proof.
  unfold get_random_proxy.
  eapply spec_bind; [apply spec_getattr_proxies| |].
  - intros [|x l] evs1 [_ ->].
    + apply spec_ret. eauto.
    + eapply spec_bind; [apply spec_random_choice| |].
      * intros a evs2 [-> _]. apply spec_ret. eauto.
      * intros e evs2 [_ [H _]]. discriminate.
  - intros e evs1 [H _]. discriminate.
Qed.

Lemma spec_time_ms :
  meets (time_ms w) (fun r evs => (exists n, r = Ok n) /\ evs = []).
Proof.
  intros st Hst. exists []. simpl. rewrite app_nil_r.
  repeat split; try apply Hst. eauto.
Qed.

Lemma spec_uuid4 :
  meets (uuid4 w) (fun r evs => (exists u, r = Ok u) /\ evs = []).
Proof.
  intros st Hst. exists []. simpl. rewrite app_nil_r.
  repeat split; try apply Hst. eauto.
Qed.

(** ** [get_game_id] and [get_game_code]: always a code, always well formed *)

Lemma is_game_code_nonempty code : is_game_code code = true -> String.eqb code "" = false.
Proof.
  destruct code; [discriminate|reflexivity].
Qed.

Lemma spec_get_game_id account :
  meets (get_game_id w account) yields_game_code.
Proof.
  unfold get_game_id.
  eapply spec_try with (Q1 := yields_game_code).
  - eapply spec_bind; [apply spec_time_ms| |].
    + intros n evs1 [_ ->].
      eapply spec_bind; [apply spec_uuid4| |].
      * intros u evs2 [_ ->].
        eapply spec_bind; [apply spec_logger_call| |].
        -- intros [] evs3 [_ ->]. apply spec_ret.
           split; [reflexivity|]. eexists. split; [reflexivity|].
           apply game_id_format.
        -- intros e evs3 [H _]. discriminate.
      * intros e evs2 [[u H] _]. discriminate.
    + intros e evs1 [[n H] _]. discriminate.
  - auto.
  - intros e evs1 (_ & code & H & _). discriminate.
  - intros e evs1 (_ & code & H & _). discriminate.
Qed.

Lemma spec_get_game_code account :
  meets (get_game_code w account) yields_game_code.
Proof.
  unfold get_game_code.
  eapply spec_try with (Q1 := yields_game_code).
  - eapply spec_bind; [apply spec_get_game_id| |].
    + intros game_id evs1 (He & code & Hc & Hf). injection Hc as ->.
      rewrite (is_game_code_nonempty _ Hf).
      eapply spec_bind; [apply spec_logger_call| |].
      * intros [] evs2 [_ ->]. apply spec_ret.
        split; [|eauto].
        rewrite !effects_app, He. reflexivity.
      * intros e evs2 [H _]. discriminate.
    + intros e evs1 (_ & code & H & _). discriminate.
  - auto.
  - intros e evs1 (_ & code & H & _). discriminate.
  - intros e evs1 (_ & code & H & _). discriminate.
Qed.

(** ** [check_game_code] and [record_game_score] *)

Lemma status_200 code : (code =? 200) = false -> Status code <> Status 200.
Proof.
  intros H E. injection E as ->. discriminate.
Qed.

Lemma post_attempt_handled ep who body lvl msg e evs1 :
  post_attempt ep who body (Raise e) evs1 ->
  meets (logger_call lvl msg;; ret false)
        (fun r evs2 => post_outcome ep who body r (evs1 ++ evs2)).
Proof.
  intros [_ H].
  eapply spec_bind; [apply spec_logger_call| |].
  - intros [] evs2 [_ ->]. apply spec_ret.
    exists false. split; [reflexivity|]. right. split; [reflexivity|].
    rewrite !effects_app. simpl. rewrite !app_nil_r.
    destruct H as [H|(ua & px & H)]; [now left|right].
    exists ua, px, NoResponse. split; [discriminate|assumption].
  - intros e' evs2 [H' _]. discriminate.
Qed.

Lemma spec_check_game_code account game_code :
  meets (check_game_code w src account game_code)
        (post_outcome CheckGameCode account (GameCode game_code)).
Proof.
  unfold check_game_code.
  eapply spec_try with (Q1 := post_attempt CheckGameCode account (GameCode game_code)).
  - eapply spec_bind; [apply silent_get_random_user_agent| |].
    + intros ua evs1 [-> _].
      eapply spec_bind; [apply spec_get_random_proxy| |].
      * intros px evs2 [-> _].
        eapply spec_bind; [apply spec_session_post| |].
        -- intros code evs3 (reply & -> & ->).
           destruct (code =? 200) eqn:E.
           ++ apply Z.eqb_eq in E. subst code.
              eapply spec_bind; [apply spec_logger_call| |].
              ** intros [] evs4 [_ ->]. apply spec_ret.
                 exists true. split; [reflexivity|]. left. split; [reflexivity|].
                 exists ua, px. reflexivity.
              ** intros e evs4 [H _]. discriminate.
           ++ eapply spec_bind; [apply spec_logger_call| |].
              ** intros [] evs4 [_ ->]. apply spec_ret.
                 exists false. split; [reflexivity|]. right. split; [reflexivity|].
                 right. exists ua, px, (Status code).
                 split; [apply status_200; assumption|reflexivity].
              ** intros e evs4 [H _]. discriminate.
        -- intros e evs3 (reply & -> & -> & ->). split; [reflexivity|].
           right. exists ua, px. reflexivity.
      * intros e evs2 [_ [p H]]. discriminate.
    + intros e evs1 [-> H]. split; [assumption|now left].
  - intros a evs H. exact H.
  - intros e evs1 [H _] E. congruence.
  - intros e evs1 H _. eapply post_attempt_handled; eauto.
Qed.

Lemma spec_record_game_score account score :
  meets (record_game_score w src account score)
        (post_outcome RecordGameScore account (Score score)).
Proof.
  unfold record_game_score.
  eapply spec_try with (Q1 := post_attempt RecordGameScore account (Score score)).
  - eapply spec_bind; [apply silent_get_random_user_agent| |].
    + intros ua evs1 [-> _].
      eapply spec_bind; [apply spec_get_random_proxy| |].
      * intros px evs2 [-> _].
        eapply spec_bind; [apply spec_session_post| |].
        -- intros code evs3 (reply & -> & ->).
           destruct (code =? 200) eqn:E.
           ++ apply Z.eqb_eq in E. subst code.
              eapply spec_bind; [apply spec_logger_call| |].
              ** intros [] evs4 [_ ->]. apply spec_ret.
                 exists true. split; [reflexivity|]. left. split; [reflexivity|].
                 exists ua, px. reflexivity.
              ** intros e evs4 [H _]. discriminate.
           ++ eapply spec_bind; [apply spec_logger_call| |].
              ** intros [] evs4 [_ ->]. apply spec_ret.
                 exists false. split; [reflexivity|]. right. split; [reflexivity|].
                 right. exists ua, px, (Status code).
                 split; [apply status_200; assumption|reflexivity].
              ** intros e evs4 [H _]. discriminate.
        -- intros e evs3 (reply & -> & -> & ->). split; [reflexivity|].
           right. exists ua, px. reflexivity.
      * intros e evs2 [_ [p H]]. discriminate.
    + intros e evs1 [-> H]. split; [assumption|now left].
  - intros a evs H. exact H.
  - intros e evs1 [H _] E. congruence.
  - intros e evs1 H _. eapply post_attempt_handled; eauto.
Qed.

(** ** [play_single_game] *)

Lemma setting_exception key default e :
  setting cfg key default = Raise e -> is_Exception e = true.
Proof.
  unfold setting.
  destruct (match dict_lookup "game_settings" cfg with Some v => v | None => JObj [] end);
    intros H; inversion H; reflexivity.
Qed.

Lemma randint_in_range a b s :
  setting cfg "min_score" (default_min_score src) = Ok a ->
  setting cfg "max_score" (default_max_score src) = Ok b ->
  (forall lo hi, py_index a = Some lo -> py_index b = Some hi -> lo <= s <= hi) ->
  in_score_range src cfg s.
Proof.
  intros Ha Hb Hs lo hi. unfold score_range. rewrite Ha, Hb.
  destruct (py_index a) as [lo'|]; [|discriminate].
  destruct (py_index b) as [hi'|]; [|discriminate].
  intros [= <- <-]. now apply Hs.
Qed.

Lemma spec_play_single_game account game_round :
  meets (play_single_game w src account game_round)
        (round_outcome account (in_score_range src cfg)).
Proof.
  unfold play_single_game.
  eapply spec_try with (Q1 := round_attempt account (in_score_range src cfg)).
  - eapply spec_bind; [apply spec_logger_call| |];
      [|intros e evs [H _]; discriminate].
    intros [] evs1 [_ ->].
    eapply spec_bind; [apply spec_get_game_code| |];
      [|intros e evs (_ & code & H & _); discriminate].
    intros game_code evs2 (He2 & code & Hc & Hf). injection Hc as ->.
    unfold falsy_code. rewrite (is_game_code_nonempty _ Hf).
    eapply spec_bind; [apply spec_check_game_code| |];
      [|intros e evs (b & H & _); discriminate].
    intros checked evs3 (b & Hb & Hcheck). injection Hb as ->.
    destruct Hcheck as [(-> & ua & px & He3)|(-> & He3)]; simpl negb; cbv iota.
    + (* the check call came back with 200 *)
      eapply spec_bind; [apply spec_game_setting| |].
      2:{ intros e evs [H ->]. symmetry in H. split; [eapply setting_exception; eauto|].
          rewrite !effects_app, He2, He3. simpl. apply RoundNoRecord. }
      intros min_score evs4 [Hmin ->]. symmetry in Hmin.
      eapply spec_bind; [apply spec_game_setting| |].
      2:{ intros e evs [H ->]. symmetry in H. split; [eapply setting_exception; eauto|].
          rewrite !effects_app, He2, He3. simpl. apply RoundNoRecord. }
      intros max_score evs5 [Hmax ->]. symmetry in Hmax.
      eapply spec_bind; [apply spec_randint| |].
      2:{ intros e evs [-> H]. split; [assumption|].
          rewrite !effects_app, He2, He3. simpl. apply RoundNoRecord. }
      intros score evs6 (-> & Hs).
      pose proof (randint_in_range _ _ _ Hmin Hmax Hs) as Hin.
      eapply spec_bind; [apply spec_logger_call| |];
        [|intros e evs [H _]; discriminate].
      intros [] evs7 [_ ->].
      eapply spec_bind; [apply spec_record_game_score| |];
        [|intros e evs (b & H & _); discriminate].
      intros recorded evs8 (b & Hb & Hrec). injection Hb as ->.
      destruct Hrec as [(-> & ua' & px' & He8)|(-> & He8)].
      * eapply spec_bind; [apply spec_logger_call| |];
          [|intros e evs [H _]; discriminate].
        intros [] evs9 [_ ->]. apply spec_ret.
        unfold round_attempt. rewrite !effects_app, He2, He3, He8. simpl.
        apply RoundRecorded. assumption.
      * eapply spec_bind; [apply spec_logger_call| |];
          [|intros e evs [H _]; discriminate].
        intros [] evs9 [_ ->]. apply spec_ret.
        unfold round_attempt. rewrite !effects_app, He2, He3. simpl.
        destruct He8 as [He8|(ua' & px' & reply & Hr & He8)]; rewrite He8; simpl.
        -- apply RoundNoRecord.
        -- apply RoundRecordFailed; assumption.
    + (* the check call failed *)
      eapply spec_bind; [apply spec_logger_call| |];
        [|intros e evs [H _]; discriminate].
      intros [] evs4 [_ ->]. apply spec_ret.
      unfold round_attempt. rewrite !effects_app, He2. simpl.
      destruct He3 as [He3|(ua & px & reply & Hr & He3)]; rewrite He3; simpl.
      * apply RoundNoCheck.
      * apply RoundCheckFailed; assumption.
  - intros b evs H. exists b. split; [reflexivity|exact H].
  - intros e evs1 [H _] E. congruence.
  - intros e evs1 [_ H] _.
    eapply spec_bind; [apply spec_logger_call| |];
      [|intros e' evs [H' _]; discriminate].
    intros [] evs2 [_ ->]. apply spec_ret.
    exists false. split; [reflexivity|].
    rewrite !effects_app. simpl. rewrite !app_nil_r. exact H.
Qed.

(** ** [play_game] *)

Lemma session_event_effects who evs :
  Forall (session_event who) (effects evs) -> Forall (session_event who) evs.
Proof.
  induction evs as [|ev evs IH]; intros H; [constructor|].
  destruct ev; simpl in H.
  - constructor; [exact I|auto].
  - constructor; [exact I|auto].
  - inversion H; subst. constructor; auto.
  - inversion H; subst. constructor; auto.
Qed.

Lemma not_status_200 reply :
  reply <> Status 200 ->
  match reply with Status 200 => true | _ => false end = false.
Proof.
  intros H. destruct reply as [c|]; [|reflexivity].
  destruct (c =? 200) eqn:E.
  - apply Z.eqb_eq in E. subst. contradiction.
  - destruct c as [|p|p]; try reflexivity.
    repeat (destruct p as [p|p|]; try reflexivity); discriminate.
Qed.

Lemma round_effects_session who R b effs :
  round_effects who R b effs ->
  Forall (session_event who) effs /\
  recorded_ok effs = (if b then 1 else 0)%nat.
Proof.
  intros H.
  destruct H as [|code ua px reply Hr|code ua px
                 |code ua px s ua' px' reply Hin Hr|code ua px s ua' px' Hin];
    (split; [repeat constructor|]); unfold recorded_ok; simpl; try reflexivity.
  now rewrite (not_status_200 _ Hr).
Qed.

Lemma round_outcome_session who R r evs :
  round_outcome who R r evs ->
  exists b, r = Ok b /\
    Forall (session_event who) evs /\
    recorded_ok evs = (if b then 1 else 0)%nat.
Proof.
  intros (b & -> & H). exists b. split; [reflexivity|].
  apply round_effects_session in H as [H1 H2].
  split; [now apply session_event_effects|].
  now rewrite <- recorded_ok_effects.
Qed.

(** [time.sleep] on a JSON value: it sleeps that number of seconds, or
    raises. *)
Lemma spec_py_sleep site delay :
  meets (py_sleep w site delay)
       (fun r evs =>
          (exists seconds,
             py_seconds delay = Some seconds /\
             r = Ok tt /\ evs = [EvSleep site seconds]) \/
          (exists e, r = Raise e /\ is_Exception e = true /\ evs = [] /\
             forall seconds, py_seconds delay = Some seconds ->
                             ~ sleep_accepts w seconds)).
Proof.
  assert (Hnum : forall seconds, py_seconds delay = Some seconds ->
            meets (time_sleep w site seconds)
              (fun r evs =>
                 (exists seconds,
                    py_seconds delay = Some seconds /\
                    r = Ok tt /\ evs = [EvSleep site seconds]) \/
                 (exists e, r = Raise e /\ is_Exception e = true /\ evs = [] /\
                    forall seconds, py_seconds delay = Some seconds ->
                                    ~ sleep_accepts w seconds))).
  { intros seconds Hs. eapply spec_weaken; [apply spec_time_sleep|].
    intros r evs [(-> & ->)|(e & -> & He & -> & Hno)].
    - left. exists seconds. auto.
    - right. exists e. repeat split; auto.
      intros seconds' Hs'. rewrite Hs in Hs'. injection Hs' as <-. exact Hno. }
  assert (Hno : forall e, is_Exception e = true -> py_seconds delay = None ->
            meets (raise e : M unit)
              (fun r evs =>
                 (exists seconds,
                    py_seconds delay = Some seconds /\
                    r = Ok tt /\ evs = [EvSleep site seconds]) \/
                 (exists e, r = Raise e /\ is_Exception e = true /\ evs = [] /\
                    forall seconds, py_seconds delay = Some seconds ->
                                    ~ sleep_accepts w seconds))).
  { intros e He Hs. apply spec_raise. right. exists e. repeat split; auto.
    intros seconds Hs'. congruence. }
  unfold py_sleep.
  destruct delay as [|b|z|[q| |neg]|s|l|o]; cbn [py_seconds];
    first [apply Hnum; reflexivity | apply Hno; reflexivity].
Qed.

(** The pause between two rounds. *)
Lemma spec_round_delay account (i n : Z) :
  meets (if i <? n then
           delay <- game_setting "game_delay" (default_game_delay src);;
           logger_info (MsgWaiting (acc_name account) delay);;
           py_sleep w BetweenRounds delay
         else ret tt)
        (fun r evs =>
           Forall (session_event account) evs /\ recorded_ok evs = 0%nat /\
           match r with
           | Ok _ => True
           | Raise e => is_Exception e = true /\ ~ delay_ok w src cfg
           end).
Proof.
  destruct (i <? n); [|apply spec_ret; repeat split; constructor].
  eapply spec_bind; [apply spec_game_setting| |].
  - intros delay evs1 [Hd ->]. symmetry in Hd.
    eapply spec_bind; [apply spec_logger_call| |];
      [|intros e evs [H _]; discriminate].
    intros [] evs2 [_ ->].
    eapply spec_weaken; [apply spec_py_sleep|].
    intros r evs [(seconds & Hs & -> & ->)|(e & -> & He & -> & Hno)]; simpl.
    + repeat split; repeat constructor.
    + repeat split; repeat constructor; [exact He|].
      intros (j & seconds & Hj & Hs & Hacc).
      rewrite Hd in Hj. injection Hj as <-. exact (Hno _ Hs Hacc).
  - intros e evs1 [Hd ->]. symmetry in Hd. repeat split; try constructor.
    + eapply setting_exception; eauto.
    + intros (j & seconds & Hj & _). congruence.
Qed.

Lemma spec_play_game_rounds account n rounds :
  forall success_count,
    meets (play_game_rounds w src account n rounds success_count)
          (rounds_outcome w src cfg account success_count).
Proof.
  induction rounds as [|i rest IH]; intros sc; simpl.
  - apply spec_ret. split; [constructor|]. unfold recorded_ok. simpl. lia.
  - eapply spec_bind; [apply spec_play_single_game| |].
    2:{ intros e evs (b & H & _). discriminate. }
    intros result evs1 H.
    apply round_outcome_session in H as (b & Hb & Hs1 & Hr1). injection Hb as ->.
    destruct b; simpl negb; cbv iota.
    + eapply spec_bind; [apply spec_round_delay| |].
      * intros [] evs2 (Hs2 & Hr2 & _).
        eapply spec_weaken; [apply IH|].
        intros r evs3 [Hs3 Hr3]. split.
        -- repeat (apply Forall_app; split); assumption.
        -- destruct r as [k|e]; [|assumption].
           rewrite !recorded_ok_app, Hr1, Hr2. lia.
      * intros e evs2 (Hs2 & _ & He). split; [|assumption].
        apply Forall_app; split; assumption.
    + eapply spec_bind; [apply spec_logger_call| |];
        [|intros e evs [H _]; discriminate].
      intros [] evs2 [_ ->]. apply spec_ret. split.
      * repeat (apply Forall_app; split); try assumption; repeat constructor.
      * rewrite !recorded_ok_app, Hr1. unfold recorded_ok. simpl. lia.
Qed.

Lemma spec_play_game account :
  meets (play_game w src account) (session_outcome w src cfg account).
Proof.
  unfold play_game.
  eapply spec_try with
    (Q1 := fun r evs =>
             Forall (session_event account) evs /\
             match r with
             | Ok b => b = (0 <? Z.of_nat (recorded_ok evs))
             | Raise e =>
                 is_Exception e = true /\
                 (~ delay_ok w src cfg \/ recorded_ok evs = 0%nat)
             end).
  - eapply spec_bind; [apply spec_game_setting| |].
    2:{ intros e evs [H ->]. symmetry in H. split; [constructor|]. split.
        - eapply setting_exception; eauto.
        - now right. }
    intros games_count evs1 [_ ->].
    eapply spec_bind; [apply spec_logger_call| |];
      [|intros e evs [H _]; discriminate].
    intros [] evs2 [_ ->].
    destruct (py_index games_count) as [n|].
    2:{ apply spec_raise. split; [repeat constructor|]. split; [reflexivity|now right]. }
    eapply spec_bind; [apply spec_play_game_rounds| |].
    + intros sc evs3 [Hs3 ->].
      eapply spec_bind; [apply spec_logger_call| |];
        [|intros e evs [H _]; discriminate].
      intros [] evs4 [_ ->]. apply spec_ret. split.
      * repeat (apply Forall_app; split); try assumption; repeat constructor.
      * rewrite !recorded_ok_app. unfold recorded_ok. simpl.
        f_equal. lia.
    + intros e evs3 [Hs3 [He Hd]]. split.
      * repeat (apply Forall_app; split); try assumption; repeat constructor.
      * split; [assumption|now left].
  - intros b evs [Hs ->]. split; [assumption|].
    eexists. split; [reflexivity|]. split.
    + intros H. apply Z.ltb_lt in H. lia.
    + intros _ H. apply Z.ltb_lt. lia.
  - intros e evs1 [_ [H _]] E. congruence.
  - intros e evs1 [Hs [_ Hd]] _.
    eapply spec_bind; [apply spec_logger_call| |];
      [|intros e' evs [H' _]; discriminate].
    intros [] evs2 [_ ->]. apply spec_ret. split.
    + repeat (apply Forall_app; split); try assumption; repeat constructor.
    + exists false. split; [reflexivity|]. split; [discriminate|].
      intros Hok Hrec. destruct Hd as [Hd|Hd]; [contradiction|].
      rewrite !recorded_ok_app, Hd in Hrec.
      unfold recorded_ok in Hrec. simpl in Hrec. lia.
Qed.

(** ** [play_all_accounts] *)

Lemma uniform_bounds (a b k : Z) (p : positive) :
  a < b -> 0 <= k < Z.pos p ->
  let d := uniform a b (Qmake k p) in
  Qle (inject_Z a) d /\ Qlt d (inject_Z b).
Proof.
  intros Hab Hk. unfold uniform, Qle, Qlt, Qplus, Qmult, inject_Z. simpl.
  rewrite ?Pos.mul_1_l, ?Z.mul_1_r.
  assert (H0 : 0 <= (b - a) * k) by (apply Z.mul_nonneg_nonneg; lia).
  assert (H1 : (b - a) * k < (b - a) * Z.pos p) by (apply Z.mul_lt_mono_pos_l; lia).
  rewrite Z.mul_sub_distr_r in H1.
  split; lia.
Qed.

(** [random.random()] lies in [0, 1), so [random.uniform(a, b)] in
    [a, b). *)
Lemma random_draw_bounds (a b : Z) t :
  a < b ->
  Qle (inject_Z a) (uniform a b (random_draw w t)) /\
  Qlt (uniform a b (random_draw w t)) (inject_Z b).
Proof.
  intros Hab. unfold random_draw. apply uniform_bounds; [assumption|].
  split; [apply N2Z.is_nonneg|].
  change (Z.pos (2 ^ 53)) with (Z.of_N (2 ^ 53)%N).
  apply N2Z.inj_lt. apply N.mod_lt. discriminate.
Qed.

Lemma spec_random_unit :
  meets (random_unit w)
        (fun r evs => evs = [] /\ exists t, r = Ok (random_draw w t)).
Proof.
  unfold random_unit.
  eapply spec_bind; [apply spec_next_tick| |].
  - intros t evs1 [_ ->]. apply spec_ret. split; [reflexivity|]. eauto.
  - intros e evs1 [[t H] _]. discriminate.
Qed.

Lemma spec_random_uniform (a b : Z) :
  meets (random_uniform w a b)
        (fun r evs =>
           evs = [] /\ exists t, r = Ok (uniform a b (random_draw w t))).
Proof.
  unfold random_uniform.
  eapply spec_bind; [apply spec_random_unit| |].
  - intros r evs1 (-> & t & Hr). injection Hr as ->.
    apply spec_ret. split; [reflexivity|]. eauto.
  - intros e evs1 (_ & t & H). discriminate.
Qed.

(** The pause between two accounts is one every platform takes. *)
Lemma jitter_accepted t :
  sleep_accepts w (uniform 1 (jitter_high src) (random_draw w t)).
Proof.
  assert (H : 1 < jitter_high src) by (destruct src; reflexivity).
  destruct (random_draw_bounds 1 (jitter_high src) t H) as [Hlo Hhi].
  apply short_sleeps_accepted.
  - apply Qle_trans with (inject_Z 1); [discriminate|assumption].
  - apply Qlt_le_weak. eapply Qlt_le_trans; [exact Hhi|].
    destruct src; discriminate.
Qed.

Lemma jitter_high_gt_1 : 1 < jitter_high src.
Proof. destruct src; reflexivity. Qed.

Lemma spec_play_accounts_loop todo :
  forall success_count,
    meets (play_accounts_loop w src todo success_count)
          (fun r evs =>
             (exists n, r = Ok n) /\
             sweep_events w (jitter_high src) todo evs).
Proof.
  induction todo as [|account rest IH]; intros sc; simpl.
  - apply spec_ret. split; [eauto|constructor].
  - eapply spec_bind; [apply spec_play_game| |].
    2:{ intros e evs (_ & b & H & _). discriminate. }
    intros ok evs1 (Hs1 & _).
    eapply spec_bind; [apply spec_random_uniform| |].
    2:{ intros e evs (_ & t & H). discriminate. }
    intros jitter evs2 (-> & t & Hd). injection Hd as ->.
    eapply spec_bind; [apply spec_time_sleep| |].
    + intros [] evs3 [(_ & ->)|(e & H & _)]; [|discriminate].
      eapply spec_weaken; [apply IH|].
      intros r evs4 [Hr Hsweep]. split; [assumption|].
      simpl. apply SweepAccount; assumption.
    + intros e evs3 [(H & _)|(e' & _ & _ & _ & Hno)]; [discriminate|].
      exfalso. apply Hno. apply jitter_accepted.
Qed.

Lemma spec_sweep (l : list account) :
  meets (match l with
         | [] => logger_warning MsgNoAccounts
         | _ :: _ =>
             logger_info (MsgSweepStart (List.length l));;
             success_count <- play_accounts_loop w src l 0;;
             logger_info (MsgSweepDone success_count (List.length l))
         end)
        (sweep_outcome w src l).
Proof.
  unfold sweep_outcome. destruct l as [|a rest].
  - eapply spec_weaken; [apply spec_logger_call|].
    intros r evs [-> ->]. auto.
  - eapply spec_bind; [apply spec_logger_call| |];
      [|intros e evs [H _]; discriminate].
    intros [] evs2 [_ ->].
    eapply spec_bind; [apply spec_play_accounts_loop| |].
    2:{ intros e evs [[n H] _]. discriminate. }
    intros n evs3 [_ Hsweep].
    eapply spec_weaken; [apply spec_logger_call|].
    intros r evs [-> ->]. split; [reflexivity|].
    exists n, evs3. split; [reflexivity|assumption].
Qed.

Lemma spec_play_all_accounts :
  meets (play_all_accounts w src) (sweep_outcome w src accs).
Proof.
  unfold play_all_accounts.
  eapply spec_bind; [apply spec_getattr_accounts| |].
  2:{ intros e evs [H _]. discriminate. }
  intros l evs1 [Hl ->]. injection Hl as ->.
  apply spec_sweep.
Qed.

End Rules.

(** ** From a constructed object to the specifications *)

Lemma constructed_bot st :
  constructed (self st) = true -> exists cfg accs prox, bot cfg accs prox st.
Proof.
  unfold constructed, bot. intros H.
  destruct (config (self st)) as [[| | | | | |cfg]|]; try discriminate.
  destruct (accounts (self st)) as [accs|]; try discriminate.
  destruct (proxies (self st)) as [prox|]; try discriminate.
  destruct (user_agent (self st)) as [[]|]; try discriminate.
  destruct (logger (self st)) as [lvl|]; try discriminate.
  exists cfg, accs, prox. repeat split; congruence.
Qed.

Lemma bot_constructed cfg accs prox st :
  bot cfg accs prox st -> constructed (self st) = true.
Proof.
  unfold constructed. intros (-> & -> & -> & -> & H).
  destruct (logger (self st)); congruence.
Qed.

Lemma spec_run cfg accs prox {A} (m : M A) Q st :
  spec cfg accs prox m Q -> bot cfg accs prox st ->
  Q (fst (m st)) (new_events st (snd (m st))) /\ bot cfg accs prox (snd (m st)).
Proof.
  intros Hm Hst. destruct (Hm st Hst) as (evs & Hb & Ht & Hq).
  rewrite (new_events_app _ _ _ Ht). auto.
Qed.

Lemma game_setting_run cfg accs prox key default st :
  bot cfg accs prox st ->
  game_setting key default st = (setting cfg key default, st).
Proof.
  intros (Hc & _). unfold game_setting, bind, getattr, setting.
  rewrite Hc. simpl.
  destruct (dict_lookup "game_settings" cfg) as [[]|]; reflexivity.
Qed.

Lemma logger_call_run lvl m st :
  logger (self st) <> None ->
  logger_call lvl m st
  = (Ok tt, mk_state (self st) (tick st) (trace st ++ [EvLog lvl m])).
Proof.
  intros H. unfold logger_call, bind, getattr, emit.
  destruct (logger (self st)); [reflexivity|congruence].
Qed.

Lemma configured_setting cfg accs prox key default st n :
  bot cfg accs prox st ->
  configured key default st = Some n ->
  exists j, setting cfg key default = Ok j /\ py_index j = Some n.
Proof.
  intros Hst. unfold configured. rewrite (game_setting_run _ _ _ _ _ _ Hst). simpl.
  destruct (setting cfg key default) as [j|e]; [|discriminate]. eauto.
Qed.


(** ** C1: recorded scores lie in the configured range *)



(** ** C2: no record call after a failed check *)

Lemma post_outcome_check_replies who code r evs :
  post_outcome CheckGameCode who (GameCode code) r evs ->
  record_calls evs = [] /\
  exists b, r = Ok b /\ (b = true <-> check_replies evs = [Status 200]).
Proof.
  intros (b & -> & H).
  rewrite <- record_calls_effects, <- check_replies_effects.
  destruct H as [(-> & ua & px & ->)|(-> & [->|(ua & px & reply & Hr & ->)])]; simpl;
    (split; [reflexivity|]); eexists; (split; [reflexivity|]); split;
    try reflexivity; try discriminate.
  intros E. injection E as ->. contradiction.
Qed.

Lemma round_effects_order who R b effs :
  round_effects who R b effs ->
  (check_replies effs <> [Status 200] -> record_calls effs = [] /\ b = false) /\
  (record_calls effs <> [] ->
   exists c r, effs = [c; r] /\ check_replies [c] = [Status 200] /\
               record_calls [c] = [] /\ record_calls [r] = [r]).
Proof.
  intros H. destruct H; simpl; split; try congruence; try (intros _; split; reflexivity).
  - intros _. eexists _, _. repeat split; reflexivity.
  - intros _. eexists _, _. repeat split; reflexivity.
Qed.

(** C2. For every account and every round:
    - [check_game_code] returns a boolean, [True] exactly when its post came
      back with status 200 (any other status, or an exception, gives
      [False]), and it makes no record call;
    - when the call of [check_game_code] that [play_single_game] makes
      returns [False], [play_single_game] logs the failure and returns
      [False] at once: the round makes no record call;
    - a round that makes a record call made, before it, a check call that
      came back with 200. *)
Theorem no_record_call_after_failed_check
    (w : World) (src : source_file) (st : State)
    (account : account) (game_round : Z) :
  constructed (self st) = true ->
  exists code st1,
    (logger_info (MsgRoundStart (acc_name account) game_round);;
     get_game_code w account) st = (Ok (Some code), st1) /\
    (let checked := check_game_code w src account code st1 in
     record_calls (new_events st1 (snd checked)) = [] /\
     exists b, fst checked = Ok b /\
       (b = true <-> check_replies (new_events st1 (snd checked)) = [Status 200])) /\
    (forall st2,
       check_game_code w src account code st1 = (Ok false, st2) ->
       play_single_game w src account game_round st
       = (Ok false,
          mk_state (self st2) (tick st2)
            (trace st2 ++
             [EvLog ERROR (MsgRoundCheckFailed (acc_name account) game_round)]))) /\
    (let evs := new_events st (snd (play_single_game w src account game_round st)) in
     (check_replies evs <> [Status 200] -> record_calls evs = []) /\
     (record_calls evs <> [] ->
      exists c r, effects evs = [c; r] /\ check_replies [c] = [Status 200] /\
                  record_calls [c] = [] /\ record_calls [r] = [r])).
Proof.
  intros Hc.
  destruct (constructed_bot _ Hc) as (cfg & accs & prox & Hst).
  assert (Hlog : logger (self st) <> None) by apply Hst.
  unfold logger_info.
  pose proof (logger_call_run INFO (MsgRoundStart (acc_name account) game_round) st Hlog) as E0.
  set (st0 := mk_state (self st) (tick st)
                (trace st ++ [EvLog INFO (MsgRoundStart (acc_name account) game_round)])) in *.
  assert (Hst0 : bot cfg accs prox st0) by exact Hst.
  destruct (spec_run _ _ _ _ _ _ (spec_get_game_code w cfg accs prox account) Hst0)
    as [(_ & code & Hcode & Hf) Hst1].
  destruct (get_game_code w account st0) as [gc st1] eqn:E1. simpl in Hcode, Hst1.
  subst gc.
  exists code, st1. split; [|split; [|split]].
  - unfold bind. rewrite E0, E1. reflexivity.
  - destruct (spec_run _ _ _ _ _ _
                (spec_check_game_code w src cfg accs prox account code) Hst1) as [H _].
    apply post_outcome_check_replies in H. exact H.
  - intros st2 E2.
    destruct (spec_run _ _ _ _ _ _
                (spec_check_game_code w src cfg accs prox account code) Hst1) as [_ Hst2].
    rewrite E2 in Hst2. simpl in Hst2.
    assert (Hlog2 : logger (self st2) <> None) by apply Hst2.
    unfold play_single_game, try_except, bind, logger_info, logger_error.
    rewrite E0, E1. unfold falsy_code.
    rewrite (is_game_code_nonempty _ Hf), E2. simpl.
    rewrite (logger_call_run _ _ _ Hlog2). reflexivity.
  - destruct (spec_run _ _ _ _ _ _
                (spec_play_single_game w src cfg accs prox account game_round) Hst)
      as [(b & _ & Heff) _].
    apply round_effects_order in Heff.
    rewrite record_calls_effects, check_replies_effects in Heff.
    destruct Heff as [H1 H2]. split; [|exact H2].
    intros H. apply H1. exact H.
Qed.

(** ** C3: a failed first check ends the session *)

Lemma bind_ok {A B} (m : M A) (f : A -> M B) st a st' :
  m st = (Ok a, st') -> bind m f st = f a st'.
Proof. intros H. unfold bind. now rewrite H. Qed.

Lemma bind_raise {A B} (m : M A) (f : A -> M B) st e st' :
  m st = (Raise e, st') -> bind m f st = (Raise e, st').
Proof. intros H. unfold bind. now rewrite H. Qed.

Lemma try_ok {A} (m : M A) handles handler st a st' :
  m st = (Ok a, st') -> try_except m handles handler st = (Ok a, st').
Proof. intros H. unfold try_except. now rewrite H. Qed.

Lemma try_handled {A} (m : M A) handles handler st e st' :
  m st = (Raise e, st') -> handles e = true ->
  try_except m handles handler st = handler e st'.
Proof. intros H E. unfold try_except. now rewrite H, E. Qed.

(** The [break] of the loop of [play_game]. *)
Lemma play_game_rounds_break w src account n i rest success_count st0 st1 :
  play_single_game w src account i st0 = (Ok false, st1) ->
  logger (self st1) <> None ->
  play_game_rounds w src account n (i :: rest) success_count st0
  = (Ok success_count,
     mk_state (self st1) (tick st1)
       (trace st1 ++ [EvLog INFO (MsgNoAttemptsLeft (acc_name account))])).
Proof.
  intros E H. cbn [play_game_rounds].
  rewrite (bind_ok _ _ _ _ _ E). cbn [negb].
  unfold logger_info.
  rewrite (bind_ok _ _ _ _ _ (logger_call_run _ _ _ H)). reflexivity.
Qed.

Lemma round_effects_checks who R b effs :
  round_effects who R b effs -> (List.length (check_replies effs) <= 1)%nat.
Proof.
  intros H. destruct H; simpl; lia.
Qed.

(** C3. With [games_per_session = 3], when the check call of the first
    round fails (no reply with status 200), [play_game] is: the start log,
    round 1, the log "no attempts left" and the log of the count, which is
    0 of 3; rounds 2 and 3 are never started, no score is recorded, no pause
    is made, and the result is [False]. *)
Theorem first_check_fails_session_stops
    (w : World) (src : source_file) (st : State) (account : account) :
  constructed (self st) = true ->
  fst (game_setting "games_per_session" (default_games_per_session src) st)
  = Ok (JInt 3) ->
  let st0 := snd (logger_info (MsgSessionStart (acc_name account) (JInt 3)) st) in
  let st1 := snd (play_single_game w src account 1 st0) in
  check_replies (new_events st0 st1) <> [Status 200] ->
  let evs := new_events st (snd (play_game w src account st)) in
  play_game w src account st
  = (Ok false,
     mk_state (self st1) (tick st1)
       (trace st1 ++
        [EvLog INFO (MsgNoAttemptsLeft (acc_name account));
         EvLog INFO (MsgSessionDone (acc_name account) (JInt 3) 0)])) /\
  recorded_ok evs = 0%nat /\
  record_calls evs = [] /\
  sleeps BetweenRounds evs = [] /\
  (List.length (check_replies evs) <= 1)%nat.
Proof.
  intros Hc Hgames st0 st1 Hcheck evs.
  destruct (constructed_bot _ Hc) as (cfg & accs & prox & Hst).
  assert (Hlog : logger (self st) <> None) by apply Hst.
  rewrite (game_setting_run _ _ _ _ _ _ Hst) in Hgames. simpl in Hgames.
  unfold logger_info in st0.
  pose proof (logger_call_run INFO (MsgSessionStart (acc_name account) (JInt 3)) st Hlog) as E0.
  assert (Hst0 : bot cfg accs prox st0).
  { unfold st0. rewrite E0. exact Hst. }
  assert (Ht0 : trace st0 = trace st ++ [EvLog INFO (MsgSessionStart (acc_name account) (JInt 3))]).
  { unfold st0. rewrite E0. reflexivity. }
  destruct (Hst0) as (_ & _ & _ & _ & Hlog0).
  destruct (spec_play_single_game w src cfg accs prox account 1 st0 Hst0)
    as (evs1 & Hst1 & Ht1 & b & Hr & Heff).
  fold st1 in Hst1, Ht1.
  assert (Hlog1 : logger (self st1) <> None) by apply Hst1.
  rewrite (new_events_app _ _ _ Ht1) in Hcheck.
  pose proof (round_effects_order _ _ _ _ Heff) as [Hfail _].
  rewrite record_calls_effects, check_replies_effects in Hfail.
  destruct (Hfail Hcheck) as [Hrec ->].
  assert (E : play_game w src account st
              = (Ok false,
                 mk_state (self st1) (tick st1)
                   (trace st1 ++
                    [EvLog INFO (MsgNoAttemptsLeft (acc_name account));
                     EvLog INFO (MsgSessionDone (acc_name account) (JInt 3) 0)]))).
  { assert (E1 : play_single_game w src account 1 st0 = (Ok false, st1)).
    { unfold st1. destruct (play_single_game w src account 1 st0) as [r s1].
      simpl in Hr. now subst r. }
    assert (G : game_setting "games_per_session" (default_games_per_session src) st
                = (Ok (JInt 3), st)).
    { rewrite (game_setting_run _ _ _ _ _ _ Hst). now rewrite Hgames. }
    assert (E0' : logger_info (MsgSessionStart (acc_name account) (JInt 3)) st
                  = (Ok tt, st0)).
    { unfold st0, logger_info. rewrite E0. reflexivity. }
    unfold play_game. erewrite try_ok; [reflexivity|].
    rewrite (bind_ok _ _ _ _ _ G).
    rewrite (bind_ok _ _ _ _ _ E0').
    cbv beta.
    change (py_index (JInt 3)) with (Some 3). cbv beta iota.
    change (range_from_1 3) with [1; 2; 3].
    rewrite (bind_ok _ _ _ _ _ (play_game_rounds_break _ _ _ _ _ _ _ _ _ E1 Hlog1)).
    unfold logger_info.
    erewrite bind_ok; [|apply logger_call_run; exact Hlog1].
    unfold ret. cbn [self tick trace]. rewrite <- app_assoc. reflexivity. }
  split; [exact E|].
  assert (Hevs : evs = [EvLog INFO (MsgSessionStart (acc_name account) (JInt 3))] ++ evs1 ++
                 [EvLog INFO (MsgNoAttemptsLeft (acc_name account));
                  EvLog INFO (MsgSessionDone (acc_name account) (JInt 3) 0)]).
  { unfold evs. rewrite E. apply new_events_app. simpl.
    rewrite Ht1, Ht0, <- !app_assoc. reflexivity. }
  rewrite Hevs.
  rewrite !recorded_ok_app, !record_calls_app, !sleeps_app, !check_replies_app.
  apply round_effects_session in Heff as Hsess. destruct Hsess as [_ Hok].
  rewrite recorded_ok_effects in Hok.
  pose proof (round_effects_checks _ _ _ _ Heff) as Hchecks.
  rewrite check_replies_effects in Hchecks.
  assert (Hsl : sleeps BetweenRounds evs1 = []).
  { rewrite <- sleeps_effects. destruct Heff; reflexivity. }
  rewrite Hok, Hrec, Hsl. simpl. rewrite !app_nil_r.
  repeat split; auto.
Qed.

(** ** C4: the result of [play_game] *)

Lemma configured_delay_ok w cfg accs prox src st seconds :
  bot cfg accs prox st ->
  configured_delay src st = Some seconds -> sleep_accepts w seconds ->
  delay_ok w src cfg.
Proof.
  intros Hst Hd Hacc. unfold configured_delay in Hd.
  rewrite (game_setting_run _ _ _ _ _ _ Hst) in Hd. simpl in Hd.
  destruct (setting cfg "game_delay" (default_game_delay src)) as [j|e] eqn:Hj;
    [|discriminate].
  exists j, seconds. auto.
Qed.

(** C4, as the code has it.  For every account, [play_game] returns a
    boolean.  It returns [True] only if at least one round recorded a score
    (the endpoint answered 200), so with no recorded score it returns
    [False].  When the configured [game_delay] is a number of seconds that
    [time.sleep] takes whenever it is called, it returns [True] if and only
    if at least one round recorded a score; such is every delay from 0 to
    [short_sleep], four million seconds. *)
Theorem play_game_success_iff_recorded
    (w : World) (src : source_file) (st : State) (account : account) :
  constructed (self st) = true ->
  let run := play_game w src account st in
  let evs := new_events st (snd run) in
  exists b, fst run = Ok b /\
    (b = true -> (0 < recorded_ok evs)%nat) /\
    ((recorded_ok evs = 0)%nat -> b = false) /\
    (forall seconds,
       configured_delay src st = Some seconds -> sleep_accepts w seconds ->
       (b = true <-> (0 < recorded_ok evs)%nat)) /\
    (forall seconds,
       configured_delay src st = Some seconds ->
       Qle 0 seconds -> Qle seconds short_sleep ->
       (b = true <-> (0 < recorded_ok evs)%nat)).
Proof.
  intros Hc run evs.
  destruct (constructed_bot _ Hc) as (cfg & accs & prox & Hst).
  destruct (spec_run _ _ _ _ _ _ (spec_play_game w src cfg accs prox account) Hst)
    as [(_ & b & Hr & Honly & Hif) _].
  fold run in Hr, Honly, Hif. fold evs in Honly, Hif.
  exists b. split; [exact Hr|]. split; [exact Honly|]. split; [|split].
  - intros H0. destruct b; [|reflexivity]. specialize (Honly eq_refl). lia.
  - intros seconds Hd Hacc. split; [exact Honly|].
    apply Hif. eapply configured_delay_ok; eauto.
  - intros seconds Hd H0 H1. split; [exact Honly|].
    apply Hif. eapply configured_delay_ok; eauto.
    now apply short_sleeps_accepted.
Qed.

(** C4 as stated fails.  With [games_per_session = 2] and
    [game_delay = -1], the first round records a score (status 200), then
    [time.sleep(-1)] raises [ValueError], which the [except] clause of
    [play_game] turns into [False].  The same happens with a delay of
    10^10 seconds, which is not negative: [time.sleep] raises
    [OverflowError]. *)
Lemma play_game_failure_after_recorded_score :
  (let st := constructed_in negative_delay_world Bot1 in
   let run := play_game negative_delay_world Bot1 sample_account st in
   constructed (self st) = true /\
   fst run = Ok false /\
   recorded_ok (new_events st (snd run)) = 1%nat /\
   In (EvLog ERROR (MsgSessionError (JStr "alice") ValueError))
      (new_events st (snd run))) /\
  (let st := constructed_in long_delay_world Bot1 in
   let run := play_game long_delay_world Bot1 sample_account st in
   constructed (self st) = true /\
   configured_delay Bot1 st = Some (inject_Z (10 ^ 10)) /\
   fst run = Ok false /\
   recorded_ok (new_events st (snd run)) = 1%nat /\
   In (EvLog ERROR (MsgSessionError (JStr "alice") OverflowError))
      (new_events st (snd run))).
Proof.
  cbv zeta. split.
  - split; [reflexivity|]. split; [reflexivity|]. split; [reflexivity|].
    vm_compute. repeat (first [left; reflexivity | right]).
  - split; [reflexivity|]. split; [reflexivity|]. split; [reflexivity|].
    split; [reflexivity|].
    vm_compute. repeat (first [left; reflexivity | right]).
Qed.

(** ** C5: the shape of a game code *)

Lemma get_game_id_run w account st :
  logger (self st) <> None ->
  let code := game_id_of (clock_ms w (tick st))
                (N.modulo (uuid_bits w (S (tick st))) (2 ^ 128)) in
  get_game_id w account st
  = (Ok (Some code),
     mk_state (self st) (S (S (tick st)))
       (trace st ++ [EvLog INFO (MsgGameIdGenerated (acc_name account) code)])).
Proof.
  intros Hlog code. unfold get_game_id.
  erewrite try_ok; [reflexivity|].
  erewrite bind_ok; [|reflexivity].
  erewrite bind_ok; [|reflexivity].
  unfold logger_info.
  erewrite bind_ok; [|apply logger_call_run; exact Hlog].
  reflexivity.
Qed.

Lemma get_game_code_run w account st :
  logger (self st) <> None ->
  let code := game_id_of (clock_ms w (tick st))
                (N.modulo (uuid_bits w (S (tick st))) (2 ^ 128)) in
  get_game_code w account st
  = (Ok (Some code),
     mk_state (self st) (S (S (tick st)))
       (trace st ++ [EvLog INFO (MsgGameIdGenerated (acc_name account) code);
                     EvLog INFO (MsgUsingGameId (acc_name account) code)])).
Proof.
  intros Hlog code. unfold get_game_code.
  erewrite try_ok; [reflexivity|].
  erewrite bind_ok; [|apply get_game_id_run; exact Hlog].
  fold code. cbv beta iota.
  assert (E : String.eqb code "" = false).
  { apply is_game_code_nonempty. apply game_id_format. }
  rewrite E. unfold logger_info.
  erewrite bind_ok; [|apply logger_call_run; exact Hlog].
  unfold ret. cbn [self tick trace]. rewrite <- app_assoc. reflexivity.
Qed.

(** What [is_game_code] checks: one or more decimal digits, an underscore,
    exactly eight hexadecimal characters. *)
Lemma is_game_code_sound s :
  is_game_code s = true <->
  exists ds hs,
    chars s = ds ++ "_"%char :: hs /\
    ds <> [] /\ forallb is_digit ds = true /\
    List.length hs = 8%nat /\ forallb is_hex hs = true.
Proof.
  split.
  - unfold is_game_code. intros H.
    assert (Hsplit : forall l, exists ds,
               l = ds ++ drop_while is_digit l /\ forallb is_digit ds = true).
    { induction l as [|c l IH]; [exists []; auto|].
      simpl. destruct (is_digit c) eqn:E.
      - destruct IH as (ds & Hl & Hd). exists (c :: ds). simpl.
        rewrite E. split; [now rewrite <- Hl|assumption].
      - exists []. auto. }
    destruct (Hsplit (chars s)) as (ds & Hl & Hd).
    destruct (chars s) as [|c cs] eqn:Ecs; [discriminate|].
    destruct (drop_while is_digit (c :: cs)) as [|u hs] eqn:Edrop; [discriminate|].
    apply andb_true_iff in H as [H Hhex].
    apply andb_true_iff in H as [H Hlen].
    apply andb_true_iff in H as [Hc Hu].
    apply Ascii.eqb_eq in Hu. subst u. apply Nat.eqb_eq in Hlen.
    exists ds, hs. repeat split; try assumption.
    intros ->. simpl in Hl. injection Hl as -> _. discriminate.
  - intros (ds & hs & Hs & Hne & Hd & Hl & Hh).
    unfold is_game_code. rewrite Hs, drop_digits by assumption.
    destruct ds as [|c ds]; [congruence|].
    simpl in Hd. apply andb_true_iff in Hd as [Hc _].
    cbn [app]. rewrite Hc, Hl, Hh. reflexivity.
Qed.

(** C5. On an object whose logger is set up, [get_game_id] and
    [get_game_code] always return a code, never [None]: the decimal digits
    of the millisecond clock reading, an underscore, and the first eight
    hexadecimal digits of a fresh UUID. *)
Theorem game_code_always_well_formed
    (w : World) (st : State) (account : account) :
  logger (self st) <> None ->
  let code := game_id_of (clock_ms w (tick st))
                (N.modulo (uuid_bits w (S (tick st))) (2 ^ 128)) in
  fst (get_game_id w account st) = Ok (Some code) /\
  fst (get_game_code w account st) = Ok (Some code) /\
  is_game_code code = true /\
  exists hs,
    chars code = chars (str_of_N (clock_ms w (tick st))) ++ "_"%char :: hs /\
    chars (str_of_N (clock_ms w (tick st))) <> [] /\
    forallb is_digit (chars (str_of_N (clock_ms w (tick st)))) = true /\
    List.length hs = 8%nat /\ forallb is_hex hs = true.
Proof.
  intros Hlog code.
  split; [now rewrite get_game_id_run|].
  split; [now rewrite get_game_code_run|].
  split; [apply game_id_format|].
  exists (firstn 8 (hex_digits 32 (N.modulo (uuid_bits w (S (tick st))) (2 ^ 128)))).
  split; [|split; [apply str_of_N_nonempty|split; [apply str_of_N_digits|split]]].
  - unfold code, game_id_of. rewrite random_part_eq, !chars_append, chars_text.
    reflexivity.
  - rewrite length_firstn, hex_digits_length. reflexivity.
  - apply forallb_forall. intros x Hx.
    pose proof (hex_digits_hex 32 (N.modulo (uuid_bits w (S (tick st))) (2 ^ 128))) as HF.
    rewrite Forall_forall in HF. apply HF. eapply in_firstn; eauto.
Qed.

(** ** C6: a missing or malformed config file *)

(** With a logger, [load_config] would log the error and exit with code 1. *)
Lemma load_config_exits_when_logger_set w st :
  logger (self st) <> None ->
  read_json w (config_path (self st)) = NoJsonFile ->
  load_config w st
  = (Raise (SystemExit 1),
     mk_state (self st) (tick st)
       (trace st ++ [EvLog ERROR (MsgConfigMissing (config_path (self st)))])).
Proof.
  intros Hlog Hfile. unfold load_config.
  erewrite try_handled.
  2:{ erewrite bind_ok; [|reflexivity]. unfold load_json. rewrite Hfile. reflexivity. }
  2:{ reflexivity. }
  cbv beta iota.
  erewrite bind_ok; [|reflexivity].
  unfold logger_error.
  erewrite bind_ok; [|apply logger_call_run; exact Hlog].
  reflexivity.
Qed.

(** C6, on the code.  [__init__] calls [load_config] before [setup_logging],
    so the handlers of [load_config] read [self.logger] when it does not
    exist yet.  With the config file missing or malformed, the process ends
    with an uncaught [AttributeError]: [sys.exit(1)] is not reached, nothing
    is logged, and nothing else has run (the trace is empty, so no sweep).
    A config file that cannot be read, is not UTF-8 or is nested too deep
    has no handler at all: its exception ends the process the same way. *)
Theorem bad_config_raises_attribute_error
    (w : World) (src : source_file) (once : bool) (polls : list bool) :
  match read_json w "config/config.json" with
  | ParsedJson _ => True
  | NoJsonFile | MalformedJson =>
      run_process w src once polls
      = (Raise AttributeError, initial_state "config/config.json")
  | UnreadableJson =>
      run_process w src once polls
      = (Raise OSError, initial_state "config/config.json")
  | UndecodableJson =>
      run_process w src once polls
      = (Raise UnicodeDecodeError, initial_state "config/config.json")
  | TooDeepJson =>
      run_process w src once polls
      = (Raise RecursionError, initial_state "config/config.json")
  end.
Proof.
  destruct (read_json w "config/config.json") eqn:E; try exact I;
    unfold run_process, main;
    (erewrite bind_raise; [reflexivity|]);
    unfold init;
    (erewrite bind_raise; [reflexivity|]);
    unfold load_config, try_except, bind, self_config_path, load_json; simpl;
    rewrite E; reflexivity.
Qed.

(** ** C9 and C10: the accounts file *)

Lemma load_accounts_malformed w src st :
  read_json w (accounts_path src) = MalformedJson ->
  load_accounts w src st
  = (Ok [],
     mk_state (self st) (tick st)
       (trace st ++ [EvPrint (MsgAccountsMalformed JSONDecodeError)])).
Proof.
  intros Hfile. unfold load_accounts.
  erewrite try_handled.
  2:{ apply bind_raise. unfold load_json. rewrite Hfile. reflexivity. }
  2:{ reflexivity. }
  reflexivity.
Qed.

Lemma load_proxies_run w st :
  proxy_file_loads w = true ->
  exists prox,
    load_proxies w st
    = (Ok prox,
       mk_state (self st) (tick st) (trace st ++ proxy_file_events w)).
Proof.
  unfold load_proxies, proxy_file_loads, proxy_file_events, try_except, bind,
    read_lines.
  destruct (read_text w "proxy.txt"); simpl; try discriminate; intros _.
  - eexists. reflexivity.
  - eexists. rewrite app_nil_r. destruct st. reflexivity.
Qed.

Lemma play_all_accounts_no_account w src st :
  accounts (self st) = Some [] -> logger (self st) <> None ->
  play_all_accounts w src st
  = (Ok tt,
     mk_state (self st) (tick st) (trace st ++ [EvLog WARNING MsgNoAccounts])).
Proof.
  intros Ha Hlog. unfold play_all_accounts.
  erewrite bind_ok; [|unfold getattr; rewrite Ha; reflexivity].
  apply logger_call_run. exact Hlog.
Qed.

(** C9, as the code has it.  With an accounts file whose text is not JSON
    ([json.load] raises [JSONDecodeError]), [load_accounts] prints its
    warning and returns the empty list.  The program goes on: when the
    config file holds an object with a known log level and [proxy.txt] is
    absent or can be read, [__init__] completes, and the sweep of [--once]
    logs the warning that no account was found and returns, without a post
    or a sleep.  So does every sweep on an object whose account list is
    empty. *)
Theorem malformed_accounts_file_gives_empty_sweep
    (w : World) (src : source_file) (cfg : list (string * json)) (lvl : level) :
  read_json w (accounts_path src) = MalformedJson ->
  read_json w "config/config.json" = ParsedJson (JObj cfg) ->
  config_log_level cfg = Some lvl ->
  proxy_file_loads w = true ->
  (forall st,
     load_accounts w src st
     = (Ok [],
        mk_state (self st) (tick st)
          (trace st ++ [EvPrint (MsgAccountsMalformed JSONDecodeError)]))) /\
  (exists st',
     run_process w src true [] = (Ok tt, st') /\
     accounts (self st') = Some [] /\
     trace st' = EvPrint (MsgAccountsMalformed JSONDecodeError)
                 :: proxy_file_events w ++ [EvLog WARNING MsgNoAccounts]) /\
  (forall st,
     constructed (self st) = true -> accounts (self st) = Some [] ->
     play_all_accounts w src st
     = (Ok tt,
        mk_state (self st) (tick st) (trace st ++ [EvLog WARNING MsgNoAccounts]))).
Proof.
  intros Hacc Hcfg Hlvl Hproxy. split; [|split].
  - intros st. now apply load_accounts_malformed.
  - unfold run_process, main, run_once.
    set (st0 := initial_state "config/config.json").
    destruct (load_proxies_run w
                (mk_state (set_accounts [] (set_config (JObj cfg) (self st0))) 0
                   [EvPrint (MsgAccountsMalformed JSONDecodeError)]) Hproxy)
      as (prox & Hprox).
    eexists. split; [|split].
    + erewrite bind_ok.
      2:{ unfold init.
          erewrite bind_ok.
          2:{ unfold load_config. erewrite try_ok; [reflexivity|].
              erewrite bind_ok; [|reflexivity].
              unfold load_json. simpl. rewrite Hcfg. reflexivity. }
          erewrite bind_ok; [|reflexivity].
          erewrite bind_ok; [|apply load_accounts_malformed; exact Hacc].
          erewrite bind_ok; [|reflexivity].
          erewrite bind_ok; [|exact Hprox].
          erewrite bind_ok; [|reflexivity].
          erewrite bind_ok; [|reflexivity].
          unfold setup_logging.
          erewrite bind_ok; [|reflexivity].
          erewrite bind_ok; [|reflexivity].
          unfold config_log_level in Hlvl.
          destruct (match dict_lookup "log_level" cfg with
                    | Some v => v
                    | None => JStr "INFO"
                    end) as [| | | |name| |]; try discriminate.
          rewrite Hlvl. reflexivity. }
      apply play_all_accounts_no_account; [reflexivity|discriminate].
    + reflexivity.
    + cbn [trace self tick]. rewrite <- app_assoc. reflexivity.
  - intros st Hc Ha. apply play_all_accounts_no_account; [exact Ha|].
    destruct (constructed_bot _ Hc) as (c & a & p & H). apply H.
Qed.

(** C9 as stated fails on the other files that are not valid JSON: the
    [except] clauses of [load_accounts] name [FileNotFoundError],
    [JSONDecodeError] and [KeyError], so the [UnicodeDecodeError] of a file
    that is not UTF-8 and the [RecursionError] of a file nested too deep
    leave [load_accounts] with nothing printed, then [__init__]: the
    process ends with that exception before any sweep. *)
Lemma undecodable_accounts_file_ends_process :
  read_json undecodable_accounts_world (accounts_path Bot1) = UndecodableJson /\
  fst (load_accounts undecodable_accounts_world Bot1
         (initial_state "config/config.json"))
  = Raise UnicodeDecodeError /\
  fst (run_process undecodable_accounts_world Bot1 true [])
  = Raise UnicodeDecodeError /\
  trace (snd (run_process undecodable_accounts_world Bot1 true [])) = [] /\
  read_json deep_accounts_world (accounts_path Bot1) = TooDeepJson /\
  fst (run_process deep_accounts_world Bot1 true []) = Raise RecursionError /\
  trace (snd (run_process deep_accounts_world Bot1 true [])) = [].
Proof. repeat split; reflexivity. Qed.

Lemma load_accounts_loop_key_error items :
  forallb is_object items = true ->
  existsb (fun a => is_enabled a && lacks_credentials a) items = true ->
  forall accounts st,
  exists key,
    (key = "name" \/ key = "session_token") /\
    load_accounts_loop items accounts st = (Raise (KeyError key), st).
Proof.
  induction items as [|a rest IH]; intros Hobj Hbad accounts st; [discriminate|].
  simpl in Hobj, Hbad.
  apply andb_true_iff in Hobj as [Ha Hrest].
  destruct a as [| | | | | |fields]; try discriminate.
  cbn [load_accounts_loop]. unfold bind at 1. cbn [py_get ret].
  unfold is_enabled, lacks_credentials in Hbad.
  destruct (truthy (match dict_lookup "enabled" fields with
                    | Some v => v
                    | None => JBool true
                    end)) eqn:Hen.
  - unfold bind at 1. cbn [py_subscript].
    destruct (dict_lookup "name" fields) as [name|] eqn:Hname.
    + cbn [ret]. unfold bind at 1. cbn [py_subscript].
      destruct (dict_lookup "session_token" fields) as [token|] eqn:Htoken.
      * cbn [ret]. unfold bind at 1. cbn [py_get ret]. unfold bind at 1. cbn [py_get ret].
        simpl in Hbad. apply IH; assumption.
      * exists "session_token". split; [now right|reflexivity].
    + exists "name". split; [now left|reflexivity].
  - simpl in Hbad. apply IH; assumption.
Qed.

(** C10. In a well-formed accounts file (an object whose ['accounts'] is a
    list of objects), one enabled account without ['name'] or without
    ['session_token'] is enough: the [KeyError] leaves the loop, the
    [except] clause of [load_accounts] prints the warning and returns the
    empty list, whatever accounts came before it. *)
Theorem one_incomplete_account_discards_all
    (w : World) (src : source_file) (st : State)
    (fields : list (string * json)) (items : list json) :
  read_json w (accounts_path src) = ParsedJson (JObj fields) ->
  dict_lookup "accounts" fields = Some (JArr items) ->
  forallb is_object items = true ->
  existsb (fun a => is_enabled a && lacks_credentials a) items = true ->
  exists key,
    (key = "name" \/ key = "session_token") /\
    load_accounts w src st
    = (Ok [],
       mk_state (self st) (tick st)
         (trace st ++ [EvPrint (MsgAccountsMalformed (KeyError key))])).
Proof.
  intros Hfile Hlist Hobj Hbad.
  destruct (load_accounts_loop_key_error items Hobj Hbad [] st) as (key & Hkey & Hloop).
  exists key. split; [exact Hkey|].
  unfold load_accounts.
  erewrite try_handled.
  2:{ erewrite bind_ok; [|unfold load_json; rewrite Hfile; reflexivity].
      erewrite bind_ok; [|unfold py_get; rewrite Hlist; reflexivity].
      erewrite bind_ok; [|reflexivity].
      exact Hloop. }
  2:{ reflexivity. }
  reflexivity.
Qed.

(** ** C8: the user agent *)

Lemma random_choice_in w {A} (l : list A) st :
  l <> [] ->
  exists a,
    In a l /\
    random_choice w l st = (Ok a, mk_state (self st) (S (tick st)) (trace st)).
Proof.
  intros Hl. unfold random_choice. destruct l as [|x l]; [congruence|].
  set (len := Z.of_nat (List.length (x :: l))).
  set (i := Z.of_N (rand_bits w (tick st)) mod len).
  assert (Hi : 0 <= i < len).
  { apply Z.mod_pos_bound. unfold len. simpl List.length. lia. }
  destruct (nth_error (x :: l) (Z.to_nat i)) as [a|] eqn:E.
  - exists a. split; [eapply nth_error_In; eauto|].
    erewrite bind_ok; [|reflexivity]. fold len. fold i. rewrite E. reflexivity.
  - exfalso. apply nth_error_None in E. unfold len in Hi. lia.
Qed.

Lemma user_agent_random_run w st :
  user_agent (self st) <> None ->
  user_agent_random w st
  = (match fake_ua w (tick st) with
     | Some ua => Ok ua
     | None => Raise FakeUserAgentError
     end,
     mk_state (self st) (S (tick st)) (trace st)).
Proof.
  intros H. unfold user_agent_random, bind, getattr, next_tick.
  destruct (user_agent (self st)); [|congruence].
  simpl. destruct (fake_ua w (tick st)); reflexivity.
Qed.

(** [src/bot1.py] with an empty pool: [fake_useragent], asked again in the
    [except] clause when it raised. *)
Lemma bot1_fallback w st (body : M string) st1 :
  user_agent (self st1) <> None ->
  tick st1 = S (tick st) ->
  body st = (match fake_ua w (tick st) with
             | Some ua => Ok ua
             | None => Raise FakeUserAgentError
             end, st1) ->
  fst (try_except body is_Exception (fun _ => user_agent_random w) st)
  = fake_useragent_twice w (tick st).
Proof.
  intros Hua Htick Hbody. unfold try_except, fake_useragent_twice.
  rewrite Hbody.
  destruct (fake_ua w (tick st)); [reflexivity|].
  cbn [is_Exception]. rewrite user_agent_random_run by exact Hua.
  cbn [fst]. rewrite Htick. destruct (fake_ua w (S (tick st))); reflexivity.
Qed.

(** C8, as the code has it.
    - [src/bot1.py]: with a pool that is not empty, the result is a string
      of the pool; with an empty or absent pool it is what [fake_useragent]
      gives (asked a second time if the first call raised), and the
      exception of the second call is not caught.  A pool file that cannot
      be read counts as an absent pool, and [fake_useragent] is then asked
      once, in the [except] clause.  There is no built-in list in this
      file.
    - [src/bot/bot1.py]: no pool file is read; the result is what
      [fake_useragent] gives, or, when that raises, a string of the
      built-in list; the call never raises. *)
Theorem user_agent_sources (w : World) (st : State) :
  user_agent (self st) <> None ->
  (user_agent_pool w st <> [] ->
   exists ua, fst (get_random_user_agent w Bot1 st) = Ok ua /\
              In ua (user_agent_pool w st)) /\
  (user_agent_pool w st = [] ->
   fst (get_random_user_agent w Bot1 st) = user_agent_fallback w st) /\
  (pool_file_fails w st = false ->
   user_agent_fallback w st = fake_useragent_twice w (tick st)) /\
  (exists ua, fst (get_random_user_agent w BotBot1 st) = Ok ua /\
     (fake_ua w (tick st) = Some ua \/
      fake_ua w (tick st) = None /\ In ua builtin_user_agents)).
Proof.
  intros Hua. split; [|split; [|split]].
  - (* src/bot1.py, a pool with something in it *)
    unfold user_agent_pool. intros Hpool.
    cbn [get_random_user_agent].
    assert (Hm : forall pool : list string, pool <> [] ->
              match pool with
              | [] => user_agent_random w
              | _ :: _ => random_choice w pool
              end = random_choice w pool).
    { intros [|x l] H; [congruence|reflexivity]. }
    destruct (full_user_agents (self st)) as [pool|] eqn:Efull.
    + destruct (random_choice_in w pool st Hpool) as (ua & Hin & Hrun).
      exists ua. split; [|exact Hin].
      erewrite try_ok; [reflexivity|].
      erewrite bind_ok; [|unfold hasattr; rewrite Efull; reflexivity].
      unfold pick_user_agent.
      erewrite bind_ok; [|unfold getattr; rewrite Efull; reflexivity].
      rewrite Hm by exact Hpool. exact Hrun.
    + destruct (read_text w "user_agents.txt") as [| | |lines] eqn:Efile;
        try congruence.
      destruct (random_choice_in w (nonempty_lines lines)
                  (mk_state (set_full_user_agents (nonempty_lines lines) (self st))
                     (tick st) (trace st)) Hpool) as (ua & Hin & Hrun).
      exists ua. split; [|exact Hin].
      erewrite try_ok; [reflexivity|].
      erewrite bind_ok; [|unfold hasattr; rewrite Efull; reflexivity].
      unfold path_exists, read_lines. rewrite Efile.
      erewrite bind_ok; [|reflexivity].
      erewrite bind_ok; [|reflexivity].
      unfold pick_user_agent.
      erewrite bind_ok; [|reflexivity].
      rewrite Hm by exact Hpool. exact Hrun.
  - (* src/bot1.py, an empty pool *)
    unfold user_agent_pool, user_agent_fallback, pool_file_fails. intros Hpool.
    cbn [get_random_user_agent].
    assert (Hfails : forall e,
              is_Exception e = true ->
              read_lines w "user_agents.txt" st = (Raise e, st) ->
              full_user_agents (self st) = None ->
              path_exists w "user_agents.txt" = true ->
              fst (try_except
                     (loaded <- hasattr full_user_agents;;
                      if loaded then pick_user_agent w
                      else if path_exists w "user_agents.txt" then
                        lines <- read_lines w "user_agents.txt";;
                        setattr (set_full_user_agents (nonempty_lines lines));;
                        pick_user_agent w
                      else user_agent_random w)
                     is_Exception (fun _ => user_agent_random w) st)
              = match fake_ua w (tick st) with
                | Some ua => Ok ua
                | None => Raise FakeUserAgentError
                end).
    { intros e He Hread Hfull Hex.
      erewrite try_handled; [|rewrite Hex|exact He].
      - now rewrite user_agent_random_run.
      - erewrite bind_ok; [|unfold hasattr; rewrite Hfull; reflexivity].
        cbv beta iota. erewrite bind_raise; [reflexivity|exact Hread]. }
    destruct (full_user_agents (self st)) as [pool|] eqn:Efull.
    + subst pool.
      apply bot1_fallback with (st1 := mk_state (self st) (S (tick st)) (trace st));
        [exact Hua|reflexivity|].
      erewrite bind_ok; [|unfold hasattr; rewrite Efull; reflexivity].
      unfold pick_user_agent.
      erewrite bind_ok; [|unfold getattr; rewrite Efull; reflexivity].
      apply user_agent_random_run. exact Hua.
    + destruct (read_text w "user_agents.txt") as [| | |lines] eqn:Efile.
      * apply bot1_fallback with (st1 := mk_state (self st) (S (tick st)) (trace st));
          [exact Hua|reflexivity|].
        erewrite bind_ok; [|unfold hasattr; rewrite Efull; reflexivity].
        unfold path_exists. rewrite Efile.
        apply user_agent_random_run. exact Hua.
      * apply (Hfails OSError); [reflexivity| |reflexivity|];
          unfold read_lines, path_exists; now rewrite Efile.
      * apply (Hfails UnicodeDecodeError); [reflexivity| |reflexivity|];
          unfold read_lines, path_exists; now rewrite Efile.
      * apply bot1_fallback
          with (st1 := mk_state (set_full_user_agents [] (self st))
                         (S (tick st)) (trace st));
          [exact Hua|reflexivity|].
        erewrite bind_ok; [|unfold hasattr; rewrite Efull; reflexivity].
        unfold path_exists, read_lines. rewrite Efile.
        erewrite bind_ok; [|reflexivity].
        erewrite bind_ok; [|reflexivity].
        unfold pick_user_agent.
        erewrite bind_ok; [|reflexivity].
        rewrite Hpool.
        apply user_agent_random_run. exact Hua.
  - unfold user_agent_fallback. now intros ->.
  - (* src/bot/bot1.py *)
    cbn [get_random_user_agent]. unfold try_except.
    rewrite (user_agent_random_run _ _ Hua).
    destruct (fake_ua w (tick st)) as [ua|] eqn:Efake.
    + exists ua. split; [reflexivity|now left].
    + cbn [is_Exception].
      assert (Hne : builtin_user_agents <> []) by discriminate.
      destruct (random_choice_in w builtin_user_agents
                  (mk_state (self st) (S (tick st)) (trace st)) Hne) as (ua & Hin & Hrun).
      exists ua. rewrite Hrun. split; [reflexivity|right; auto].
Qed.

(** C8 as stated fails on [src/bot1.py]: with no [user_agents.txt] and a
    [fake_useragent] that raises, the call raises; and on [src/bot/bot1.py]
    a pool file is not looked at. *)
Lemma user_agent_fallback_can_raise :
  let st := constructed_in no_user_agent_world Bot1 in
  let st' := constructed_in pool_file_world BotBot1 in
  user_agent (self st) <> None /\
  user_agent_pool no_user_agent_world st = [] /\
  fst (get_random_user_agent no_user_agent_world Bot1 st) = Raise FakeUserAgentError /\
  user_agent_pool pool_file_world st' = ["PoolAgent/1.0"] /\
  fst (get_random_user_agent pool_file_world BotBot1 st') = Ok "Mozilla/5.0".
Proof.
  cbv zeta. split; [discriminate|]. repeat split; reflexivity.
Qed.

(** ** C7: the pause between accounts *)

Lemma session_no_jitter who evs :
  Forall (session_event who) evs -> sleeps BetweenAccounts evs = [].
Proof.
  induction 1 as [|ev evs Hev _ IH]; [reflexivity|].
  destruct ev as [m|lvl m|ep a body ua px reply|site d]; simpl; try exact IH.
  simpl in Hev. subst site. exact IH.
Qed.

Lemma sweep_events_sleeps w high accs evs :
  1 < high ->
  sweep_events w high accs evs ->
  List.length (sleeps BetweenAccounts evs) = List.length accs /\
  Forall (fun d => (exists t, d = uniform 1 high (random_draw w t)) /\
                   Qle 1 d /\ Qle d (inject_Z high))
         (sleeps BetweenAccounts evs).
Proof.
  intros Hhigh.
  induction 1 as [|who rest session t evs Hs _ [IHl IHf]].
  - split; [reflexivity|constructor].
  - rewrite sleeps_app, (session_no_jitter _ _ Hs). simpl.
    split; [now rewrite IHl|]. constructor; [|exact IHf].
    split; [eauto|].
    destruct (random_draw_bounds w 1 high t Hhigh) as [Hlo Hhi].
    split; [exact Hlo|now apply Qlt_le_weak].
Qed.

Lemma sweep_run w src st accs :
  constructed (self st) = true ->
  accounts (self st) = Some accs ->
  accs <> [] ->
  let run := play_all_accounts w src st in
  let evs := new_events st (snd run) in
  fst run = Ok tt /\
  (exists success_count body,
     evs = EvLog INFO (MsgSweepStart (List.length accs)) :: body ++
           [EvLog INFO (MsgSweepDone success_count (List.length accs))] /\
     sweep_events w (jitter_high src) accs body) /\
  List.length (sleeps BetweenAccounts evs) = List.length accs /\
  Forall (fun d => (exists t, d = uniform 1 (jitter_high src) (random_draw w t)) /\
                   Qle 1 d /\ Qle d (inject_Z (jitter_high src)))
         (sleeps BetweenAccounts evs).
Proof.
  intros Hc Ha Hne run evs.
  destruct (constructed_bot _ Hc) as (cfg & accs' & prox & Hst).
  assert (accs' = accs) as -> by (destruct Hst as (_ & H & _); congruence).
  destruct (spec_run _ _ _ _ _ _ (spec_play_all_accounts w src cfg accs prox) Hst)
    as [[Hr Hsweep] _].
  fold run in Hr, Hsweep. fold evs in Hsweep.
  split; [exact Hr|].
  destruct accs as [|a rest]; [congruence|].
  destruct Hsweep as (sc & body & Hevs & Hbody).
  split; [exists sc, body; auto|].
  rewrite Hevs.
  change (EvLog INFO (MsgSweepStart (List.length (a :: rest))) :: body ++
          [EvLog INFO (MsgSweepDone sc (List.length (a :: rest)))])
    with ([EvLog INFO (MsgSweepStart (List.length (a :: rest)))] ++ body ++
          [EvLog INFO (MsgSweepDone sc (List.length (a :: rest)))]).
  rewrite !sleeps_app. simpl (sleeps _ [_]). rewrite app_nil_r. simpl app.
  apply sweep_events_sleeps; [|exact Hbody]. apply jitter_high_gt_1.
Qed.

(** One turn of the loop of [play_all_accounts]: the session of the
    account, then [time.sleep(random.uniform(1, high))] on the next draw of
    the generator, then the accounts that are left. *)
Lemma play_accounts_loop_step w src account rest success_count st :
  constructed (self st) = true ->
  let played := play_game w src account st in
  let st1 := snd played in
  let jitter := uniform 1 (jitter_high src) (random_draw w (tick st1)) in
  play_accounts_loop w src (account :: rest) success_count st
  = play_accounts_loop w src rest
      (match fst played with
       | Ok true => success_count + 1
       | _ => success_count
       end)
      (mk_state (self st1) (S (tick st1))
         (trace st1 ++ [EvSleep BetweenAccounts jitter])).
Proof.
  intros Hc played st1 jitter.
  destruct (constructed_bot _ Hc) as (cfg & accs & prox & Hst).
  destruct (spec_run _ _ _ _ _ _ (spec_play_game w src cfg accs prox account) Hst)
    as [(_ & b & Hr & _) _].
  fold played in Hr.
  cbn [play_accounts_loop]. unfold bind at 1.
  fold played. destruct played as [r s1] eqn:Ep.
  cbn [fst snd] in *. subst r st1.
  unfold bind at 1. unfold random_uniform, random_unit.
  unfold bind at 1. unfold bind at 1. cbn [next_tick ret].
  unfold bind at 1. unfold time_sleep.
  cbn [self tick trace].
  rewrite (jitter_accepted w src (tick s1) (S (tick s1))).
  unfold emit. cbn [self tick trace].
  destruct b; reflexivity.
Qed.

(** C7, as the code has it.  In [play_all_accounts], between the log that
    opens the sweep and the log that closes it, each account in turn gives
    the events of its session followed by one sleep; the sleep also follows
    the last account.  Each sleep lasts what [random.uniform(1, 2)] makes of
    a draw [r] of [random.random()] in [src/bot1.py], and what
    [random.uniform(1, 3)] makes of it in [src/bot/bot1.py]: [1 + r] and
    [1 + 2 r], between 1 and 2 seconds, and between 1 and 3.  The draw is
    the next one of the generator after the session of the account. *)
Theorem pause_after_each_account
    (w : World) (st : State) (accs : list account) :
  constructed (self st) = true ->
  accounts (self st) = Some accs ->
  accs <> [] ->
  (let run := play_all_accounts w Bot1 st in
   let evs := new_events st (snd run) in
   fst run = Ok tt /\
   (exists success_count body,
      evs = EvLog INFO (MsgSweepStart (List.length accs)) :: body ++
            [EvLog INFO (MsgSweepDone success_count (List.length accs))] /\
      sweep_events w 2 accs body) /\
   List.length (sleeps BetweenAccounts evs) = List.length accs /\
   Forall (fun d => (exists t, d = uniform 1 2 (random_draw w t)) /\
                    Qle 1 d /\ Qle d 2)
          (sleeps BetweenAccounts evs)) /\
  (let run := play_all_accounts w BotBot1 st in
   let evs := new_events st (snd run) in
   fst run = Ok tt /\
   (exists success_count body,
      evs = EvLog INFO (MsgSweepStart (List.length accs)) :: body ++
            [EvLog INFO (MsgSweepDone success_count (List.length accs))] /\
      sweep_events w 3 accs body) /\
   List.length (sleeps BetweenAccounts evs) = List.length accs /\
   Forall (fun d => (exists t, d = uniform 1 3 (random_draw w t)) /\
                    Qle 1 d /\ Qle d 3)
          (sleeps BetweenAccounts evs)) /\
  (forall account rest success_count st0,
     constructed (self st0) = true ->
     let played := play_game w Bot1 account st0 in
     let st1 := snd played in
     play_accounts_loop w Bot1 (account :: rest) success_count st0
     = play_accounts_loop w Bot1 rest
         (match fst played with
          | Ok true => success_count + 1
          | _ => success_count
          end)
         (mk_state (self st1) (S (tick st1))
            (trace st1 ++
             [EvSleep BetweenAccounts (uniform 1 2 (random_draw w (tick st1)))]))) /\
  (forall account rest success_count st0,
     constructed (self st0) = true ->
     let played := play_game w BotBot1 account st0 in
     let st1 := snd played in
     play_accounts_loop w BotBot1 (account :: rest) success_count st0
     = play_accounts_loop w BotBot1 rest
         (match fst played with
          | Ok true => success_count + 1
          | _ => success_count
          end)
         (mk_state (self st1) (S (tick st1))
            (trace st1 ++
             [EvSleep BetweenAccounts (uniform 1 3 (random_draw w (tick st1)))]))).
Proof.
  intros Hc Ha Hne. split; [|split; [|split]].
  - exact (sweep_run w Bot1 st accs Hc Ha Hne).
  - exact (sweep_run w BotBot1 st accs Hc Ha Hne).
  - intros account rest sc st0 Hc0.
    exact (play_accounts_loop_step w Bot1 account rest sc st0 Hc0).
  - intros account rest sc st0 Hc0.
    exact (play_accounts_loop_step w BotBot1 account rest sc st0 Hc0).
Qed.

(** C7 as stated fails on [src/bot1.py], which calls
    [random.uniform(1, 2)]: in a world where [random.random()] draws 0.75
    every time, the loop sleeps 1.75 seconds, where [random.uniform(1, 3)]
    makes 2.5 of every draw. *)
Lemma bot1_pause_is_not_uniform_1_3 :
  let w := three_quarters_world in
  let st := constructed_in w Bot1 in
  let evs := new_events st (snd (play_all_accounts w Bot1 st)) in
  (forall t, Qeq (random_draw w t) (3 # 4)) /\
  (forall t, Qeq (uniform 1 3 (random_draw w t)) (5 # 2)) /\
  exists d,
    sleeps BetweenAccounts evs = [d] /\
    Qeq d (7 # 4) /\
    forall t, ~ Qeq d (uniform 1 3 (random_draw w t)).
Proof.
  cbv zeta. split; [intros t; reflexivity|]. split; [intros t; reflexivity|].
  eexists. split; [vm_compute; reflexivity|].
  split; [reflexivity|]. intros t. discriminate.
Qed.

(** ** The theorems at work on the sample worlds *)


Lemma no_record_call_after_failed_check_sample :
  let st := constructed_in hostile_world Bot1 in
  let evs := new_events st (snd (play_single_game hostile_world Bot1 sample_account 1 st)) in
  constructed (self st) = true /\
  check_replies evs = [Status 403] /\
  record_calls evs = [].
Proof.
  cbv zeta. split; [reflexivity|]. split; [reflexivity|].
  destruct (no_record_call_after_failed_check hostile_world Bot1
              (constructed_in hostile_world Bot1) sample_account 1 eq_refl)
    as (code & st1 & _ & _ & _ & H & _).
  apply H. vm_compute. discriminate.
Defined.

Lemma first_check_fails_session_stops_sample :
  let st := constructed_in hostile_world BotBot1 in
  let evs := new_events st (snd (play_game hostile_world BotBot1 sample_account st)) in
  constructed (self st) = true /\
  fst (play_game hostile_world BotBot1 sample_account st) = Ok false /\
  recorded_ok evs = 0%nat /\
  record_calls evs = [] /\
  sleeps BetweenRounds evs = [] /\
  (List.length (check_replies evs) <= 1)%nat.
Proof.
  cbv zeta. split; [reflexivity|].
  assert (Hcheck :
    check_replies
      (new_events
         (snd (logger_info (MsgSessionStart (acc_name sample_account) (JInt 3))
                 (constructed_in hostile_world BotBot1)))
         (snd (play_single_game hostile_world BotBot1 sample_account 1
                 (snd (logger_info (MsgSessionStart (acc_name sample_account) (JInt 3))
                         (constructed_in hostile_world BotBot1))))))
    <> [Status 200]).
  { vm_compute. discriminate. }
  destruct (first_check_fails_session_stops hostile_world BotBot1
              (constructed_in hostile_world BotBot1) sample_account
              eq_refl eq_refl Hcheck) as (H1 & H2).
  split; [|exact H2]. rewrite H1. reflexivity.
Defined.

Lemma play_game_success_iff_recorded_sample :
  let st := constructed_in friendly_world Bot1 in
  let run := play_game friendly_world Bot1 sample_account st in
  let evs := new_events st (snd run) in
  constructed (self st) = true /\
  configured_delay Bot1 st = Some (inject_Z 1) /\
  sleep_accepts friendly_world (inject_Z 1) /\
  exists b, fst run = Ok b /\ (b = true <-> (0 < recorded_ok evs)%nat).
Proof.
  cbv zeta. split; [reflexivity|]. split; [reflexivity|].
  assert (Hacc : sleep_accepts friendly_world (inject_Z 1))
    by (intros t; reflexivity).
  split; [exact Hacc|].
  destruct (play_game_success_iff_recorded friendly_world Bot1
              (constructed_in friendly_world Bot1) sample_account eq_refl)
    as (b & Hb & _ & _ & Hiff & _).
  exists b. split; [exact Hb|].
  apply (Hiff (inject_Z 1)); [reflexivity|exact Hacc].
Defined.

Lemma game_code_always_well_formed_sample :
  let st := constructed_in friendly_world Bot1 in
  logger (self st) <> None /\
  fst (get_game_code friendly_world sample_account st)
  = Ok (Some "1730000000000_12345678") /\
  is_game_code "1730000000000_12345678" = true.
Proof.
  cbv zeta.
  assert (Hlog : logger (self (constructed_in friendly_world Bot1)) <> None)
    by discriminate.
  split; [exact Hlog|].
  destruct (game_code_always_well_formed friendly_world
              (constructed_in friendly_world Bot1) sample_account Hlog)
    as (_ & Hcode & Hform & _).
  split; [exact Hcode|exact Hform].
Defined.

Lemma pause_after_each_account_sample :
  let st := constructed_in friendly_world Bot1 in
  let evs1 := new_events st (snd (play_all_accounts friendly_world Bot1 st)) in
  let evs2 := new_events st (snd (play_all_accounts friendly_world BotBot1 st)) in
  accounts (self st) = Some [sample_account] /\
  List.length (sleeps BetweenAccounts evs1) = 1%nat /\
  Forall (fun d => (exists t, d = uniform 1 2 (random_draw friendly_world t)) /\
                   Qle 1 d /\ Qle d 2)
         (sleeps BetweenAccounts evs1) /\
  List.length (sleeps BetweenAccounts evs2) = 1%nat /\
  Forall (fun d => (exists t, d = uniform 1 3 (random_draw friendly_world t)) /\
                   Qle 1 d /\ Qle d 3)
         (sleeps BetweenAccounts evs2).
Proof.
  cbv zeta. split; [reflexivity|].
  assert (Hne : [sample_account] <> []) by discriminate.
  destruct (pause_after_each_account friendly_world
              (constructed_in friendly_world Bot1) [sample_account]
              eq_refl eq_refl Hne)
    as ((_ & _ & Hl1 & Hf1) & (_ & _ & Hl2 & Hf2) & _).
  repeat split; assumption.
Defined.

Lemma user_agent_sources_sample :
  let st := constructed_in pool_file_world Bot1 in
  user_agent (self st) <> None /\
  user_agent_pool pool_file_world st = ["PoolAgent/1.0"] /\
  exists ua,
    fst (get_random_user_agent pool_file_world Bot1 st) = Ok ua /\
    In ua (user_agent_pool pool_file_world st).
Proof.
  cbv zeta.
  assert (Hua : user_agent (self (constructed_in pool_file_world Bot1)) <> None)
    by discriminate.
  split; [exact Hua|]. split; [reflexivity|].
  destruct (user_agent_sources pool_file_world
              (constructed_in pool_file_world Bot1) Hua) as (Hpool & _).
  apply Hpool. discriminate.
Defined.

Lemma malformed_accounts_file_gives_empty_sweep_sample :
  read_json malformed_accounts_world (accounts_path Bot1) = MalformedJson /\
  exists st',
    run_process malformed_accounts_world Bot1 true [] = (Ok tt, st') /\
    accounts (self st') = Some [] /\
    trace st' = [EvPrint (MsgAccountsMalformed JSONDecodeError);
                 EvPrint MsgProxyFileMissing;
                 EvLog WARNING MsgNoAccounts].
Proof.
  split; [reflexivity|].
  destruct (malformed_accounts_file_gives_empty_sweep malformed_accounts_world Bot1
              [("log_level", JStr "INFO");
               ("game_settings",
                JObj [("min_score", JInt 10); ("max_score", JInt 20);
                      ("games_per_session", JInt 3); ("game_delay", JInt 1)])]
              INFO eq_refl eq_refl eq_refl eq_refl)
    as (_ & (st' & Hrun & Hacc & Htrace) & _).
  exists st'. split; [exact Hrun|]. split; [exact Hacc|exact Htrace].
Defined.

Lemma one_incomplete_account_discards_all_sample :
  existsb (fun a => is_enabled a && lacks_credentials a) incomplete_accounts = true /\
  exists key,
    (key = "name" \/ key = "session_token") /\
    load_accounts incomplete_accounts_world Bot1 (initial_state "config/config.json")
    = (Ok [],
       mk_state (new_self "config/config.json") 0
         ([] ++ [EvPrint (MsgAccountsMalformed (KeyError key))])).
Proof.
  split; [reflexivity|].
  exact (one_incomplete_account_discards_all incomplete_accounts_world Bot1
           (initial_state "config/config.json")
           [("accounts", JArr incomplete_accounts)] incomplete_accounts
           eq_refl eq_refl eq_refl eq_refl).
Defined.

(** The run itself: the valid account before the incomplete one is lost. *)
Example incomplete_accounts_run :
  load_accounts incomplete_accounts_world Bot1 (initial_state "config/config.json")
  = (Ok [],
     mk_state (new_self "config/config.json") 0
       [EvPrint (MsgAccountsMalformed (KeyError "session_token"))]).
Proof. reflexivity. Qed.

(** * Further properties *)

(** ** [get_random_proxy] *)

(** X1. [get_random_proxy] never fails on an object whose proxy list is
    set.  With an empty list it returns [None] at once, without drawing a
    random number; with a list that is not empty it draws once and returns
    one of its proxies. *)
Theorem get_random_proxy_from_pool (w : World) (st : State) (pool : list string) :
  proxies (self st) = Some pool ->
  (pool = [] -> get_random_proxy w st = (Ok None, st)) /\
  (pool <> [] ->
   exists p,
     In p pool /\
     get_random_proxy w st
     = (Ok (Some p), mk_state (self st) (S (tick st)) (trace st))).
Proof.
  intros Hp. unfold get_random_proxy. split.
  - intros ->. erewrite bind_ok; [|unfold getattr; rewrite Hp; reflexivity].
    reflexivity.
  - intros Hne.
    destruct (random_choice_in w pool st Hne) as (p & Hin & Hrun).
    exists p. split; [exact Hin|].
    erewrite bind_ok; [|unfold getattr; rewrite Hp; reflexivity].
    destruct pool as [|x l]; [congruence|].
    erewrite bind_ok; [|exact Hrun]. reflexivity.
Qed.

Lemma get_random_proxy_from_pool_sample :
  let st := constructed_in proxy_file_world Bot1 in
  proxies (self st) = Some ["http://10.0.0.1:8080"; "http://10.0.0.2:8080"] /\
  exists p,
    In p ["http://10.0.0.1:8080"; "http://10.0.0.2:8080"] /\
    get_random_proxy proxy_file_world st
    = (Ok (Some p), mk_state (self st) (S (tick st)) (trace st)).
Proof.
  cbv zeta. split; [reflexivity|].
  apply (get_random_proxy_from_pool proxy_file_world
           (constructed_in proxy_file_world Bot1)
           ["http://10.0.0.1:8080"; "http://10.0.0.2:8080"] eq_refl).
  discriminate.
Defined.

(** ** [load_proxies] *)

Lemma drop_while_head {A} (p : A -> bool) l :
  match drop_while p l with
  | [] => True
  | c :: _ => p c = false
  end.
Proof.
  induction l as [|c l IH]; simpl; [exact I|].
  destruct (p c) eqn:E; [exact IH|exact E].
Qed.

Lemma drop_while_fixed {A} (p : A -> bool) l :
  match l with [] => True | c :: _ => p c = false end ->
  drop_while p l = l.
Proof.
  destruct l as [|c l]; simpl; [reflexivity|]. now intros ->.
Qed.

Lemma drop_while_suffix {A} (p : A -> bool) l : exists pre, l = pre ++ drop_while p l.
Proof.
  induction l as [|c l [pre IH]]; simpl; [exists []; reflexivity|].
  destruct (p c).
  - exists (c :: pre). simpl. now rewrite <- IH.
  - exists []. reflexivity.
Qed.

Lemma strip_points_fixed {A} (p : A -> bool) l :
  let b := drop_while p (rev (drop_while p l)) in
  drop_while p b = b /\ drop_while p (rev b) = rev b.
Proof.
  intros b. split.
  - apply drop_while_fixed. apply drop_while_head.
  - apply drop_while_fixed.
    destruct (drop_while_suffix p (rev (drop_while p l))) as [pre Hpre].
    fold b in Hpre.
    assert (Ha : drop_while p l = rev b ++ rev pre).
    { rewrite <- (rev_involutive (drop_while p l)), Hpre, rev_app_distr.
      reflexivity. }
    pose proof (drop_while_head p l) as Hh. rewrite Ha in Hh.
    destruct (rev b) as [|c t]; [exact I|exact Hh].
Qed.

(** [code_points] cuts well, and a well-cut list of characters is what
    [code_points] makes of its bytes. *)
Lemma code_points_well_cut l : well_cut (code_points l).
Proof.
  induction l as [|c l [IH1 IH2]]; [split; constructor|].
  cbn [code_points].
  destruct (code_points l) as [|[|d ds] more].
  - split; repeat constructor.
  - inversion IH1; contradiction.
  - inversion IH1 as [|x y Hd Hmore]; subst.
    destruct (is_continuation d) eqn:E.
    + split; [constructor; [cbn; now rewrite E|exact Hmore]|exact IH2].
    + split; [repeat constructor; assumption|].
      cbn [tl]. constructor; [exact E|exact IH2].
Qed.

Lemma well_cut_app points1 points2 :
  well_cut (points1 ++ points2) -> well_cut points1 /\ well_cut points2.
Proof.
  intros [H1 H2]. apply Forall_app in H1 as [Ha Hb].
  destruct points1 as [|x points1].
  - split; [split; constructor|split; assumption].
  - cbn [app tl] in H2. apply Forall_app in H2 as [Hc Hd].
    split; [split; assumption|]. split; [assumption|].
    destruct points2; [constructor|]. now inversion Hd.
Qed.

Lemma code_points_cons c more points :
  forallb is_continuation more = true ->
  well_cut points ->
  Forall (fun point => match point with
                       | [] => False
                       | c :: _ => is_continuation c = false
                       end) points ->
  code_points (List.concat points) = points ->
  code_points (c :: more ++ List.concat points) = (c :: more) :: points.
Proof.
  intros Hmore [Hcut _] Hstart Hpoints.
  revert c. induction more as [|c' more IH]; intros c.
  - cbn [app code_points]. rewrite Hpoints.
    destruct points as [|[|d ds] rest]; [reflexivity| |].
    + inversion Hcut; contradiction.
    + inversion Hstart as [|x y Hd _]; subst. now rewrite Hd.
  - cbn [forallb] in Hmore. apply andb_true_iff in Hmore as [Hc' Hmore].
    change (code_points (c :: (c' :: more) ++ List.concat points))
      with (match code_points (c' :: more ++ List.concat points) with
            | (d :: ds) :: rest =>
                if is_continuation d then (c :: d :: ds) :: rest
                else [c] :: (d :: ds) :: rest
            | others => [c] :: others
            end).
    rewrite (IH Hmore c'). now rewrite Hc'.
Qed.

Lemma code_points_concat points :
  well_cut points -> code_points (List.concat points) = points.
Proof.
  induction points as [|point points IH]; [reflexivity|].
  intros [H1 H2]. cbn [tl] in H2.
  inversion H1 as [|x y Hpoint Hrest]; subst.
  destruct point as [|c more]; [contradiction|].
  assert (Hcut : well_cut points).
  { split; [exact Hrest|]. destruct points; [constructor|]. now inversion H2. }
  cbn [List.concat]. change ((c :: more) ++ List.concat points)
    with (c :: more ++ List.concat points).
  apply code_points_cons; auto.
Qed.

(** What [strip] returns has nothing left to strip. *)
Lemma strip_trimmed s : trimmed (strip s).
Proof.
  unfold trimmed, strip. rewrite chars_text.
  set (points := code_points (chars s)).
  destruct (strip_points_fixed is_space points) as [H1 H2].
  set (b := drop_while is_space (rev (drop_while is_space points))) in *.
  assert (Hcut : well_cut (rev b)).
  { destruct (drop_while_suffix is_space points) as [pre Hpre].
    destruct (drop_while_suffix is_space (rev (drop_while is_space points)))
      as [post Hpost].
    fold b in Hpost.
    assert (Hall : points = pre ++ rev b ++ rev post).
    { rewrite Hpre at 1. f_equal.
      rewrite <- (rev_involutive (drop_while is_space points)), Hpost.
      apply rev_app_distr. }
    pose proof (code_points_well_cut (chars s)) as Hw. fold points in Hw.
    rewrite Hall in Hw.
    apply well_cut_app in Hw as [_ Hw]. now apply well_cut_app in Hw as [Hw _]. }
  rewrite (code_points_concat _ Hcut), H2, rev_involutive, H1. reflexivity.
Qed.

(** The loop of [load_proxies] appends, in their order, the stripped lines
    it keeps. *)
Lemma load_proxies_loop_filter lines :
  forall proxies,
    load_proxies_loop lines proxies
    = proxies ++ filter keep_proxy_line (map strip lines).
Proof.
  induction lines as [|line lines IH]; intros proxies.
  - simpl. now rewrite app_nil_r.
  - cbn [load_proxies_loop map filter]. fold (keep_proxy_line (strip line)).
    destruct (keep_proxy_line (strip line)).
    + rewrite IH, <- app_assoc. reflexivity.
    + apply IH.
Qed.

(** X2. [load_proxies] with no [proxy.txt] prints its warning and returns
    the empty list; a [proxy.txt] that cannot be read or is not UTF-8 is
    not handled, and its exception leaves the function.  With a file read
    to its end, the loop prints nothing and returns the stripped lines
    that are not empty and do not start with [#], in the order of the file
    and as often as they occur; none of them has white space at either
    end. *)
Theorem load_proxies_keeps_proxy_lines (w : World) (st : State) :
  match read_text w "proxy.txt" with
  | NoTextFile =>
      load_proxies w st
      = (Ok [],
         mk_state (self st) (tick st) (trace st ++ [EvPrint MsgProxyFileMissing]))
  | UnreadableText => load_proxies w st = (Raise OSError, st)
  | UndecodableText => load_proxies w st = (Raise UnicodeDecodeError, st)
  | TextLines lines =>
      load_proxies w st
      = (Ok (filter keep_proxy_line (map strip lines)), st) /\
      Forall (fun p => trimmed p /\ p <> "" /\ startswith "#"%char p = false)
             (filter keep_proxy_line (map strip lines))
  end.
Proof.
  unfold load_proxies, try_except, bind, read_lines.
  destruct (read_text w "proxy.txt") as [| | |lines]; try reflexivity.
  split.
  - cbn [ret]. now rewrite load_proxies_loop_filter.
  - apply Forall_forall. intros p Hp.
    apply filter_In in Hp as [Hp Hk]. apply in_map_iff in Hp as (line & <- & _).
    split; [apply strip_trimmed|].
    unfold keep_proxy_line in Hk.
    apply andb_true_iff in Hk as [Hk1 Hk2].
    apply negb_true_iff in Hk1, Hk2. apply String.eqb_neq in Hk1. auto.
Qed.

(** White space that is not ASCII is stripped too: a line that ends with
    a no-break space (U+00A0), and a line that is an ideographic space
    (U+3000) only. *)
Example strip_unicode_space :
  strip (String "a" (String "194" (String "160" (String "010" EmptyString))))
  = "a" /\
  strip (String "227" (String "128" (String "128" (String "010" EmptyString))))
  = "".
Proof. split; reflexivity. Qed.

Example load_proxies_sample :
  fst (load_proxies proxy_file_world (initial_state "config/config.json"))
  = Ok ["http://10.0.0.1:8080"; "http://10.0.0.2:8080"].
Proof. reflexivity. Qed.

(** ** [load_accounts] *)

(** The loop over a run of account objects none of which is enabled and
    incomplete: the enabled ones are appended, in order. *)
Lemma load_accounts_loop_app pre :
  forallb is_object pre = true ->
  existsb (fun a => is_enabled a && lacks_credentials a) pre = false ->
  forall rest accounts st,
    load_accounts_loop (pre ++ rest) accounts st
    = load_accounts_loop rest
        (accounts ++ map account_of (filter is_enabled pre)) st.
Proof.
  induction pre as [|a pre IH]; intros Hobj Hbad rest accounts st.
  - simpl. now rewrite app_nil_r.
  - simpl in Hobj, Hbad.
    apply andb_true_iff in Hobj as [Ha Hpre].
    apply orb_false_iff in Hbad as [Hbad_a Hbad].
    destruct a as [| | | | | |fields]; try discriminate.
    cbn [app load_accounts_loop]. unfold bind at 1. cbn [py_get ret].
    cbn [filter]. unfold is_enabled at 1. unfold is_enabled, lacks_credentials in Hbad_a.
    destruct (truthy (match dict_lookup "enabled" fields with
                      | Some v => v
                      | None => JBool true
                      end)) eqn:Hen.
    + simpl in Hbad_a.
      destruct (dict_lookup "name" fields) as [name|] eqn:Hname; [|discriminate].
      destruct (dict_lookup "session_token" fields) as [token|] eqn:Htoken; [|discriminate].
      unfold bind at 1. cbn [py_subscript]. rewrite Hname. cbn [ret].
      unfold bind at 1. cbn [py_subscript]. rewrite Htoken. cbn [ret].
      unfold bind at 1. cbn [py_get ret]. unfold bind at 1. cbn [py_get ret].
      rewrite IH by assumption.
      cbn [map account_of]. rewrite Hname, Htoken, <- app_assoc. reflexivity.
    + apply IH; assumption.
Qed.

(** X3. [load_accounts] on a well-formed accounts file (an object whose
    ['accounts'], when present, is a list of objects, each enabled one with
    its ['name'] and ['session_token']) prints nothing and returns, in the
    order of the file, the accounts that are enabled (['enabled'] absent or
    true), with [''] for a missing ['cookies'] or ['description']; the
    disabled ones are left out. *)
Theorem load_accounts_keeps_enabled
    (w : World) (src : source_file) (st : State)
    (fields : list (string * json)) (items : list json) :
  read_json w (accounts_path src) = ParsedJson (JObj fields) ->
  listed_accounts fields = JArr items ->
  forallb is_object items = true ->
  existsb (fun a => is_enabled a && lacks_credentials a) items = false ->
  load_accounts w src st
  = (Ok (map account_of (filter is_enabled items)), st).
Proof.
  intros Hfile Hlist Hobj Hok. unfold load_accounts.
  erewrite try_ok; [reflexivity|].
  erewrite bind_ok; [|unfold load_json; rewrite Hfile; reflexivity].
  erewrite bind_ok; [|reflexivity].
  fold (listed_accounts fields). rewrite Hlist.
  erewrite bind_ok; [|reflexivity].
  rewrite <- (app_nil_r items) at 1.
  rewrite load_accounts_loop_app by assumption. reflexivity.
Qed.

Lemma load_accounts_keeps_enabled_sample :
  existsb (fun a => is_enabled a && lacks_credentials a) mixed_accounts = false /\
  load_accounts mixed_accounts_world BotBot1 (initial_state "config/config.json")
  = (Ok [mk_account (JStr "alice") (JStr "token-a") (JStr "") (JStr "");
         mk_account (JStr "carol") (JStr "token-c") (JStr "k=v") (JStr "")],
     initial_state "config/config.json").
Proof.
  split; [reflexivity|].
  exact (load_accounts_keeps_enabled mixed_accounts_world BotBot1
           (initial_state "config/config.json")
           [("accounts", JArr mixed_accounts)] mixed_accounts
           eq_refl eq_refl eq_refl eq_refl).
Defined.



Example bare_list_accounts_outcome :
  fst (load_accounts bare_list_accounts_world Bot1 (initial_state "config/config.json"))
  = Raise AttributeError.
Proof. reflexivity. Qed.

(** X5. Inside a well-formed object, an ['accounts'] value that cannot be
    iterated (null, a boolean, a number) makes [load_accounts] raise
    [TypeError], and an item that is not an object makes it raise
    [AttributeError] when the loop reaches it (no enabled account before it
    being incomplete): neither is caught, nothing is printed, and the
    accounts read before are lost with the exception. *)
Theorem load_accounts_shape_errors
    (w : World) (src : source_file) (st : State)
    (fields : list (string * json)) :
  read_json w (accounts_path src) = ParsedJson (JObj fields) ->
  (match listed_accounts fields with
   | JNull | JBool _ | JInt _ | JFloat _ =>
       load_accounts w src st = (Raise TypeError, st)
   | _ => True
   end) /\
  (forall pre item post,
     listed_accounts fields = JArr (pre ++ item :: post) ->
     forallb is_object pre = true ->
     existsb (fun a => is_enabled a && lacks_credentials a) pre = false ->
     is_object item = false ->
     load_accounts w src st = (Raise AttributeError, st)).
Proof.
  intros Hfile. split.
  - unfold load_accounts, try_except.
    erewrite bind_ok; [|unfold load_json; rewrite Hfile; reflexivity].
    erewrite bind_ok; [|reflexivity].
    fold (listed_accounts fields).
    destruct (listed_accounts fields); try exact I; reflexivity.
  - intros pre item post Hlist Hobj Hok Hitem.
    unfold load_accounts, try_except.
    erewrite bind_ok; [|unfold load_json; rewrite Hfile; reflexivity].
    erewrite bind_ok; [|reflexivity].
    fold (listed_accounts fields). rewrite Hlist.
    erewrite bind_ok; [|reflexivity].
    rewrite load_accounts_loop_app by assumption.
    destruct item; try discriminate; reflexivity.
Qed.

Lemma load_accounts_shape_errors_sample :
  read_json broken_item_world (accounts_path Bot1)
  = ParsedJson (JObj [("accounts", JArr broken_item_accounts)]) /\
  load_accounts broken_item_world Bot1 (initial_state "config/config.json")
  = (Raise AttributeError, initial_state "config/config.json").
Proof.
  split; [reflexivity|].
  apply (proj2 (load_accounts_shape_errors broken_item_world Bot1
                  (initial_state "config/config.json")
                  [("accounts", JArr broken_item_accounts)] eq_refl)
           [JObj [("name", JStr "alice"); ("session_token", JStr "token-a")]]
           (JStr "bob")
           [JObj [("name", JStr "carol"); ("session_token", JStr "token-c")]]);
    reflexivity.
Defined.

Example bare_list_accounts_run :
  load_accounts bare_list_accounts_world Bot1 (initial_state "config/config.json")
  = (Raise AttributeError, initial_state "config/config.json").
Proof. reflexivity. Qed.

(** ** [__init__] *)

Lemma only_prints_refl st : only_prints st st.
Proof.
  repeat split. exists []. now rewrite app_nil_r.
Qed.

Lemma load_accounts_loop_state items :
  forall accounts st, snd (load_accounts_loop items accounts st) = st.
Proof.
  induction items as [|a items IH]; intros accounts st; [reflexivity|].
  cbn [load_accounts_loop]. unfold bind at 1.
  destruct a as [| | | | | |fields]; try reflexivity.
  cbn [py_get ret].
  destruct (truthy _); [|apply IH].
  unfold bind at 1. cbn [py_subscript].
  destruct (dict_lookup "name" fields); [|reflexivity]. cbn [ret].
  unfold bind at 1. cbn [py_subscript].
  destruct (dict_lookup "session_token" fields); [|reflexivity]. cbn [ret].
  unfold bind at 1. cbn [py_get ret]. unfold bind at 1. cbn [py_get ret].
  apply IH.
Qed.

Lemma load_accounts_only_prints w src st :
  only_prints st (snd (load_accounts w src st)).
Proof.
  unfold load_accounts, try_except.
  set (body := accounts_data <- load_json w (accounts_path src);; _).
  assert (Hbody : snd (body st) = st).
  { unfold body, bind, load_json.
    destruct (read_json w (accounts_path src)) as [| | | | |j]; try reflexivity.
    cbn [ret]. destruct j; try reflexivity. cbn [py_get ret].
    destruct (match dict_lookup "accounts" fields with
              | Some v => v
              | None => JArr []
              end); try reflexivity; cbn [py_iter ret]; apply load_accounts_loop_state. }
  destruct (body st) as [[accs|e] s1]; simpl in Hbody; subst s1.
  - apply only_prints_refl.
  - destruct e; simpl; try apply only_prints_refl;
      (repeat split; eexists; split; [reflexivity|reflexivity]).
Qed.

Lemma load_proxies_only_prints w st :
  only_prints st (snd (load_proxies w st)).
Proof.
  unfold load_proxies, try_except, bind, read_lines.
  destruct (read_text w "proxy.txt"); simpl; try apply only_prints_refl.
  repeat split. eexists. split; reflexivity.
Qed.

Lemma load_config_ok w st cfg st' :
  load_config w st = (Ok cfg, st') -> st' = st.
Proof.
  unfold load_config, try_except, bind, self_config_path, load_json.
  cbn [fst snd].
  destruct (read_json w (config_path (self st))); simpl; try discriminate.
  - unfold logger_error, logger_call, bind, getattr, sys_exit, raise.
    destruct (logger (self st)); simpl; discriminate.
  - unfold logger_error, logger_call, bind, getattr, sys_exit, raise.
    destruct (logger (self st)); simpl; discriminate.
  - intros H. now injection H as _ <-.
Qed.

Lemma setup_logging_ok st st' :
  setup_logging st = (Ok tt, st') ->
  exists cfg lvl,
    config (self st) = Some (JObj cfg) /\
    config_log_level cfg = Some lvl /\
    st' = mk_state (set_logger lvl (self st)) (tick st) (trace st).
Proof.
  unfold setup_logging, bind, getattr, config_log_level.
  destruct (config (self st)) as [[| | | | | |cfg]|] eqn:Hc; try discriminate.
  cbn [py_get ret].
  destruct (match dict_lookup "log_level" cfg with
            | Some v => v
            | None => JStr "INFO"
            end) as [| | | |name| |] eqn:Hn; try discriminate.
  destruct (logging_level name) as [lvl|] eqn:Hl; [|discriminate].
  intros H. injection H as <-. exists cfg, lvl.
  rewrite Hn, Hl. auto.
Qed.

Lemma init_outcome w src st st' :
  init w src st = (Ok tt, st') ->
  constructed (self st') = true /\
  config_path (self st') = config_path (self st) /\
  full_user_agents (self st') = full_user_agents (self st) /\
  tick st' = tick st /\
  exists evs, trace st' = trace st ++ evs /\ effects evs = [].
Proof.
  unfold init. unfold bind at 1.
  destruct (load_config w st) as [[cfg|e] s1] eqn:E1; [|discriminate].
  apply load_config_ok in E1. subst s1.
  unfold bind at 1. cbn [setattr].
  unfold bind at 1.
  pose proof (load_accounts_only_prints w src
                (mk_state (set_config cfg (self st)) (tick st) (trace st)))
    as (Hs2 & Ht2 & evs2 & Htr2 & He2).
  destruct (load_accounts w src _) as [[accs|e] s2]; [|discriminate].
  cbn [snd self tick trace] in Hs2, Ht2, Htr2.
  unfold bind at 1. cbn [setattr].
  unfold bind at 1.
  pose proof (load_proxies_only_prints w
                (mk_state (set_accounts accs (self s2)) (tick s2) (trace s2)))
    as (Hs3 & Ht3 & evs3 & Htr3 & He3).
  destruct (load_proxies w _) as [[prox|e] s3]; [|discriminate].
  cbn [snd self tick trace] in Hs3, Ht3, Htr3.
  unfold bind at 1. cbn [setattr].
  unfold bind at 1. cbn [setattr].
  intros H. apply setup_logging_ok in H as (c & lvl & Hc & _ & ->).
  cbn [self tick trace] in *.
  rewrite Hs3, Hs2 in *. cbn in Hc. injection Hc as ->.
  repeat split; try congruence.
  exists (evs2 ++ evs3). rewrite Htr3, Htr2, app_assoc. split; [reflexivity|].
  now rewrite effects_app, He2, He3.
Qed.

(** X6. Whenever [__init__] completes, the object has every attribute the
    methods read ([config], a [dict]; [accounts]; [proxies]; [user_agent];
    [logger]), and construction made no post and no sleep: it only read
    files and printed. *)
Theorem init_gives_constructed_object
    (w : World) (src : source_file) (st st' : State) :
  init w src st = (Ok tt, st') ->
  constructed (self st') = true /\
  effects (new_events st st') = [].
Proof.
  intros H. apply init_outcome in H as (Hc & _ & _ & _ & evs & Htr & He).
  split; [exact Hc|]. now rewrite (new_events_app _ _ _ Htr).
Qed.

Lemma init_gives_constructed_object_sample :
  init friendly_world Bot1 (initial_state "config/config.json")
  = (Ok tt, constructed_in friendly_world Bot1) /\
  constructed (self (constructed_in friendly_world Bot1)) = true /\
  effects (new_events (initial_state "config/config.json")
             (constructed_in friendly_world Bot1)) = [].
Proof.
  split; [reflexivity|].
  apply (init_gives_constructed_object friendly_world Bot1
           (initial_state "config/config.json")
           (constructed_in friendly_world Bot1)).
  reflexivity.
Defined.

(** ** [record_game_score] *)

Lemma post_outcome_record who score r evs :
  post_outcome RecordGameScore who (Score score) r evs ->
  exists b, r = Ok b /\
    check_replies evs = [] /\
    (b = true <-> recorded_ok evs = 1%nat) /\
    (b = false -> recorded_ok evs = 0%nat) /\
    (b = true -> record_scores evs = [score]) /\
    (record_scores evs = [] \/ record_scores evs = [score]).
Proof.
  intros (b & -> & H). exists b. split; [reflexivity|].
  rewrite <- check_replies_effects, <- recorded_ok_effects, <- record_scores_effects.
  destruct H as [(-> & ua & px & ->)|(-> & [->|(ua & px & reply & Hr & ->)])].
  - unfold recorded_ok. simpl. repeat split; auto; try discriminate.
  - unfold recorded_ok. simpl. repeat split; auto; try discriminate.
  - unfold recorded_ok. simpl. rewrite (not_status_200 _ Hr). simpl.
    repeat split; auto; try discriminate.
Qed.

(** X7. On a constructed object [record_game_score] never raises: it
    returns a boolean, [True] exactly when the record endpoint answered 200.
    It makes no check call and at most one record call, whose body is the
    score it was given; a failure before the post (user agent, proxy)
    gives [False] with no call at all. *)
Theorem record_game_score_contract
    (w : World) (src : source_file) (st : State) (account : account) (score : Z) :
  constructed (self st) = true ->
  let run := record_game_score w src account score st in
  let evs := new_events st (snd run) in
  exists b, fst run = Ok b /\
    check_replies evs = [] /\
    (b = true <-> recorded_ok evs = 1%nat) /\
    (b = false -> recorded_ok evs = 0%nat) /\
    (b = true -> record_scores evs = [score]) /\
    (record_scores evs = [] \/ record_scores evs = [score]).
Proof.
  intros Hc run evs.
  destruct (constructed_bot _ Hc) as (cfg & accs & prox & Hst).
  destruct (spec_run _ _ _ _ _ _
              (spec_record_game_score w src cfg accs prox account score) Hst) as [H _].
  exact (post_outcome_record _ _ _ _ H).
Qed.

Lemma record_game_score_contract_sample :
  let st := constructed_in hostile_world Bot1 in
  let run := record_game_score hostile_world Bot1 sample_account 15 st in
  let evs := new_events st (snd run) in
  constructed (self st) = true /\
  fst run = Ok false /\
  record_scores evs = [15] /\
  recorded_ok evs = 0%nat.
Proof.
  cbv zeta. split; [reflexivity|]. split; [reflexivity|]. split; [reflexivity|].
  destruct (record_game_score_contract hostile_world Bot1
              (constructed_in hostile_world Bot1) sample_account 15 eq_refl)
    as (b & Hb & _ & _ & Hfalse & _).
  apply Hfalse.
  assert (E : fst (record_game_score hostile_world Bot1 sample_account 15
                     (constructed_in hostile_world Bot1)) = Ok false) by reflexivity.
  rewrite E in Hb. now injection Hb.
Defined.

(** ** [play_game] with no round to play *)

(** X8. When [games_per_session] is an integer that is zero or negative,
    [play_game] plays no round: it logs the start and a count of 0, makes no
    post and no sleep, and returns [False].  When it is not an integer (a
    string, a float, null), [range] raises [TypeError], which [play_game]
    logs, and the result is [False] as well. *)
Theorem play_game_without_rounds
    (w : World) (src : source_file) (st : State) (account : account) (games : json) :
  constructed (self st) = true ->
  fst (game_setting "games_per_session" (default_games_per_session src) st)
  = Ok games ->
  (forall n, py_index games = Some n -> n <= 0 ->
     play_game w src account st
     = (Ok false,
        mk_state (self st) (tick st)
          (trace st ++
           [EvLog INFO (MsgSessionStart (acc_name account) games);
            EvLog INFO (MsgSessionDone (acc_name account) games 0)]))) /\
  (py_index games = None ->
     play_game w src account st
     = (Ok false,
        mk_state (self st) (tick st)
          (trace st ++
           [EvLog INFO (MsgSessionStart (acc_name account) games);
            EvLog ERROR (MsgSessionError (acc_name account) TypeError)]))).
Proof.
  intros Hc Hgames.
  destruct (constructed_bot _ Hc) as (cfg & accs & prox & Hst).
  assert (Hlog : logger (self st) <> None) by apply Hst.
  assert (G : game_setting "games_per_session" (default_games_per_session src) st
              = (Ok games, st)).
  { rewrite (game_setting_run _ _ _ _ _ _ Hst) in *. simpl in Hgames. now rewrite Hgames. }
  pose proof (logger_call_run INFO (MsgSessionStart (acc_name account) games) st Hlog)
    as E0.
  split.
  - intros n Hn Hle. unfold play_game.
    erewrite try_ok; [reflexivity|].
    rewrite (bind_ok _ _ _ _ _ G). unfold logger_info.
    rewrite (bind_ok _ _ _ _ _ E0). rewrite Hn.
    assert (R : range_from_1 n = []).
    { unfold range_from_1. replace (Z.to_nat n) with 0%nat by lia. reflexivity. }
    rewrite R. cbn [play_game_rounds].
    erewrite bind_ok; [|reflexivity].
    erewrite bind_ok; [|apply logger_call_run; exact Hlog].
    unfold ret. cbn [self tick trace]. rewrite <- app_assoc. reflexivity.
  - intros Hn. unfold play_game.
    erewrite try_handled.
    2:{ rewrite (bind_ok _ _ _ _ _ G). unfold logger_info.
        rewrite (bind_ok _ _ _ _ _ E0). rewrite Hn. reflexivity. }
    2:{ reflexivity. }
    unfold logger_error.
    erewrite bind_ok; [|apply logger_call_run; exact Hlog].
    unfold ret. cbn [self tick trace]. rewrite <- app_assoc. reflexivity.
Qed.

Lemma play_game_without_rounds_sample :
  let st := constructed_in no_round_world Bot1 in
  constructed (self st) = true /\
  play_game no_round_world Bot1 sample_account st
  = (Ok false,
     mk_state (self st) (tick st)
       (trace st ++
        [EvLog INFO (MsgSessionStart (JStr "alice") (JInt 0));
         EvLog INFO (MsgSessionDone (JStr "alice") (JInt 0) 0)])).
Proof.
  cbv zeta. split; [reflexivity|].
  apply (proj1 (play_game_without_rounds no_round_world Bot1
                  (constructed_in no_round_world Bot1) sample_account (JInt 0)
                  eq_refl eq_refl) 0 eq_refl).
  lia.
Defined.

(** ** The calls and pauses of a session *)

Section Bounds.

Variable w : World.
Variable src : source_file.
Variable cfg : list (string * json).
Variable accs : list account.
Variable prox : list string.

Local Abbreviation meets := (spec cfg accs prox).

Lemma round_effects_counts who R b effs :
  round_effects who R b effs ->
  (List.length (check_replies effs) <= 1)%nat /\
  (List.length (record_calls effs) <= List.length (check_replies effs))%nat /\
  sleeps BetweenRounds effs = [].
Proof.
  intros H. destruct H; simpl; repeat split; lia.
Qed.

Lemma spec_round_pause account (i n : Z) :
  meets (if i <? n then
           delay <- game_setting "game_delay" (default_game_delay src);;
           logger_info (MsgWaiting (acc_name account) delay);;
           py_sleep w BetweenRounds delay
         else ret tt)
        (fun r evs =>
           check_replies evs = [] /\ record_calls evs = [] /\
           (sleeps BetweenRounds evs = [] \/
            (i <? n) = true /\
            exists j d,
              setting cfg "game_delay" (default_game_delay src) = Ok j /\
              py_seconds j = Some d /\
              sleeps BetweenRounds evs = [d])).
Proof.
  destruct (i <? n) eqn:Ein; [|apply spec_ret; auto].
  eapply spec_bind; [apply spec_game_setting| |].
  - intros delay evs1 [Hd ->]. symmetry in Hd.
    eapply spec_bind; [apply spec_logger_call| |];
      [|intros e evs [H _]; discriminate].
    intros [] evs2 [_ ->].
    eapply spec_weaken; [apply spec_py_sleep|].
    intros r evs [(seconds & Hs & -> & ->)|(e & -> & _ & -> & _)]; simpl.
    + repeat split; auto. right. split; [reflexivity|].
      exists delay, seconds. auto.
    + auto.
  - intros e evs1 [_ ->]. auto.
Qed.

Lemma spec_rounds_bounded account n rounds :
  forall success_count,
    meets (play_game_rounds w src account n rounds success_count)
          (fun _ evs => rounds_bounded src cfg n rounds evs).
Proof.
  induction rounds as [|i rest IH]; intros sc; cbn [play_game_rounds].
  - apply spec_ret. repeat split; simpl; auto.
  - eapply spec_bind; [apply spec_play_single_game| |].
    2:{ intros e evs (b & H & _). discriminate. }
    intros result evs1 (b & Hb & Heff). injection Hb as ->.
    apply round_effects_counts in Heff as (Hc1 & Hr1 & Hs1).
    rewrite check_replies_effects in Hc1, Hr1.
    rewrite record_calls_effects in Hr1. rewrite sleeps_effects in Hs1.
    destruct b; simpl negb; cbv iota.
    + eapply spec_bind; [apply spec_round_pause| |].
      * intros [] evs2 (Hc2 & Hr2 & Hs2).
        eapply spec_weaken; [apply IH|].
        intros r evs3 (Hc3 & Hr3 & Hs3 & Hd3).
        unfold rounds_bounded.
        rewrite !check_replies_app, !record_calls_app, !sleeps_app, !length_app.
        rewrite Hc2, Hr2, Hs1. cbn [filter List.length app].
        destruct Hs2 as [->|(Ein & j & d & Hj & Hd & ->)].
        -- repeat split; simpl; try lia; try assumption.
           destruct (i <? n); simpl; lia.
        -- rewrite Ein. repeat split; simpl; try lia.
           constructor; [eauto|assumption].
      * intros e evs2 (Hc2 & Hr2 & Hs2).
        unfold rounds_bounded.
        rewrite !check_replies_app, !record_calls_app, !sleeps_app, !length_app.
        rewrite Hc2, Hr2, Hs1. cbn [filter List.length app].
        destruct Hs2 as [->|(Ein & j & d & Hj & Hd & ->)].
        -- repeat split; simpl; try lia; constructor.
        -- rewrite Ein. repeat split; simpl; try lia.
           constructor; [eauto|constructor].
    + eapply spec_bind; [apply spec_logger_call| |];
        [|intros e evs [H _]; discriminate].
      intros [] evs2 [_ ->]. apply spec_ret.
      unfold rounds_bounded.
      rewrite !check_replies_app, !record_calls_app, !sleeps_app, !length_app.
      rewrite Hs1. simpl. repeat split; try lia. constructor.
Qed.

Lemma range_from_1_length n : List.length (range_from_1 n) = Z.to_nat n.
Proof. unfold range_from_1. now rewrite length_map, length_seq. Qed.

(** Of the rounds 1 .. n, all but the last are numbered below [n]. *)
Lemma range_from_1_pauses n :
  (List.length (filter (fun i => (i <? n)%Z) (range_from_1 n)) <= Z.to_nat n - 1)%nat.
Proof.
  unfold range_from_1.
  destruct (Z.to_nat n) as [|m] eqn:E; [simpl; lia|].
  rewrite seq_S, map_app, filter_app, length_app. cbn [map filter].
  assert (Hn : (Z.of_nat (1 + m) <? n) = false) by (apply Z.ltb_ge; lia).
  rewrite Hn. cbn [List.length].
  pose proof (filter_length_le (fun i => i <? n) (map Z.of_nat (seq 1 m))) as H.
  rewrite length_map, length_seq in H. lia.
Qed.

Lemma rounds_bounded_nil n rounds : rounds_bounded src cfg n rounds [].
Proof.
  repeat split; simpl; try lia. constructor.
Qed.

Lemma rounds_bounded_logs n rounds before evs after :
  effects before = [] -> effects after = [] ->
  rounds_bounded src cfg n rounds evs ->
  rounds_bounded src cfg n rounds (before ++ evs ++ after).
Proof.
  intros H1 H2 (Hc & Hr & Hs & Hd). unfold rounds_bounded.
  rewrite <- check_replies_effects, <- record_calls_effects, <- sleeps_effects.
  rewrite !effects_app, H1, H2, app_nil_r. cbn [app].
  rewrite check_replies_effects, record_calls_effects, sleeps_effects.
  auto.
Qed.

Lemma spec_play_game_bounded account :
  meets (play_game w src account)
        (fun _ evs =>
           rounds_bounded src cfg (session_games src cfg)
             (range_from_1 (session_games src cfg)) evs).
Proof.
  unfold play_game.
  eapply spec_try with
    (Q1 := fun _ evs =>
             rounds_bounded src cfg (session_games src cfg)
               (range_from_1 (session_games src cfg)) evs).
  - eapply spec_bind; [apply spec_game_setting| |].
    2:{ intros e evs [H ->]. apply rounds_bounded_nil. }
    intros games_count evs1 [Hg ->].
    eapply spec_bind; [apply spec_logger_call| |];
      [|intros e evs [H _]; discriminate].
    intros [] evs2 [_ ->].
    unfold session_games. rewrite <- Hg.
    destruct (py_index games_count) as [n|].
    2:{ apply spec_raise.
        apply (rounds_bounded_logs _ _ _ [] []); auto. apply rounds_bounded_nil. }
    eapply spec_bind; [apply spec_rounds_bounded| |].
    + intros sc evs3 Hb.
      eapply spec_bind; [apply spec_logger_call| |];
        [|intros e evs [H _]; discriminate].
      intros [] evs4 [_ ->]. apply spec_ret.
      rewrite app_nil_l, app_nil_r.
      apply rounds_bounded_logs; auto.
    + intros e evs3 Hb. rewrite app_nil_l.
      rewrite <- (app_nil_r evs3).
      apply rounds_bounded_logs; auto.
  - intros b evs H. exact H.
  - intros e evs H _. exact H.
  - intros e evs1 Hb _.
    eapply spec_bind; [apply spec_logger_call| |];
      [|intros e' evs [H' _]; discriminate].
    intros [] evs2 [_ ->]. apply spec_ret.
    rewrite app_nil_r. rewrite <- (app_nil_l (evs1 ++ _)).
    apply rounds_bounded_logs; auto.
Qed.

End Bounds.

(** X9. A session of [play_game] with [games_per_session = n] makes at most
    [n] check calls and never more record calls than check calls; it pauses
    at most [n - 1] times (never after the last round), and every pause is
    as long as the configured [game_delay]. *)
Theorem play_game_calls_bounded
    (w : World) (src : source_file) (st : State) (account : account) (n : Z) :
  constructed (self st) = true ->
  configured "games_per_session" (default_games_per_session src) st = Some n ->
  let evs := new_events st (snd (play_game w src account st)) in
  (List.length (check_replies evs) <= Z.to_nat n)%nat /\
  (List.length (record_calls evs) <= List.length (check_replies evs))%nat /\
  (List.length (sleeps BetweenRounds evs) <= Z.to_nat n - 1)%nat /\
  Forall (fun d => configured_delay src st = Some d) (sleeps BetweenRounds evs).
Proof.
  intros Hc Hn evs.
  destruct (constructed_bot _ Hc) as (cfg & accs & prox & Hst).
  destruct (configured_setting _ _ _ _ _ _ _ Hst Hn) as (j & Hj & Hjn).
  destruct (spec_run _ _ _ _ _ _ (spec_play_game_bounded w src cfg accs prox account) Hst)
    as [(Hchk & Hrec & Hsl & Hd) _].
  fold evs in Hchk, Hrec, Hsl, Hd.
  unfold session_games in *. rewrite Hj, Hjn in *.
  rewrite range_from_1_length in Hchk.
  pose proof (range_from_1_pauses n) as Hp.
  repeat split; try lia.
  eapply Forall_impl; [|exact Hd].
  intros d (j' & Hj' & Hd'). unfold configured_delay.
  rewrite (game_setting_run _ _ _ _ _ _ Hst). simpl. now rewrite Hj'.
Qed.

Lemma play_game_calls_bounded_sample :
  let st := constructed_in friendly_world Bot1 in
  let evs := new_events st (snd (play_game friendly_world Bot1 sample_account st)) in
  configured "games_per_session" (default_games_per_session Bot1) st = Some 3 /\
  (List.length (check_replies evs) <= 3)%nat /\
  (List.length (record_calls evs) <= List.length (check_replies evs))%nat /\
  (List.length (sleeps BetweenRounds evs) <= 2)%nat /\
  Forall (fun d => configured_delay Bot1 st = Some d) (sleeps BetweenRounds evs).
Proof.
  cbv zeta. split; [reflexivity|].
  exact (play_game_calls_bounded friendly_world Bot1
           (constructed_in friendly_world Bot1) sample_account 3 eq_refl eq_refl).
Defined.

(** ** Every post of a sweep *)

Section Posts.

Variable w : World.
Variable src : source_file.
Variable cfg : list (string * json).
Variable accs : list account.
Variable prox : list string.

Local Abbreviation meets := (spec cfg accs prox).
Local Abbreviation ok := (post_ok src cfg accs prox).

Lemma post_ok_no_effect evs : effects evs = [] -> Forall ok evs.
Proof.
  induction evs as [|ev evs IH]; intros H; [constructor|].
  destruct ev; simpl in H; try discriminate; constructor; simpl; auto.
Qed.

Lemma post_ok_log lvl m : Forall ok [EvLog lvl m].
Proof. repeat constructor. Qed.

Lemma spec_get_random_proxy_from :
  meets (get_random_proxy w)
        (fun r evs => evs = [] /\ exists p, r = Ok p /\ proxy_from prox p).
Proof.
  unfold get_random_proxy.
  eapply spec_bind; [apply spec_getattr_proxies| |].
  - intros pool evs1 [Hp ->]. injection Hp as Hp.
    destruct pool as [|x l].
    + apply spec_ret. split; [reflexivity|]. exists None. simpl. auto.
    + eapply spec_bind; [apply spec_random_choice| |].
      * intros a evs2 [-> Hin]. apply spec_ret. split; [reflexivity|].
        exists (Some a). simpl. rewrite <- Hp. auto.
      * intros e evs2 [_ [H _]]. discriminate.
  - intros e evs1 [H _]. discriminate.
Qed.

(** The shape shared by [check_game_code] and [record_game_score]. *)
Lemma spec_post_ok ep account body (on_ok on_bad : Z -> message) (on_error : exn -> message) :
  (forall ua proxy reply,
     proxy_from prox proxy -> ok (EvPost ep account body ua proxy reply)) ->
  meets (try_except
           (ua <- get_random_user_agent w src;;
            proxy <- get_random_proxy w;;
            status_code <- session_post w ep account body ua proxy;;
            if status_code =? 200 then
              logger_info (on_ok status_code);; ret true
            else
              logger_error (on_bad status_code);; ret false)
           is_Exception
           (fun e => logger_error (on_error e);; ret false))
        (fun _ evs => Forall ok evs).
Proof.
  intros Hok.
  eapply spec_try with (Q1 := fun _ evs => Forall ok evs).
  - eapply spec_bind; [apply silent_get_random_user_agent| |].
    2:{ intros e evs [-> _]. constructor. }
    intros ua evs1 [-> _].
    eapply spec_bind; [apply spec_get_random_proxy_from| |].
    2:{ intros e evs [-> _]. constructor. }
    intros px evs2 (-> & p & Hp & Hfrom). injection Hp as ->.
    eapply spec_bind; [apply spec_session_post| |].
    2:{ intros e evs (reply & -> & _). constructor; [|constructor].
        apply Hok. exact Hfrom. }
    intros code evs3 (reply & -> & _).
    assert (Hpost : Forall ok [EvPost ep account body ua p reply]).
    { constructor; [|constructor]. apply Hok. exact Hfrom. }
    destruct (code =? 200).
    + eapply spec_bind; [apply spec_logger_call| |];
        [|intros e evs [H _]; discriminate].
      intros [] evs4 [_ ->]. apply spec_ret.
      repeat (apply Forall_app; split); auto using post_ok_log.
    + eapply spec_bind; [apply spec_logger_call| |];
        [|intros e evs [H _]; discriminate].
      intros [] evs4 [_ ->]. apply spec_ret.
      repeat (apply Forall_app; split); auto using post_ok_log.
  - auto.
  - auto.
  - intros e evs1 H _.
    eapply spec_bind; [apply spec_logger_call| |];
      [|intros e' evs [H' _]; discriminate].
    intros [] evs2 [_ ->]. apply spec_ret.
    repeat (apply Forall_app; split); auto using post_ok_log.
Qed.

Lemma spec_check_game_code_ok account code :
  In account accs -> is_game_code code = true ->
  meets (check_game_code w src account code) (fun _ evs => Forall ok evs).
Proof.
  intros Hin Hcode.
  apply (spec_post_ok CheckGameCode account (GameCode code)
           (fun _ => MsgCodeVerified (acc_name account) code)
           (fun status => MsgCodeRejected (acc_name account) status)
           (fun e => MsgCodeCheckError (acc_name account) e)).
  intros ua proxy reply Hfrom. simpl. auto.
Qed.

Lemma spec_record_game_score_ok account score :
  In account accs -> in_score_range src cfg score ->
  meets (record_game_score w src account score) (fun _ evs => Forall ok evs).
Proof.
  intros Hin Hscore.
  apply (spec_post_ok RecordGameScore account (Score score)
           (fun _ => MsgScoreRecorded (acc_name account) score)
           (fun status => MsgScoreRejected (acc_name account) status)
           (fun e => MsgScoreError (acc_name account) e)).
  intros ua proxy reply Hfrom. simpl. auto.
Qed.

Lemma spec_play_single_game_ok account game_round :
  In account accs ->
  meets (play_single_game w src account game_round) (fun _ evs => Forall ok evs).
Proof.
  intros Hin. unfold play_single_game.
  eapply spec_try with (Q1 := fun _ evs => Forall ok evs).
  - eapply spec_bind; [apply spec_logger_call| |];
      [|intros e evs [H _]; discriminate].
    intros [] evs1 [_ ->].
    eapply spec_bind; [apply spec_get_game_code| |];
      [|intros e evs (_ & code & H & _); discriminate].
    intros game_code evs2 (He2 & code & Hc & Hf). injection Hc as ->.
    apply post_ok_no_effect in He2.
    unfold falsy_code. rewrite (is_game_code_nonempty _ Hf).
    eapply spec_bind; [apply (spec_check_game_code_ok account code Hin Hf)| |].
    2:{ intros e evs H. repeat (apply Forall_app; split); auto using post_ok_log. }
    intros checked evs3 He3.
    assert (Hsofar : Forall ok ([EvLog INFO (MsgRoundStart (acc_name account) game_round)]
                                ++ evs2 ++ evs3)).
    { repeat (apply Forall_app; split); auto using post_ok_log. }
    destruct checked; simpl negb; cbv iota.
    + eapply spec_bind; [apply spec_game_setting| |].
      2:{ intros e evs [_ ->]. rewrite !app_nil_r. exact Hsofar. }
      intros min_score evs4 [Hmin ->]. symmetry in Hmin.
      eapply spec_bind; [apply spec_game_setting| |].
      2:{ intros e evs [_ ->]. rewrite !app_nil_r. exact Hsofar. }
      intros max_score evs5 [Hmax ->]. symmetry in Hmax.
      eapply spec_bind; [apply spec_randint| |].
      2:{ intros e evs [-> _]. rewrite !app_nil_r. exact Hsofar. }
      intros score evs6 (-> & Hs).
      pose proof (randint_in_range src cfg _ _ _ Hmin Hmax Hs) as Hrange.
      eapply spec_bind; [apply spec_logger_call| |];
        [|intros e evs [H _]; discriminate].
      intros [] evs7 [_ ->].
      eapply spec_bind; [apply (spec_record_game_score_ok account score Hin Hrange)| |].
      2:{ intros e evs H. repeat (apply Forall_app; split); auto using post_ok_log. }
      intros recorded evs8 He8.
      destruct recorded.
      * eapply spec_bind; [apply spec_logger_call| |];
          [|intros e evs [H _]; discriminate].
        intros [] evs9 [_ ->]. apply spec_ret.
        repeat (apply Forall_app; split); auto using post_ok_log.
      * eapply spec_bind; [apply spec_logger_call| |];
          [|intros e evs [H _]; discriminate].
        intros [] evs9 [_ ->]. apply spec_ret.
        repeat (apply Forall_app; split); auto using post_ok_log.
    + eapply spec_bind; [apply spec_logger_call| |];
        [|intros e evs [H _]; discriminate].
      intros [] evs4 [_ ->]. apply spec_ret.
      repeat (apply Forall_app; split); auto using post_ok_log.
  - auto.
  - auto.
  - intros e evs1 H _.
    eapply spec_bind; [apply spec_logger_call| |];
      [|intros e' evs [H' _]; discriminate].
    intros [] evs2 [_ ->]. apply spec_ret.
    repeat (apply Forall_app; split); auto using post_ok_log.
Qed.

Lemma spec_round_delay_ok account (i n : Z) :
  meets (if i <? n then
           delay <- game_setting "game_delay" (default_game_delay src);;
           logger_info (MsgWaiting (acc_name account) delay);;
           py_sleep w BetweenRounds delay
         else ret tt)
        (fun _ evs => Forall ok evs).
Proof.
  eapply spec_weaken; [apply (spec_round_pause w src cfg accs prox account i n)|].
  intros r evs (Hc & Hr & _).
  induction evs as [|ev evs IH]; [constructor|].
  destruct ev as [m|lvl m|ep who body ua px reply|site d].
  - constructor; [exact I|]. apply IH; assumption.
  - constructor; [exact I|]. apply IH; assumption.
  - destruct ep; simpl in Hc, Hr; discriminate.
  - constructor; [exact I|]. apply IH; assumption.
Qed.

Lemma spec_play_game_rounds_ok account n rounds :
  In account accs ->
  forall success_count,
    meets (play_game_rounds w src account n rounds success_count)
          (fun _ evs => Forall ok evs).
Proof.
  intros Hin. induction rounds as [|i rest IH]; intros sc; cbn [play_game_rounds].
  - apply spec_ret. constructor.
  - eapply spec_bind; [apply (spec_play_single_game_ok account i Hin)| |]; [|auto].
    intros result evs1 H1.
    destruct result; simpl negb; cbv iota.
    + eapply spec_bind; [apply spec_round_delay_ok| |].
      * intros [] evs2 H2.
        eapply spec_weaken; [apply IH|].
        intros r evs3 H3. repeat (apply Forall_app; split); assumption.
      * intros e evs2 H2. apply Forall_app; split; assumption.
    + eapply spec_bind; [apply spec_logger_call| |];
        [|intros e evs [H _]; discriminate].
      intros [] evs2 [_ ->]. apply spec_ret.
      repeat (apply Forall_app; split); auto using post_ok_log.
Qed.

Lemma spec_play_game_ok account :
  In account accs ->
  meets (play_game w src account) (fun _ evs => Forall ok evs).
Proof.
  intros Hin. unfold play_game.
  eapply spec_try with (Q1 := fun _ evs => Forall ok evs).
  - eapply spec_bind; [apply spec_game_setting| |].
    2:{ intros e evs [_ ->]. constructor. }
    intros games_count evs1 [_ ->].
    eapply spec_bind; [apply spec_logger_call| |];
      [|intros e evs [H _]; discriminate].
    intros [] evs2 [_ ->].
    destruct (py_index games_count) as [n|].
    2:{ apply spec_raise. repeat (apply Forall_app; split); auto using post_ok_log. }
    eapply spec_bind; [apply (spec_play_game_rounds_ok account n _ Hin)| |].
    + intros sc evs3 H3.
      eapply spec_bind; [apply spec_logger_call| |];
        [|intros e evs [H _]; discriminate].
      intros [] evs4 [_ ->]. apply spec_ret.
      repeat (apply Forall_app; split); auto using post_ok_log.
    + intros e evs3 H3.
      repeat (apply Forall_app; split); auto using post_ok_log.
  - auto.
  - auto.
  - intros e evs1 H _.
    eapply spec_bind; [apply spec_logger_call| |];
      [|intros e' evs [H' _]; discriminate].
    intros [] evs2 [_ ->]. apply spec_ret.
    repeat (apply Forall_app; split); auto using post_ok_log.
Qed.

Lemma spec_play_accounts_loop_ok todo :
  incl todo accs ->
  forall success_count,
    meets (play_accounts_loop w src todo success_count)
          (fun _ evs => Forall ok evs).
Proof.
  induction todo as [|account rest IH]; intros Hincl sc; cbn [play_accounts_loop].
  - apply spec_ret. constructor.
  - assert (Hin : In account accs) by (apply Hincl; now left).
    assert (Hrest : incl rest accs) by (intros a Ha; apply Hincl; now right).
    eapply spec_bind; [apply (spec_play_game_ok account Hin)| |]; [|auto].
    intros played evs1 H1.
    eapply spec_bind; [apply spec_random_uniform| |].
    2:{ intros e evs (-> & _). rewrite app_nil_r. exact H1. }
    intros jitter evs2 (-> & _).
    eapply spec_bind; [apply spec_time_sleep| |].
    + intros [] evs3 [(_ & ->)|(e & H & _)]; [|discriminate].
      eapply spec_weaken; [apply (IH Hrest)|].
      intros r evs4 H4.
      repeat (apply Forall_app; split); auto. repeat constructor.
    + intros e evs3 [(H & _)|(e' & _ & _ & -> & _)]; [discriminate|].
      rewrite !app_nil_r. exact H1.
Qed.

Lemma spec_sweep_ok (todo : list account) :
  incl todo accs ->
  meets (match todo with
         | [] => logger_warning MsgNoAccounts
         | _ :: _ =>
             logger_info (MsgSweepStart (List.length todo));;
             success_count <- play_accounts_loop w src todo 0;;
             logger_info (MsgSweepDone success_count (List.length todo))
         end)
        (fun _ evs => Forall ok evs).
Proof.
  intros Hincl. destruct todo as [|a rest].
  - eapply spec_weaken; [apply spec_logger_call|].
    intros r evs [_ ->]. apply post_ok_log.
  - eapply spec_bind; [apply spec_logger_call| |];
      [|intros e evs [H _]; discriminate].
    intros [] evs2 [_ ->].
    eapply spec_bind; [apply (spec_play_accounts_loop_ok _ Hincl)| |].
    2:{ intros e evs H. repeat (apply Forall_app; split); auto using post_ok_log. }
    intros n evs3 H3.
    eapply spec_weaken; [apply spec_logger_call|].
    intros r evs [_ ->].
    repeat (apply Forall_app; split); auto using post_ok_log.
Qed.

Lemma spec_play_all_accounts_ok :
  meets (play_all_accounts w src) (fun _ evs => Forall ok evs).
Proof.
  unfold play_all_accounts.
  eapply spec_bind; [apply spec_getattr_accounts| |].
  2:{ intros e evs [H _]. discriminate. }
  intros l evs1 [Hl ->]. injection Hl as ->.
  apply spec_sweep_ok. apply incl_refl.
Qed.

End Posts.

Lemma post_ok_scores src cfg accs prox evs :
  Forall (post_ok src cfg accs prox) evs ->
  Forall (in_score_range src cfg) (record_scores evs).
Proof.
  induction 1 as [|ev evs Hev _ IH]; [constructor|].
  destruct ev as [m|lvl m|ep who body ua px reply|site d]; try exact IH.
  destruct ep, body; try exact IH.
  destruct Hev as (_ & _ & Hs). cbn. constructor; assumption.
Qed.

(** X10. In a sweep of [play_all_accounts] on a constructed object, every
    post is made for an account of the account list, goes through a proxy
    of the proxy list (directly, without proxy, when that list is empty),
    and carries either a well-formed game code to the check endpoint or a
    score to the record endpoint.  When [min_score] and [max_score] are
    configured as integers, every score posted lies between them.  (With a
    float for one of them, what [random.randint] draws depends on the
    interpreter, and nothing is said of the score.) *)
Theorem sweep_posts_are_well_formed
    (w : World) (src : source_file) (st : State)
    (cfg : list (string * json)) (accs : list account) (prox : list string) :
  constructed (self st) = true ->
  config (self st) = Some (JObj cfg) ->
  accounts (self st) = Some accs ->
  proxies (self st) = Some prox ->
  let evs := new_events st (snd (play_all_accounts w src st)) in
  Forall (post_ok src cfg accs prox) evs /\
  (forall lo hi,
     score_range src cfg = Some (lo, hi) ->
     Forall (fun s => lo <= s <= hi) (record_scores evs)).
Proof.
  intros Hc Hcfg Haccs Hprox evs.
  destruct (constructed_bot _ Hc) as (cfg' & accs' & prox' & Hst).
  pose proof Hst as (H1 & H2 & H3 & _).
  assert (cfg' = cfg) as -> by congruence.
  assert (accs' = accs) as -> by congruence.
  assert (prox' = prox) as -> by congruence.
  assert (Hok : Forall (post_ok src cfg accs prox) evs).
  { exact (proj1 (spec_run _ _ _ _ _ _
                    (spec_play_all_accounts_ok w src cfg accs prox) Hst)). }
  split; [exact Hok|].
  intros lo hi Hrange.
  eapply Forall_impl; [|exact (post_ok_scores _ _ _ _ _ Hok)].
  intros s Hs. now apply Hs.
Qed.

Lemma sweep_posts_are_well_formed_sample :
  let st := constructed_in friendly_world BotBot1 in
  let evs := new_events st (snd (play_all_accounts friendly_world BotBot1 st)) in
  proxies (self st) = Some [] /\
  Forall (post_ok BotBot1
            [("log_level", JStr "INFO");
             ("game_settings",
              JObj [("min_score", JInt 10); ("max_score", JInt 20);
                    ("games_per_session", JInt 3); ("game_delay", JInt 1)])]
            [sample_account] []) evs /\
  Forall (fun s => 10 <= s <= 20) (record_scores evs).
Proof.
  cbv zeta. split; [reflexivity|].
  destruct (sweep_posts_are_well_formed friendly_world BotBot1
              (constructed_in friendly_world BotBot1)
              [("log_level", JStr "INFO");
               ("game_settings",
                JObj [("min_score", JInt 10); ("max_score", JInt 20);
                      ("games_per_session", JInt 3); ("game_delay", JInt 1)])]
              [sample_account] [] eq_refl eq_refl eq_refl eq_refl)
    as [Hok Hscores].
  split; [exact Hok|]. apply Hscores. reflexivity.
Defined.

(** ** What a sweep leaves unchanged *)

(** X11. A sweep of [play_all_accounts] on a constructed object returns
    normally and leaves the object constructed, with the same config,
    account list and proxy list; the trace only grows: what
    was logged, posted or slept before is still there, in front. *)
Theorem sweep_keeps_object
    (w : World) (src : source_file) (st : State) :
  constructed (self st) = true ->
  let run := play_all_accounts w src st in
  fst run = Ok tt /\
  constructed (self (snd run)) = true /\
  config (self (snd run)) = config (self st) /\
  accounts (self (snd run)) = accounts (self st) /\
  proxies (self (snd run)) = proxies (self st) /\
  trace (snd run) = trace st ++ new_events st (snd run).
Proof.
  intros Hc run.
  destruct (constructed_bot _ Hc) as (cfg & accs & prox & Hst).
  destruct (spec_play_all_accounts w src cfg accs prox st Hst)
    as (evs & Hst' & Htr & Hr & _).
  fold run in Hst', Htr, Hr.
  split; [exact Hr|]. split; [eapply bot_constructed; eauto|].
  destruct Hst as (E1 & E2 & E3 & _), Hst' as (E1' & E2' & E3' & _).
  rewrite (new_events_app _ _ _ Htr).
  repeat split; congruence.
Qed.

Lemma sweep_keeps_object_sample :
  let st := constructed_in friendly_world Bot1 in
  let run := play_all_accounts friendly_world Bot1 st in
  constructed (self st) = true /\
  fst run = Ok tt /\
  accounts (self (snd run)) = Some [sample_account].
Proof.
  cbv zeta. split; [reflexivity|].
  destruct (sweep_keeps_object friendly_world Bot1
              (constructed_in friendly_world Bot1) eq_refl)
    as (Hr & _ & _ & Ha & _).
  split; [exact Hr|]. rewrite Ha. reflexivity.
Defined.

(** ** The pool of user agents of [src/bot1.py] is read once *)

Lemma user_agent_random_self w st :
  self (snd (user_agent_random w st)) = self st.
Proof.
  unfold user_agent_random, bind, getattr, next_tick.
  destruct (user_agent (self st)); [|reflexivity].
  simpl. destruct (fake_ua w (tick st)); reflexivity.
Qed.

Lemma random_choice_self w {A} (l : list A) st :
  self (snd (random_choice w l st)) = self st.
Proof.
  unfold random_choice. destruct l as [|x l]; [reflexivity|].
  unfold bind, randbelow, next_tick. simpl.
  destruct (nth_error _ _); reflexivity.
Qed.

Lemma pick_user_agent_self w st :
  self (snd (pick_user_agent w st)) = self st.
Proof.
  unfold pick_user_agent, bind, getattr.
  destruct (full_user_agents (self st)) as [[|x l]|]; [| |reflexivity].
  - apply user_agent_random_self.
  - apply (random_choice_self w (x :: l)).
Qed.

Lemma try_user_agent_self w (body : M string) st s :
  self (snd (body st)) = s ->
  self (snd (try_except body is_Exception (fun _ => user_agent_random w) st)) = s.
Proof.
  intros H. unfold try_except.
  destruct (body st) as [[ua|e] st1]; [exact H|].
  destruct (is_Exception e); [|exact H].
  rewrite user_agent_random_self. exact H.
Qed.

Lemma quiet_bind {A B} (m : M A) (f : A -> M B) :
  (forall st, trace (snd (m st)) = trace st) ->
  (forall a st, trace (snd (f a st)) = trace st) ->
  forall st, trace (snd (bind m f st)) = trace st.
Proof.
  intros Hm Hf st. unfold bind. specialize (Hm st).
  destruct (m st) as [[a|e] st1]; simpl in *; [|exact Hm].
  now rewrite Hf.
Qed.

Lemma quiet_try {A} (m : M A) handles (handler : exn -> M A) :
  (forall st, trace (snd (m st)) = trace st) ->
  (forall e st, trace (snd (handler e st)) = trace st) ->
  forall st, trace (snd (try_except m handles handler st)) = trace st.
Proof.
  intros Hm Hh st. unfold try_except. specialize (Hm st).
  destruct (m st) as [[a|e] st1]; simpl in *; [exact Hm|].
  destruct (handles e); [|exact Hm]. now rewrite Hh.
Qed.

Lemma quiet_getattr {A} (field : Self -> option A) st :
  trace (snd (getattr field st)) = trace st.
Proof. unfold getattr. destruct (field (self st)); reflexivity. Qed.

Lemma quiet_user_agent_random w st :
  trace (snd (user_agent_random w st)) = trace st.
Proof.
  unfold user_agent_random.
  apply quiet_bind; [apply quiet_getattr|]. intros _ s.
  apply quiet_bind; [reflexivity|]. intros t s'.
  destruct (fake_ua w t); reflexivity.
Qed.

Lemma quiet_random_choice w {A} (l : list A) st :
  trace (snd (random_choice w l st)) = trace st.
Proof.
  unfold random_choice. destruct l as [|x l]; [reflexivity|].
  apply quiet_bind; [reflexivity|]. intros i s.
  destruct (nth_error _ _); reflexivity.
Qed.

Lemma quiet_pick_user_agent w st :
  trace (snd (pick_user_agent w st)) = trace st.
Proof.
  unfold pick_user_agent.
  apply quiet_bind; [apply quiet_getattr|]. intros [|x l] s.
  - apply quiet_user_agent_random.
  - apply (quiet_random_choice w (x :: l)).
Qed.

Lemma user_agent_quiet w src st :
  trace (snd (get_random_user_agent w src st)) = trace st.
Proof.
  unfold get_random_user_agent. destruct src.
  - apply quiet_try; [|intros; apply quiet_user_agent_random].
    apply quiet_bind.
    + intros s. unfold hasattr. destruct (full_user_agents (self s)); reflexivity.
    + intros [|] s.
      * apply quiet_pick_user_agent.
      * destruct (path_exists w "user_agents.txt").
        -- apply quiet_bind.
           ++ intros s'. unfold read_lines.
              destruct (read_text w "user_agents.txt"); reflexivity.
           ++ intros lines s'. apply quiet_bind; [reflexivity|].
              intros _ s''. apply quiet_pick_user_agent.
        -- apply quiet_user_agent_random.
  - apply quiet_try; [apply quiet_user_agent_random|].
    intros e s. apply quiet_random_choice.
Qed.

(** X12. In [src/bot1.py], [get_random_user_agent] reads [user_agents.txt]
    only while the object has no loaded pool: the first call that finds the
    file stores its non-blank, stripped lines in the object; a pool already
    stored is never replaced, whatever the file holds then; and while the
    file is absent, or cannot be read, nothing is stored.  The call changes
    nothing else of the object and adds nothing to the trace. *)
Theorem user_agent_pool_loaded_once (w : World) (st : State) :
  let st' := snd (get_random_user_agent w Bot1 st) in
  full_user_agents (self st')
  = match full_user_agents (self st) with
    | Some pool => Some pool
    | None =>
        match read_text w "user_agents.txt" with
        | TextLines lines => Some (nonempty_lines lines)
        | NoTextFile | UnreadableText | UndecodableText => None
        end
    end /\
  config (self st') = config (self st) /\
  accounts (self st') = accounts (self st) /\
  proxies (self st') = proxies (self st) /\
  logger (self st') = logger (self st) /\
  trace st' = trace st.
Proof.
  cbv zeta. cbn [get_random_user_agent].
  assert (Htrace : trace (snd (get_random_user_agent w Bot1 st)) = trace st).
  { apply user_agent_quiet. }
  assert (Hself :
    self (snd (get_random_user_agent w Bot1 st))
    = match full_user_agents (self st) with
      | Some _ => self st
      | None =>
          match read_text w "user_agents.txt" with
          | TextLines lines => set_full_user_agents (nonempty_lines lines) (self st)
          | _ => self st
          end
      end).
  { cbn [get_random_user_agent]. apply try_user_agent_self.
    unfold bind at 1. unfold hasattr.
    destruct (full_user_agents (self st)) as [pool|] eqn:Efull.
    - apply pick_user_agent_self.
    - unfold path_exists, read_lines.
      destruct (read_text w "user_agents.txt") as [| | |lines].
      + apply user_agent_random_self.
      + reflexivity.
      + reflexivity.
      + unfold bind at 1. cbn [ret]. unfold bind at 1. cbn [setattr].
        rewrite pick_user_agent_self. reflexivity. }
  cbn [get_random_user_agent] in Htrace, Hself.
  rewrite Hself. split; [|split; [|split; [|split; [|split]]]]; try exact Htrace;
    destruct (full_user_agents (self st)) as [pool|] eqn:Efull; try reflexivity;
    try (exact Efull);
    destruct (read_text w "user_agents.txt"); try reflexivity; exact Efull.
Qed.

(** ** Equal game codes *)

Lemma is_digit_not_underscore c : is_digit c = true -> c <> "_"%char.
Proof. intros H ->. discriminate. Qed.

Lemma split_at_underscore ds :
  forall ds' hs hs',
    forallb is_digit ds = true -> forallb is_digit ds' = true ->
    ds ++ "_"%char :: hs = ds' ++ "_"%char :: hs' ->
    ds = ds' /\ hs = hs'.
Proof.
  induction ds as [|c ds IH]; intros [|c' ds'] hs hs' Hd Hd' E; simpl in *.
  - injection E as ->. auto.
  - injection E as <- _. apply andb_true_iff in Hd' as [Hc _]. discriminate.
  - injection E as -> _. apply andb_true_iff in Hd as [Hc _]. discriminate.
  - injection E as -> E.
    apply andb_true_iff in Hd as [_ Hd]. apply andb_true_iff in Hd' as [_ Hd'].
    destruct (IH ds' hs hs' Hd Hd' E) as [-> ->]. auto.
Qed.

Lemma chars_injective s s' : chars s = chars s' -> s = s'.
Proof.
  intros H. rewrite <- (string_of_list_ascii_of_string s),
    <- (string_of_list_ascii_of_string s').
  unfold chars in H. now rewrite H.
Qed.

Lemma str_of_N_injective n n' : str_of_N n = str_of_N n' -> n = n'.
Proof.
  unfold str_of_N. intros H.
  apply DecimalN.Unsigned.to_uint_inj.
  pose proof (NilEmpty.usu (N.to_uint n)) as E.
  rewrite H, NilEmpty.usu in E. now injection E.
Qed.

Lemma game_id_of_equal t u t' u' :
  game_id_of t u = game_id_of t' u' <->
  t = t' /\ firstn 8 (hex_digits 32 u) = firstn 8 (hex_digits 32 u').
Proof.
  unfold game_id_of. rewrite !random_part_eq. split.
  - intros H. apply (f_equal chars) in H.
    rewrite !chars_append, !chars_text in H.
    change (chars "_" ++ ?l) with ("_"%char :: l) in H.
    apply split_at_underscore in H as [Ht Hh]; try apply str_of_N_digits.
    split; [|exact Hh].
    apply str_of_N_injective. now apply chars_injective.
  - intros [-> ->]. reflexivity.
Qed.

(** X13. Two codes made by [get_game_id] are equal exactly when the clock
    read the same millisecond and the two UUIDs start with the same eight
    hexadecimal digits: calls in different milliseconds never give the
    same code. *)
Theorem game_codes_equal_iff
    (w : World) (st1 st2 : State) (account1 account2 : account) :
  logger (self st1) <> None ->
  logger (self st2) <> None ->
  (fst (get_game_id w account1 st1) = fst (get_game_id w account2 st2) <->
   clock_ms w (tick st1) = clock_ms w (tick st2) /\
   firstn 8 (hex_digits 32 (N.modulo (uuid_bits w (S (tick st1))) (2 ^ 128)))
   = firstn 8 (hex_digits 32 (N.modulo (uuid_bits w (S (tick st2))) (2 ^ 128)))) /\
  (clock_ms w (tick st1) <> clock_ms w (tick st2) ->
   fst (get_game_id w account1 st1) <> fst (get_game_id w account2 st2)).
Proof.
  intros H1 H2.
  rewrite (get_game_id_run w account1 st1 H1), (get_game_id_run w account2 st2 H2).
  cbn [fst].
  assert (Hiff : forall c c' : string, @Ok (option string) (Some c) = Ok (Some c') <-> c = c').
  { intros c c'. split; [intros E; now injection E|intros ->; reflexivity]. }
  split.
  - rewrite Hiff. apply game_id_of_equal.
  - intros Hne E. apply Hiff, game_id_of_equal in E. tauto.
Qed.

Lemma game_codes_equal_iff_sample :
  let st := constructed_in ticking_clock_world Bot1 in
  let st' := snd (get_game_id ticking_clock_world sample_account st) in
  logger (self st) <> None /\
  fst (get_game_id ticking_clock_world sample_account st)
  <> fst (get_game_id ticking_clock_world sample_account st').
Proof.
  cbv zeta.
  assert (H1 : logger (self (constructed_in ticking_clock_world Bot1)) <> None)
    by discriminate.
  assert (H2 : logger (self (snd (get_game_id ticking_clock_world sample_account
                                    (constructed_in ticking_clock_world Bot1)))) <> None)
    by discriminate.
  split; [exact H1|].
  apply (proj2 (game_codes_equal_iff ticking_clock_world _ _
                  sample_account sample_account H1 H2)).
  vm_compute. discriminate.
Defined.

(** ** What a round and a sweep report *)

Section Reports.

Variable w : World.
Variable src : source_file.
Variable cfg : list (string * json).
Variable accs : list account.
Variable prox : list string.

Local Abbreviation meets := (spec cfg accs prox).

Lemma ends_with_app ev before evs : ends_with ev evs -> ends_with ev (before ++ evs).
Proof.
  intros [pre ->]. exists (before ++ pre). now rewrite app_assoc.
Qed.

Lemma ends_with_last ev : ends_with ev ([ev] ++ []).
Proof. exists []. reflexivity. Qed.

(** The way every failure of a round ends: [logger_error m;; ret false]. *)
Lemma spec_report_failure m :
  meets (logger_error m;; ret false)
        (fun r evs => r = Ok false /\ ends_with (EvLog ERROR m) evs).
Proof.
  eapply spec_bind; [apply spec_logger_call| |];
    [|intros e evs [H _]; discriminate].
  intros [] evs [_ ->]. apply spec_ret.
  split; [reflexivity|]. apply ends_with_last.
Qed.

Lemma spec_play_single_game_reported account game_round :
  meets (play_single_game w src account game_round)
        (round_reported account game_round).
Proof.
  unfold play_single_game.
  eapply spec_try with
    (Q1 := fun r evs =>
             match r with
             | Ok _ => round_reported account game_round r evs
             | Raise e => is_Exception e = true
             end).
  - eapply spec_bind; [apply spec_logger_call| |];
      [|intros e evs [H _]; discriminate].
    intros [] evs1 [_ ->].
    eapply spec_bind; [apply spec_get_game_code| |];
      [|intros e evs (_ & code & H & _); discriminate].
    intros game_code evs2 (_ & code & Hc & Hf). injection Hc as ->.
    unfold falsy_code. rewrite (is_game_code_nonempty _ Hf).
    eapply spec_bind; [apply spec_check_game_code| |];
      [|intros e evs (b & H & _); discriminate].
    intros checked evs3 (b & Hb & _). injection Hb as ->.
    destruct b; simpl negb; cbv iota.
    + eapply spec_bind; [apply spec_game_setting| |].
      2:{ intros e evs [H _]. symmetry in H. eapply setting_exception; eauto. }
      intros min_score evs4 _.
      eapply spec_bind; [apply spec_game_setting| |].
      2:{ intros e evs [H _]. symmetry in H. eapply setting_exception; eauto. }
      intros max_score evs5 _.
      eapply spec_bind; [apply spec_randint| |].
      2:{ intros e evs [_ H]. exact H. }
      intros score evs6 _.
      eapply spec_bind; [apply spec_logger_call| |];
        [|intros e evs [H _]; discriminate].
      intros [] evs7 _.
      eapply spec_bind; [apply spec_record_game_score| |];
        [|intros e evs (b & H & _); discriminate].
      intros recorded evs8 (b & Hb & _). injection Hb as ->.
      destruct b.
      * eapply spec_bind; [apply spec_logger_call| |];
          [|intros e evs [H _]; discriminate].
        intros [] evs9 [_ ->]. apply spec_ret.
        repeat (first [apply ends_with_last | apply ends_with_app]).
      * eapply spec_weaken; [apply spec_report_failure|].
        intros r evs [-> H]. eexists. repeat apply ends_with_app. exact H.
    + eapply spec_weaken; [apply spec_report_failure|].
      intros r evs [-> H]. eexists. repeat apply ends_with_app. exact H.
  - intros b evs H. exact H.
  - intros e evs1 H E. congruence.
  - intros e evs1 _ _.
    eapply spec_weaken; [apply spec_report_failure|].
    intros r evs [-> H]. eexists. apply ends_with_app. exact H.
Qed.

Lemma spec_play_accounts_loop_count todo :
  forall success_count,
    meets (play_accounts_loop w src todo success_count)
          (fun r evs =>
             exists n, r = Ok n /\
               success_count <= n <= success_count + Z.of_nat (List.length todo) /\
               n - success_count <= Z.of_nat (recorded_ok evs)).
Proof.
  induction todo as [|account rest IH]; intros sc; cbn [play_accounts_loop].
  - apply spec_ret. exists sc. simpl. repeat split; lia.
  - eapply spec_bind; [apply spec_play_game| |].
    2:{ intros e evs (_ & b & H & _). discriminate. }
    intros played evs1 (_ & b & Hb & Honly & _). injection Hb as ->.
    eapply spec_bind; [apply spec_random_uniform| |].
    2:{ intros e evs (_ & t & H). discriminate. }
    intros jitter evs2 (-> & t & Hd). injection Hd as ->.
    eapply spec_bind; [apply spec_time_sleep| |].
    + intros [] evs3 [(_ & ->)|(e & H & _)]; [|discriminate].
      eapply spec_weaken; [apply IH|].
      intros r evs4 (n & -> & Hn & Hrec). exists n. split; [reflexivity|].
      rewrite !recorded_ok_app.
      change (recorded_ok []) with 0%nat.
      change (recorded_ok [EvSleep BetweenAccounts
                             (uniform 1 (jitter_high src) (random_draw w t))])
        with 0%nat.
      cbn [List.length].
      destruct b.
      * specialize (Honly eq_refl). split; lia.
      * split; lia.
    + intros e evs3 [(H & _)|(e' & _ & _ & _ & Hno)]; [discriminate|].
      exfalso. apply Hno. apply jitter_accepted.
Qed.

Lemma spec_sweep_reported (todo : list account) :
  meets (match todo with
         | [] => logger_warning MsgNoAccounts
         | _ :: _ =>
             logger_info (MsgSweepStart (List.length todo));;
             success_count <- play_accounts_loop w src todo 0;;
             logger_info (MsgSweepDone success_count (List.length todo))
         end)
        (sweep_reported todo).
Proof.
  unfold sweep_reported. destruct todo as [|a rest].
  - eapply spec_weaken; [apply spec_logger_call|].
    intros r evs [-> ->]. auto.
  - eapply spec_bind; [apply spec_logger_call| |];
      [|intros e evs [H _]; discriminate].
    intros [] evs2 [_ ->].
    eapply spec_bind; [apply spec_play_accounts_loop_count| |].
    2:{ intros e evs (n & H & _). discriminate. }
    intros n' evs3 (n & Hn & Hbounds & Hrec). injection Hn as ->.
    eapply spec_weaken; [apply spec_logger_call|].
    intros r evs [-> ->]. split; [reflexivity|].
    exists n. split; [|split].
    + repeat apply ends_with_app. exists []. reflexivity.
    + lia.
    + rewrite !recorded_ok_app.
      change (recorded_ok [EvLog INFO (MsgSweepStart (List.length (a :: rest)))])
        with 0%nat.
      lia.
Qed.

Lemma spec_play_all_accounts_reported :
  meets (play_all_accounts w src) (sweep_reported accs).
Proof.
  unfold play_all_accounts.
  eapply spec_bind; [apply spec_getattr_accounts| |].
  2:{ intros e evs [H _]. discriminate. }
  intros l evs1 [Hl ->]. injection Hl as ->.
  apply spec_sweep_reported.
Qed.

End Reports.

(** X14. On a constructed object [play_single_game] never raises, and how
    the round went is the last thing it logs: the record "round done" when
    it returns [True], a record of level ERROR when it returns [False],
    whichever step failed. *)
Theorem round_result_is_logged
    (w : World) (src : source_file) (st : State)
    (account : account) (game_round : Z) :
  constructed (self st) = true ->
  let run := play_single_game w src account game_round st in
  let evs := new_events st (snd run) in
  match fst run with
  | Ok true => ends_with (EvLog INFO (MsgRoundDone (acc_name account) game_round)) evs
  | Ok false => exists m, ends_with (EvLog ERROR m) evs
  | Raise _ => False
  end.
Proof.
  intros Hc run evs.
  destruct (constructed_bot _ Hc) as (cfg & accs & prox & Hst).
  exact (proj1 (spec_run _ _ _ _ _ _
                  (spec_play_single_game_reported w src cfg accs prox account game_round)
                  Hst)).
Qed.

Lemma round_result_is_logged_sample :
  let st := constructed_in hostile_world Bot1 in
  let run := play_single_game hostile_world Bot1 sample_account 1 st in
  constructed (self st) = true /\
  fst run = Ok false /\
  exists m, ends_with (EvLog ERROR m) (new_events st (snd run)).
Proof.
  cbv zeta. split; [reflexivity|].
  pose proof (round_result_is_logged hostile_world Bot1
                (constructed_in hostile_world Bot1) sample_account 1 eq_refl)
    as H.
  cbv zeta in H.
  assert (fst (play_single_game hostile_world Bot1 sample_account 1
                 (constructed_in hostile_world Bot1)) = Ok false) as E
    by (vm_compute; reflexivity).
  split; [exact E|]. rewrite E in H. exact H.
Defined.

(** X15. A sweep over a list of accounts that is not empty ends with the
    log of its count of successful accounts; that count is at most the
    number of accounts, and at most the number of scores the record
    endpoint accepted during the sweep: no account is counted without an
    accepted score. *)
Theorem sweep_count_is_backed_by_scores
    (w : World) (src : source_file) (st : State) (accs : list account) :
  constructed (self st) = true ->
  accounts (self st) = Some accs ->
  accs <> [] ->
  let evs := new_events st (snd (play_all_accounts w src st)) in
  exists n,
    ends_with (EvLog INFO (MsgSweepDone n (List.length accs))) evs /\
    0 <= n <= Z.of_nat (List.length accs) /\
    n <= Z.of_nat (recorded_ok evs).
Proof.
  intros Hc Ha Hne evs.
  destruct (constructed_bot _ Hc) as (cfg & accs' & prox & Hst).
  assert (accs' = accs) as -> by (destruct Hst as (_ & H & _); congruence).
  destruct (spec_run _ _ _ _ _ _
              (spec_play_all_accounts_reported w src cfg accs prox) Hst)
    as [[_ H] _].
  fold evs in H. destruct accs as [|a rest]; [congruence|exact H].
Qed.

Lemma sweep_count_is_backed_by_scores_sample :
  let st := constructed_in friendly_world Bot1 in
  let evs := new_events st (snd (play_all_accounts friendly_world Bot1 st)) in
  accounts (self st) = Some [sample_account] /\
  exists n,
    ends_with (EvLog INFO (MsgSweepDone n 1)) evs /\
    0 <= n <= 1 /\
    n <= Z.of_nat (recorded_ok evs).
Proof.
  cbv zeta. split; [reflexivity|].
  apply (sweep_count_is_backed_by_scores friendly_world Bot1
           (constructed_in friendly_world Bot1) [sample_account]);
    [reflexivity|reflexivity|discriminate].
Defined.

(** ** [main] with [--once] *)

(** X16. With [--once] the process ends normally exactly when the
    constructor does: after [__init__] ran to its end, [run_once] returns
    whatever the files hold and the servers answer; no failure of a round,
    a session or a sweep reaches [main]. *)
Theorem main_once_fails_only_in_constructor
    (w : World) (src : source_file) (polls : list bool) (st : State) :
  fst (main w src true polls st) = Ok tt <-> fst (init w src st) = Ok tt.
Proof.
  unfold main, run_once. unfold bind at 1.
  destruct (init w src st) as [[[]|e] s1] eqn:E; cbn [fst].
  - split; [reflexivity|]. intros _.
    apply init_outcome in E as (Hc & _).
    destruct (constructed_bot _ Hc) as (cfg & accs & prox & Hst).
    destruct (spec_play_all_accounts w src cfg accs prox s1 Hst)
      as (evs & _ & _ & Hr & _).
    exact Hr.
  - split; discriminate.
Qed.
